(** * EVM balance checker: a shallow embedding of [main.py]

    The development follows the balance-resolution engine of [main.py]:
    the endpoint rotator ([get_next_rpc]), the balance fetcher
    ([get_balance_for_network]), the per-wallet fan-out
    ([process_wallet_chunk]), the batch scheduler ([evm_checker]), the
    base-unit conversion ([Decimal(balance) / Decimal(10**18)]) and the
    rate limiter ([wait_for_rate_limit]).

    Python exceptions (those derived from [Exception]; cancellation is
    not modelled) are values of [exn]; a computation that may raise
    returns a [result].  The module-level dictionary [current_rpc_index]
    is threaded explicitly (a [gmap string nat]); the configuration
    dictionary [networks] keeps its insertion order and is an association
    list.

    The program runs on the event loop of [asyncio]: a coroutine runs
    without interruption from one [await] that suspends to the next.  In
    [get_balance_for_network] the suspensions are the semaphore, the rate
    limiter and [session.post], all before the reply is looked at; the
    handling of the reply, with its call of [get_next_rpc], is atomic.
    What the remote endpoints answer, what the other tasks do to the
    shared cursor while a fetch is suspended, and the order in which the
    tasks of a [gather] complete, is supplied by an environment record
    over which the theorems quantify.  The timing side, the semaphore and
    [wait_for_rate_limit], has a step semantics of its own in
    [RateLimiter].  The HTTP session is taken to open and close without
    error, and logging is left out. *)

From Stdlib Require Import ZArith QArith Lia Lqa Ascii String.
From stdpp Require Import base list strings gmap.

Open Scope string_scope.
Open Scope list_scope.
Open Scope Z_scope.
Open Scope nat_scope.

(** ** Exceptions and results *)

Inductive exn : Type :=
| IndexError          (* list index out of range *)
| KeyError            (* missing dictionary key *)
| ZeroDivisionError   (* integer modulo by zero *)
| ValueError          (* range() arg 3 must not be zero, invalid literal *)
| TypeError           (* result["result"] is not a string *)
| DecimalOverflow     (* decimal.Overflow, trapped by the default context *)
| RPCError (msg : string)     (* raise Exception(f"RPC Error: ...") *)
| HTTPError                   (* response.raise_for_status() *)
| TransportError (msg : string).  (* what session.post / response.json raise *)

Inductive result (A : Type) : Type :=
| Return (a : A)
| Raise (e : exn).
Arguments Return {A} a.
Arguments Raise {A} e.

(** [str(e)], as far as the text is fixed by the interpreter. *)
Definition str_exn (e : exn) : string :=
  match e with
  | IndexError => "list index out of range"
  | KeyError => "key"
  | ZeroDivisionError => "integer modulo by zero"
  | ValueError => "invalid literal for int() with base 16"
  | TypeError => "int() can't convert non-string with explicit base"
  | DecimalOverflow => "[<class 'decimal.Overflow'>]"
  | RPCError msg => "RPC Error: " +:+ msg
  | HTTPError => "HTTP Error"
  | TransportError msg => msg
  end.

(** ** Global state and the state-and-exception monad *)

(** [current_rpc_index] is the module-level dictionary of [main.py];
    [posted] is a ghost trace of the requests handed to [session.post]
    (network, address, endpoint), most recent last. *)
Record State : Type := mkState {
  current_rpc_index : gmap string nat;
  posted : list (string * string * string)
}.

Definition initial_state : State :=
  {| current_rpc_index := ∅; posted := [] |}.

(** A statement sequence that reads and writes the globals and may
    raise.  The state survives an exception, as in Python. *)
Definition M (A : Type) : Type := State -> result A * State.

Definition ret {A} (a : A) : M A := fun st => (Return a, st).
Definition raise {A} (e : exn) : M A := fun st => (Raise e, st).
Definition bind {A B} (m : M A) (k : A -> M B) : M B :=
  fun st => match m st with
            | (Return a, st') => k a st'
            | (Raise e, st') => (Raise e, st')
            end.
(** [try: body except Exception as e: handler(e)] *)
Definition try_except {A} (body : M A) (handler : exn -> M A) : M A :=
  fun st => match body st with
            | (Return a, st') => (Return a, st')
            | (Raise e, st') => handler e st'
            end.

Notation "'let!' x ':=' m 'in' k" := (bind m (fun x => k))
  (at level 10, x pattern, m at level 100, k at level 200).

(** ** Strings *)

Definition lower_ascii (c : ascii) : ascii :=
  let n := nat_of_ascii c in
  if (65 <=? n) && (n <=? 90) then ascii_of_nat (n + 32) else c.

(** [str.lower] on ASCII text. *)
Fixpoint lower (s : string) : string :=
  match s with
  | EmptyString => EmptyString
  | String c s' => String (lower_ascii c) (lower s')
  end.

(** [needle in s] *)
Fixpoint contains (needle s : string) : bool :=
  if String.prefix needle s then true
  else match s with
       | EmptyString => false
       | String _ s' => contains needle s'
       end.

(** The characters [str.strip] removes, within ASCII: tab, line feed,
    vertical tab, form feed, carriage return, the four separators
    0x1c-0x1f and the space. *)
Definition is_space (c : ascii) : bool :=
  let n := nat_of_ascii c in
  ((9 <=? n) && (n <=? 13)) || ((28 <=? n) && (n <=? 32)).

Fixpoint lstrip (s : string) : string :=
  match s with
  | EmptyString => EmptyString
  | String c s' => if is_space c then lstrip s' else s
  end.

Fixpoint rstrip (s : string) : string :=
  match s with
  | EmptyString => EmptyString
  | String c s' =>
      match rstrip s' with
      | EmptyString => if is_space c then EmptyString else String c EmptyString
      | r => String c r
      end
  end.

Definition strip (s : string) : string := rstrip (lstrip s).

(** ** [int(text, 16)]

    The text-to-integer conversion of line 142, as CPython performs it on
    ASCII text: surrounding white space is skipped, then an optional
    sign, an optional [0x] / [0X] prefix (one underscore may follow it)
    and hexadecimal digits with single underscores between them. *)

Definition hex_digit (c : ascii) : option Z :=
  let n := Z.of_nat (nat_of_ascii c) in
  if ((48 <=? n) && (n <=? 57))%Z then Some (n - 48)%Z
  else if ((97 <=? n) && (n <=? 102))%Z then Some (n - 87)%Z
  else if ((65 <=? n) && (n <=? 70))%Z then Some (n - 55)%Z
  else None.

Definition is_underscore (c : ascii) : bool := bool_decide (c = "_"%char).

(** White space for [int]: the six characters of C's [isspace]. *)
Definition is_cspace (c : ascii) : bool :=
  let n := nat_of_ascii c in
  ((9 <=? n) && (n <=? 13)) || (n =? 32).

Fixpoint skip_cspace (s : string) : string :=
  match s with
  | EmptyString => EmptyString
  | String c s' => if is_cspace c then skip_cspace s' else s
  end.

Fixpoint all_space (s : string) : bool :=
  match s with
  | EmptyString => true
  | String c s' => is_cspace c && all_space s'
  end.

(** The digit loop: [acc] is the value so far, [prev] tells whether the
    previous character was an underscore, [seen] whether a digit was
    read.  It stops at the first character that is neither. *)
Fixpoint hex_digits (s : string) (acc : Z) (prev seen : bool) : option Z :=
  match s with
  | EmptyString => if prev || negb seen then None else Some acc
  | String c s' =>
      if is_underscore c then
        if prev then None else hex_digits s' acc true seen
      else match hex_digit c with
           | Some d => hex_digits s' (16 * acc + d)%Z false true
           | None => if prev || negb seen || negb (all_space s) then None
                     else Some acc
           end
  end.

Definition unprefix (s : string) : string :=
  match s with
  | String "0" (String x s') =>
      if bool_decide (x = "x"%char) || bool_decide (x = "X"%char) then
        match s' with
        | String "_" s'' => s''
        | _ => s'
        end
      else s
  | _ => s
  end.

Definition int16 (text : string) : result Z :=
  let s := skip_cspace text in
  let '(negative, s) :=
    match s with
    | String "+" s' => (false, s')
    | String "-" s' => (true, s')
    | _ => (false, s)
    end in
  let s := unprefix s in
  match s with
  | String "_" _ => Raise ValueError
  | _ => match hex_digits s 0 false false with
         | Some v => Return (if negative then (- v)%Z else v)
         | None => Raise ValueError
         end
  end.

(** ** [decimal.Decimal]

    Finite decimals [(-1)^sign * int * 10^exp] with the arithmetic of the
    default context: 28 significant digits, round-half-even, exponents
    between [Emin] and [Emax], and the [Overflow], [DivisionByZero] and
    [InvalidOperation] signals trapped. *)

Record Decimal : Type := mkDecimal {
  d_sign : bool;   (* true for a negative number *)
  d_int : Z;       (* the coefficient, not negative *)
  d_exp : Z
}.

Definition prec : Z := 28.
Definition Emax : Z := 999999.
Definition Emin : Z := -999999.
Definition Etiny : Z := Emin - prec + 1.
Definition Etop : Z := Emax - prec + 1.

(** [len(str(n))] for [n >= 0]. *)
Fixpoint ndigits_fuel (fuel : nat) (n : Z) : Z :=
  match fuel with
  | O => 1
  | S fuel' => if (n <? 10)%Z then 1%Z else (1 + ndigits_fuel fuel' (n / 10))%Z
  end.

Definition ndigits (n : Z) : Z := ndigits_fuel (Z.to_nat (Z.log2 n + 1)) n.

(** [Decimal(value)] for an [int]: exact, whatever the context. *)
Definition Decimal_of_int (value : Z) : Decimal :=
  {| d_sign := (value <? 0)%Z; d_int := Z.abs value; d_exp := 0 |}.

(** [_round_half_even(self, prec)] on a coefficient of [len] digits of
    which [keep] are kept: 1 rounds away from zero, 0 is exact, -1
    truncates. *)
Definition round_half_even (int len keep : Z) : Z :=
  let unit := (10 ^ (len - keep))%Z in
  let rest := (int mod unit)%Z in
  let half := (5 * 10 ^ (len - keep - 1))%Z in
  if ((rest =? half) && ((keep =? 0) || Z.even (int / unit)))%Z then (-1)%Z
  else if (half <=? rest)%Z then 1%Z
  else if (rest =? 0)%Z then 0%Z
  else (-1)%Z.

(** [Decimal._fix(context)]: round to [prec] digits, check the exponent. *)
Definition fix_ (self : Decimal) : result Decimal :=
  if (d_int self =? 0)%Z then
    Return {| d_sign := d_sign self; d_int := 0;
              d_exp := Z.min (Z.max (d_exp self) Etiny) Emax |}
  else
    let len := ndigits (d_int self) in
    let exp_min := (len + d_exp self - prec)%Z in
    if (Etop <? exp_min)%Z then Raise DecimalOverflow else
    let exp_min := if (exp_min <? Etiny)%Z then Etiny else exp_min in
    if (d_exp self <? exp_min)%Z then
      let digits := (len + d_exp self - exp_min)%Z in
      let '(int, len, digits) :=
        if (digits <? 0)%Z then (1%Z, 1%Z, 0%Z) else (d_int self, len, digits) in
      let changed := round_half_even int len digits in
      let coeff := (int / 10 ^ (len - digits))%Z in
      let '(coeff, exp_min) :=
        if (0 <? changed)%Z then
          if (prec <? ndigits (coeff + 1))%Z
          then (((coeff + 1) / 10)%Z, (exp_min + 1)%Z)
          else ((coeff + 1)%Z, exp_min)
        else (coeff, exp_min) in
      if (Etop <? exp_min)%Z then Raise DecimalOverflow
      else Return {| d_sign := d_sign self; d_int := coeff; d_exp := exp_min |}
    else Return self.

(** The loop of [__truediv__] that brings an exact quotient as close to
    the ideal exponent as its trailing zeros allow. *)
Fixpoint strip_zeros (fuel : nat) (coeff exp ideal_exp : Z) : Z * Z :=
  match fuel with
  | O => (coeff, exp)
  | S fuel' =>
      if ((exp <? ideal_exp) && (coeff mod 10 =? 0))%Z
      then strip_zeros fuel' (coeff / 10)%Z (exp + 1)%Z ideal_exp
      else (coeff, exp)
  end.

(** [Decimal.__truediv__] on finite operands. *)
Definition truediv (self other : Decimal) : result Decimal :=
  let sign := xorb (d_sign self) (d_sign other) in
  if (d_int other =? 0)%Z then Raise ZeroDivisionError else
  let '(coeff, exp) :=
    if (d_int self =? 0)%Z then (0%Z, (d_exp self - d_exp other)%Z)
    else
      let shift := (ndigits (d_int other) - ndigits (d_int self) + prec + 1)%Z in
      let exp := (d_exp self - d_exp other - shift)%Z in
      let num := if (0 <=? shift)%Z then (d_int self * 10 ^ shift)%Z else d_int self in
      let den := if (0 <=? shift)%Z then d_int other else (d_int other * 10 ^ (- shift))%Z in
      let coeff := (num / den)%Z in
      let remainder := (num mod den)%Z in
      if (remainder =? 0)%Z then
        let ideal_exp := (d_exp self - d_exp other)%Z in
        strip_zeros (Z.to_nat (ideal_exp - exp)) coeff exp ideal_exp
      else ((if (coeff mod 5 =? 0)%Z then coeff + 1 else coeff)%Z, exp)
  in
  fix_ {| d_sign := sign; d_int := coeff; d_exp := exp |}.

(** Line 143: [Decimal(balance) / Decimal(10**18)]. *)
Definition to_ether (balance : Z) : result Decimal :=
  truediv (Decimal_of_int balance) (Decimal_of_int (10 ^ 18)).

(** Lines 142-143 on the text of [result["result"]]. *)
Definition balance_of_hex (hex : string) : result Decimal :=
  match int16 hex with
  | Return balance => to_ether balance
  | Raise e => Raise e
  end.

Definition Decimal_zero : Decimal := Decimal_of_int 0.

(** [d] denotes the fraction [num / den] ([den] positive). *)
Definition denotes (d : Decimal) (num den : Z) : Prop :=
  let c := if d_sign d then (- d_int d)%Z else d_int d in
  if (0 <=? d_exp d)%Z then (c * 10 ^ d_exp d * den = num)%Z
  else (c * den = num * 10 ^ (- d_exp d))%Z.

(** ** Data model (lines 17-41) *)

Record NetworkBalance : Type := mkNetworkBalance {
  network : string;
  balance : Decimal;
  token : string
}.

Record WalletBalances : Type := mkWalletBalances {
  address : string;
  balances : list NetworkBalance
}.

Record BalanceReport : Type := mkBalanceReport {
  wallets : list WalletBalances
}.

(** ** What the outside world supplies *)

(** The decoded body of a reply, as far as lines 133-142 look at it. *)
Inductive json_value : Type :=
| JsonError (error_text : string)  (* has an "error" member; the text is str(result["error"]) *)
| JsonResult (hex : string)        (* no "error" member, result["result"] is this string *)
| JsonNoResult                     (* no "error" member and no "result" member *)
| JsonResultNotStr.                (* result["result"] is not a string *)

Record Response : Type := mkResponse {
  status_code : nat;
  text : string;
  json : result json_value;          (* response.json() *)
  raise_for_status : result unit     (* response.raise_for_status() *)
}.

(** One fetch sees, at each attempt (counted from 0): the calls of
    [get_next_rpc] that other tasks make while this one is suspended in
    the semaphore, the rate limiter or [session.post], and what
    [session.post] gives for the endpoint it is sent to. *)
Record FetchEnv : Type := mkFetchEnv {
  others : nat -> list string;
  respond : nat -> string -> result Response
}.

(** The whole run: a [FetchEnv] for every wallet (by position in the
    input list) and network, and the order in which the event loop
    completes the tasks of each [asyncio.gather] (see [gather]). *)
Record Env : Type := mkEnv {
  fetch_env : nat -> string -> FetchEnv;
  fetch_order : nat -> list nat;
  chunk_order : list nat
}.

(** ** [asyncio.gather]

    The tasks run to completion one after the other in an order chosen
    by the event loop: at each step [choices] picks, among the tasks
    still pending, the one that completes next (their finer interleaving
    is in the [others] of each fetch).  The results come back in the
    order of the awaitables; when a task raised, the first exception in
    completion order is raised to the awaiter (the remaining tasks are not
    cancelled: they still run, here before the awaiter goes on). *)

Fixpoint gather_run {A} (fuel : nat) (pending : list (nat * M A))
    (choices : list nat) (finished : list (nat * result A))
  : State -> list (nat * result A) * State :=
  fun st =>
    match fuel with
    | O => (finished, st)
    | S fuel' =>
        match pending !! (hd 0 choices mod length pending) with
        | Some (i, task) =>
            let '(r, st') := task st in
            gather_run fuel' (delete (hd 0 choices mod length pending) pending)
                       (tl choices) (finished ++ [(i, r)]) st'
        | None => (finished, st)
        end
    end.

Fixpoint first_raise {A} (finished : list (nat * result A)) : option exn :=
  match finished with
  | [] => None
  | (_, Raise e) :: _ => Some e
  | (_, Return _) :: rest => first_raise rest
  end.

Fixpoint result_of {A} (i : nat) (finished : list (nat * result A)) : option A :=
  match finished with
  | [] => None
  | (j, r) :: rest =>
      if decide (j = i) then match r with Return a => Some a | Raise _ => None end
      else result_of i rest
  end.

Definition gather {A} (choices : list nat) (tasks : list (M A)) : M (list A) :=
  fun st =>
    let '(finished, st') :=
      gather_run (length tasks) (imap pair tasks) choices [] st in
    match first_raise finished with
    | Some e => (Raise e, st')
    | None => (Return (omap (fun i => result_of i finished) (seq 0 (length tasks))), st')
    end.

(** ** [range] and slices *)

Fixpoint range_from (fuel i stop step : nat) : list nat :=
  match fuel with
  | O => []
  | S fuel' => if i <? stop then i :: range_from fuel' (i + step) stop step else []
  end.

(** [range(0, stop, step)] *)
Definition range0 (stop step : nat) : result (list nat) :=
  if decide (step = 0) then Raise ValueError
  else Return (range_from stop 0 stop step).

(** [l[i:j]] for [0 <= i <= j] *)
Definition slice {A} (l : list A) (i j : nat) : list A := take (j - i) (drop i l).

(** Lines 203-204 of [evm_checker]: the chunks, each with the position
    of its first wallet in the input list. *)
Definition wallet_chunks {A} (l : list A) : result (list (nat * list A)) :=
  let chunk_size := (length l + 4) / 5 in
  match range0 (length l) chunk_size with
  | Return starts => Return (map (fun i => (i, slice l i (i + chunk_size))) starts)
  | Raise e => Raise e
  end.

(** ** Vocabulary of the statements *)

(** The replies on which an attempt reaches [return] at line 143: no
    rate-limit mark, status 200, a body without "error" whose "result"
    is a hexadecimal integer that converts. *)
Definition is_success (r : result Response) : bool :=
  match r with
  | Return response =>
      negb ((status_code response =? 429)
            || contains "rate limit" (lower (text response)))
      && (status_code response =? 200)
      && match json response with
         | Return (JsonResult hex) =>
             match balance_of_hex hex with
             | Return _ => true
             | Raise _ => false
             end
         | _ => false
         end
  | Raise _ => false
  end.

(** The entry that line 192 adds for a wallet whose processing raised [e]. *)
Definition error_balance (e : exn) : NetworkBalance :=
  {| network := "ERROR"; balance := Decimal_zero;
     token := "Error: " +:+ str_exn e |}.

(** One entry per configured network, in configuration order. *)
Definition one_per_network (networks : list (string * list string))
    (wb : WalletBalances) : Prop :=
  map network (balances wb) = map fst networks.

(** Nothing but the synthetic entry. *)
Definition single_error_entry (wb : WalletBalances) : Prop :=
  exists e, balances wb = [error_balance e].

(** How the wallet read at one input position shows in the report:
    resolved under its stripped address, or recorded as failed under the
    address as given. *)
Definition reported (networks : list (string * list string))
    (wallet : string) (wb : WalletBalances) : Prop :=
  (address wb = strip wallet /\ one_per_network networks wb) \/
  (address wb = wallet /\ single_error_entry wb).

(** [st] with the cursor of network [n] at [i]. *)
Definition with_index (st : State) (n : string) (i : nat) : State :=
  {| current_rpc_index := <[n := i]> (current_rpc_index st); posted := posted st |}.

(** The cursor of [network], when there is one, points into its
    endpoint list: what [get_next_rpc] establishes with every store. *)
Definition cursor_in_range (rpc_list : list string) (network : string)
    (st : State) : Prop :=
  forall i, current_rpc_index st !! network = Some i -> i < length rpc_list.

(** ** Endpoint rotator *)

(** [networks[network]]; a dictionary holds each key once, so the first
    binding is the binding. *)
Fixpoint assoc (l : list (string * list string)) (network : string)
  : option (list string) :=
  match l with
  | [] => None
  | (k, v) :: l' => if decide (k = network) then Some v else assoc l' network
  end.

(** The configuration of spec section 3: every network has at least one
    endpoint. *)
Definition endpoints_nonempty (networks : list (string * list string)) : Prop :=
  Forall (fun n => n.2 <> []) networks.

(** Every cursor points into the endpoint list of its network. *)
Definition cursors_in_range (networks : list (string * list string))
    (st : State) : Prop :=
  forall network rpc_list,
    assoc networks network = Some rpc_list -> cursor_in_range rpc_list network st.

Section Engine.

(** [networks]: network name to its ordered endpoint list, in the
    iteration order of the dictionary built by [load_networks_config]. *)
Variable networks : list (string * list string).

Definition networks_get (network : string) : M (list string) :=
  match assoc networks network with
  | Some rpc_list => ret rpc_list
  | None => raise KeyError
  end.

Definition set_index (network : string) (i : nat) : M unit :=
  fun st => (Return tt, {| current_rpc_index := <[network := i]> (current_rpc_index st);
                           posted := posted st |}).

Definition get_index (network : string) : M nat :=
  fun st => match current_rpc_index st !! network with
            | Some i => (Return i, st)
            | None => (Raise KeyError, st)
            end.

Definition index_known (network : string) : M bool :=
  fun st => (Return (bool_decide (is_Some (current_rpc_index st !! network))), st).

(** [get_next_rpc], lines 77-89: stores the successor of the cursor and
    returns the endpoint at the cursor's old position. *)
Definition get_next_rpc (network : string) : M string :=
  let! known := index_known network in
  let! _ := (if known then ret tt else set_index network 0) in
  let! rpc_list := networks_get network in
  let! current_index := get_index network in
  if decide (length rpc_list = 0) then raise ZeroDivisionError else
  let next_index := (current_index + 1) mod length rpc_list in
  let! _ := set_index network next_index in
  match rpc_list !! current_index with
  | Some url => ret url
  | None => raise IndexError
  end.

(** [k] consecutive calls, the returned endpoints in call order. *)
Fixpoint advance_n (network : string) (k : nat) : M (list string) :=
  match k with
  | O => ret []
  | S k' => let! url := get_next_rpc network in
            let! rest := advance_n network k' in
            ret (url :: rest)
  end.

(** ** Balance fetcher *)

Definition lift {A} (r : result A) : M A := fun st => (r, st).

(** The calls of [get_next_rpc] made by other tasks; what they return or
    raise stays with those tasks. *)
Fixpoint interfere (calls : list string) : M unit :=
  match calls with
  | [] => ret tt
  | n :: rest =>
      let! _ := try_except (let! _ := get_next_rpc n in ret tt) (fun _ => ret tt) in
      interfere rest
  end.

(** [session.post(rpc_url, ...)] *)
Definition post (address network rpc_url : string) (r : result Response) : M Response :=
  fun st => (r, {| current_rpc_index := current_rpc_index st;
                   posted := posted st ++ [(network, address, rpc_url)] |}).

(** How one pass through the loop body ends. *)
Inductive step : Type :=
| Done (balance : Decimal)      (* return *)
| Continue (rpc_url : string).  (* next iteration, with this endpoint *)

Section Fetch.

Variable F : FetchEnv.
Variables address network : string.

(** The body of [try], lines 109-145. *)
Definition attempt_body (attempt : nat) (rpc_url : string) : M step :=
  let! _ := interfere (others F attempt) in
  let! response := post address network rpc_url (respond F attempt rpc_url) in
  if (status_code response =? 429) || contains "rate limit" (lower (text response)) then
    let! rpc_url := get_next_rpc network in
    ret (Continue rpc_url)
  else if status_code response =? 200 then
    let! result := lift (json response) in
    match result with
    | JsonError error_text =>
        if contains "rate" (lower error_text) then
          let! rpc_url := get_next_rpc network in
          ret (Continue rpc_url)
        else raise (RPCError error_text)
    | JsonResult hex =>
        let! amount := lift (balance_of_hex hex) in
        ret (Done amount)
    | JsonNoResult => raise KeyError
    | JsonResultNotStr => raise TypeError
    end
  else
    let! _ := lift (raise_for_status response) in
    ret (Continue rpc_url).

(** The [except Exception] clause, lines 147-153. *)
Definition attempt_handler (e : exn) : M step :=
  let! rpc_url := get_next_rpc network in
  ret (Continue rpc_url).

(** [for _ in range(retries)], then lines 155-157. *)
Fixpoint fetch_loop (retries attempt : nat) (rpc_url : string) : M Decimal :=
  match retries with
  | O => ret Decimal_zero
  | S retries' =>
      let! s := try_except (attempt_body attempt rpc_url) attempt_handler in
      match s with
      | Done amount => ret amount
      | Continue rpc_url' => fetch_loop retries' (S attempt) rpc_url'
      end
  end.

(** [get_balance_for_network], lines 101-157. *)
Definition get_balance_for_network : M Decimal :=
  let! rpc_list := networks_get network in
  let retries := length rpc_list in
  match rpc_list !! 0 with
  | Some rpc_url => fetch_loop retries 0 rpc_url
  | None => raise IndexError
  end.

End Fetch.

(** ** Wallet resolver and batch scheduler *)

Variable E : Env.

Definition coin_symbol (network_name : string) : string :=
  if decide (network_name = "BSC") then "BNB"
  else if decide (network_name = "Polygon") then "POL"
  else "ETH".

(** The body of [try], lines 166-187, for the wallet at position [pos]
    of the input list. *)
Definition wallet_body (pos : nat) (wallet : string) : M WalletBalances :=
  let address := strip wallet in
  let balance_tasks :=
    map (fun n => get_balance_for_network (fetch_env E pos n.1) address n.1) networks in
  let! balances := gather (fetch_order E pos) balance_tasks in
  ret {| address := address;
         balances := zip_with (fun n balance =>
                       {| network := n.1; balance := balance;
                          token := coin_symbol n.1 |}) networks balances |}.

(** The [except Exception] clause, lines 189-193. *)
Definition wallet_handler (wallet : string) (e : exn) : M WalletBalances :=
  ret {| address := wallet; balances := [error_balance e] |}.

(** One iteration of the loop of [process_wallet_chunk], lines 165-193. *)
Definition process_wallet (pos : nat) (wallet : string) : M WalletBalances :=
  try_except (wallet_body pos wallet) (wallet_handler wallet).

(** [process_wallet_chunk]; [pos] is the position of the chunk's first
    wallet in the input list. *)
Fixpoint process_wallet_chunk (pos : nat) (chunk : list string) : M (list WalletBalances) :=
  match chunk with
  | [] => ret []
  | wallet :: rest =>
      let! wallet_balances := process_wallet pos wallet in
      let! wallet_balances_list := process_wallet_chunk (S pos) rest in
      ret (wallet_balances :: wallet_balances_list)
  end.

(** [evm_checker], lines 198-223; [input] is its argument [wallets]. *)
Definition evm_checker (input : list string) : M BalanceReport :=
  let! chunks := lift (wallet_chunks input) in
  let tasks := map (fun c => process_wallet_chunk c.1 c.2) chunks in
  let! chunks_results := gather (chunk_order E) tasks in
  ret {| wallets := concat chunks_results |}.

End Engine.

(** ** Rate limiter and concurrency governor

    [wait_for_rate_limit] runs inside [async with REQUEST_SEMAPHORE], one
    call per attempt, under the cooperative scheduling of the event loop:
    a task runs without interruption up to its next suspension
    ([asyncio.sleep] at line 97, [session.post] at line 119, or a
    semaphore without a free permit), and the clock moves only while
    every task is suspended.  Time is in seconds. *)

Module RateLimiter.

Local Open Scope Q_scope.

Definition MIN_REQUEST_INTERVAL : Q := 3.

Definition Qlt_bool (a b : Q) : bool := negb (Qle_bool b a).

(** Where a fetch attempt stands. *)
Inductive pc : Type :=
| AtSemaphore          (* about to enter [async with REQUEST_SEMAPHORE] *)
| Sleeping (wake : Q)  (* in [asyncio.sleep], resumable from [wake] on *)
| Posting              (* in [session.post], holding its permit *)
| Finished.            (* left the [async with] block *)

Record task : Type := mkTask {
  t_network : string;
  t_pc : pc
}.

Record world : Type := mkWorld {
  now : Q;                              (* time.time() *)
  last_request_time : gmap string Q;    (* the module-level dictionary *)
  permits : nat;                        (* free permits of REQUEST_SEMAPHORE *)
  tasks : list task;
  dispatches : list (string * Q)        (* ghost: network and time of each session.post *)
}.

Definition start (networks_of_tasks : list string) : world :=
  {| now := 0; last_request_time := ∅; permits := 3;
     tasks := map (fun n => mkTask n AtSemaphore) networks_of_tasks;
     dispatches := [] |}.

Definition set_pc (i : nat) (p : pc) (ts : list task) : list task :=
  alter (fun t => mkTask (t_network t) p) i ts.

(** Line 98 and the [session.post] that follows it without suspension. *)
Definition record_and_post (i : nat) (network : string) (w : world) : world :=
  {| now := now w;
     last_request_time := <[network := now w]> (last_request_time w);
     permits := permits w;
     tasks := set_pc i Posting (tasks w);
     dispatches := dispatches w ++ [(network, now w)] |}.

(** Lines 93-97, entered with a permit: either the task goes to sleep,
    leaving [last_request_time] as it is, or it falls through to line 98. *)
Definition wait_for_rate_limit (i : nat) (network : string) (w : world) : world :=
  let current_time := now w in
  match last_request_time w !! network with
  | Some last =>
      let elapsed := current_time - last in
      if Qlt_bool elapsed MIN_REQUEST_INTERVAL then
        {| now := now w; last_request_time := last_request_time w;
           permits := permits w;
           tasks := set_pc i (Sleeping (now w + (MIN_REQUEST_INTERVAL - elapsed))) (tasks w);
           dispatches := dispatches w |}
      else record_and_post i network w
  | None => record_and_post i network w
  end.

Inductive event : Type :=
| Tick (d : Q)   (* every task is suspended while [d] seconds pass *)
| Run (i : nat). (* the event loop resumes task [i] up to its next suspension *)

(** One event; [None] when the event loop cannot do that now. *)
Definition step (ev : event) (w : world) : option world :=
  match ev with
  | Tick d =>
      if Qle_bool 0 d then
        Some {| now := now w + d; last_request_time := last_request_time w;
                permits := permits w; tasks := tasks w; dispatches := dispatches w |}
      else None
  | Run i =>
      match tasks w !! i with
      | None => None
      | Some t =>
          match t_pc t with
          | AtSemaphore =>
              match permits w with
              | O => None
              | S free =>
                  Some (wait_for_rate_limit i (t_network t)
                          {| now := now w; last_request_time := last_request_time w;
                             permits := free; tasks := tasks w;
                             dispatches := dispatches w |})
              end
          | Sleeping wake =>
              if Qle_bool wake (now w) then Some (record_and_post i (t_network t) w)
              else None
          | Posting =>
              Some {| now := now w; last_request_time := last_request_time w;
                      permits := S (permits w);
                      tasks := set_pc i Finished (tasks w);
                      dispatches := dispatches w |}
          | Finished => None
          end
      end
  end.

Fixpoint run (schedule : list event) (w : world) : option world :=
  match schedule with
  | [] => Some w
  | ev :: rest => match step ev w with
                  | Some w' => run rest w'
                  | None => None
                  end
  end.

Definition dispatch_times (network : string) (w : world) : list Q :=
  map snd (filter (fun d => d.1 = network) (dispatches w)).

(** Consecutive dispatches are at least [MIN_REQUEST_INTERVAL] apart. *)
Fixpoint spaced (times : list Q) : bool :=
  match times with
  | t1 :: rest =>
      match rest with
      | t2 :: _ => Qle_bool (t1 + MIN_REQUEST_INTERVAL) t2 && spaced rest
      | [] => true
      end
  | [] => true
  end.

(** Three attempts on one network, as three chunks start their first
    wallet: the first posts at once, the other two find the same
    [last_request_time], sleep until the same instant and post together. *)
Definition race_schedule : list event :=
  [Run 0; Run 1; Run 2; Tick 3; Run 1; Run 2].

End RateLimiter.

(** ** Concrete configurations and environments

    Small instances on which the statements below are exercised. *)

Module Scenario.

Definition too_many_requests : result Response :=
  Return {| status_code := 429; text := "Too Many Requests";
            json := Raise (TransportError "Expecting value");
            raise_for_status := Raise HTTPError |}.

Definition balance_reply (hex : string) : result Response :=
  Return {| status_code := 200; text := "{jsonrpc: 2.0, id: 1, result: " +:+ hex +:+ "}";
            json := Return (JsonResult hex);
            raise_for_status := Return tt |}.

Definition one_ether_hex : string := "0xDE0B6B3A7640000".

Definition two_networks : list (string * list string) :=
  [("A", ["a0"; "a1"]); ("B", ["b0"; "b1"])].

Definition first_limited : FetchEnv :=
  {| others := fun _ => [];
     respond := fun _ url => if decide (url = "a0") then too_many_requests
                             else balance_reply one_ether_hex |}.

Definition all_limited : FetchEnv :=
  {| others := fun _ => ["A"; "B"]; respond := fun _ _ => too_many_requests |}.

Definition in_turn (F : FetchEnv) : Env :=
  {| fetch_env := fun _ _ => F; fetch_order := fun _ => []; chunk_order := [] |}.

Definition last_first (F : FetchEnv) : Env :=
  {| fetch_env := fun _ _ => F; fetch_order := fun _ => [1]; chunk_order := [3; 0; 1] |}.

Definition seven : list string := ["w1"; " w2"; "w3 "; "w4"; "w5"; "w6"; "w7"].
Definition six : list string := ["w1"; "w2"; "w3"; "w4"; "w5"; "w6"].

Definition one_empty : list (string * list string) :=
  [("A", ["a0"]); ("B", [])].

End Scenario.

(** * The rest of [main.py]

    What the statements above leave out: the bound on the requests of a
    run, the semaphore and the limiter under exclusive use, the wallet
    file read by [main], the columns computed by [write_results] and
    the configuration loader. *)

(** ** Request budget *)

(** The endpoints of all networks together: what one wallet can cost. *)
Definition retry_budget (networks : list (string * list string)) : nat :=
  sum_list_with (fun n => length n.2) networks.

(** ** The semaphore and exclusive use of the limiter *)

Module Governor.
Import RateLimiter.

(** Whether an attempt at this point holds a permit of the semaphore. *)
Definition holds (p : pc) : nat :=
  match p with
  | Sleeping _ | Posting => 1
  | AtSemaphore | Finished => 0
  end.

Definition holders (ts : list task) : nat := sum_list_with (fun t => holds (t_pc t)) ts.

Definition sleeping_on (network : string) (t : task) : bool :=
  bool_decide (t_network t = network)
  && match t_pc t with Sleeping _ => true | _ => false end.

(** An attempt may enter the limiter only while no other attempt on its
    network is asleep in it. *)
Definition admissible (w : world) (ev : event) : bool :=
  match ev with
  | Tick _ => true
  | Run i =>
      match tasks w !! i with
      | Some t =>
          match t_pc t with
          | AtSemaphore => negb (existsb (sleeping_on (t_network t)) (tasks w))
          | _ => true
          end
      | None => true
      end
  end.

(** [run], restricted to the schedules in which attempts on one network
    do not overlap inside [wait_for_rate_limit]. *)
Fixpoint run_exclusive (schedule : list event) (w : world) : option world :=
  match schedule with
  | [] => Some w
  | ev :: rest =>
      if admissible w ev then
        match step ev w with
        | Some w' => run_exclusive rest w'
        | None => None
        end
      else None
  end.

(** What an exclusive run keeps true of the network [n]. *)
Definition limiter_inv (n : string) (w : world) : Prop :=
  spaced (dispatch_times n w) = true /\
  last_request_time w !! n = last (dispatch_times n w) /\
  (forall i j ti tj, tasks w !! i = Some ti -> tasks w !! j = Some tj ->
     sleeping_on n ti = true -> sleeping_on n tj = true -> i = j) /\
  (forall i t wake stamp, tasks w !! i = Some t -> t_network t = n ->
     t_pc t = Sleeping wake -> last_request_time w !! n = Some stamp ->
     (stamp + MIN_REQUEST_INTERVAL <= wake)%Q).

End Governor.

(** ** The wallet file (lines 335-340)

    [text] is the content of [wallets.txt] as the text layer hands it
    over: decoded, with every line ending already translated to a line
    feed.  The file is taken to exist. *)

Definition line_feed : ascii := "010"%char.

(** [f.readlines()]: the lines in order, each with its line feed; a last
    line without one is kept as it is. *)
Fixpoint readlines (text : string) : list string :=
  match text with
  | EmptyString => []
  | String c rest =>
      if Ascii.eqb c line_feed then String c EmptyString :: readlines rest
      else match readlines rest with
           | [] => [String c EmptyString]
           | line :: lines => String c line :: lines
           end
  end.

(** [c in chars] *)
Definition in_chars (chars : string) (c : ascii) : bool :=
  existsb (Ascii.eqb c) (list_ascii_of_string chars).

Fixpoint lstrip_chars (chars s : string) : string :=
  match s with
  | EmptyString => EmptyString
  | String c s' => if in_chars chars c then lstrip_chars chars s' else s
  end.

Fixpoint rstrip_chars (chars s : string) : string :=
  match s with
  | EmptyString => EmptyString
  | String c s' =>
      match rstrip_chars chars s' with
      | EmptyString => if in_chars chars c then EmptyString else String c EmptyString
      | r => String c r
      end
  end.

(** [s.strip(chars)] *)
Definition strip_chars (chars s : string) : string :=
  rstrip_chars chars (lstrip_chars chars s).

(** Lines 337-338. *)
Definition read_wallets (text : string) : list string :=
  let wallets := readlines text in
  map (strip_chars (String line_feed EmptyString)) wallets.

(** [main] up to line 340: the value is the report handed to
    [write_results]. *)
Definition main (networks : list (string * list string)) (E : Env)
    (text : string) : M BalanceReport :=
  let wallets := read_wallets text in
  evm_checker networks E wallets.

(** ** The columns of the sheet (lines 257-258, 268-292 and 318-324)

    What [write_results] computes before it formats: for each wallet
    the ten balance values, each paired with the key under which the
    threshold is looked up.  The workbook itself (cells, styles, the
    conversion to [float], the file) is not modelled. *)

Inductive cell_value : Type :=
| NoneText                (* the string 'None' *)
| Amount (d : Decimal).   (* balance.balance *)

Definition headers_xlsx : list string :=
  ["Address"; "Ethereum"; "Sepolia"; "Linea"; "Polygon";
   "Base"; "Blast"; "Optimism"; "Arbitrum"; "Zksync"; "BSC"].

(** The ten variables of lines 269-270, in the order in which line 319
    lists them; one pass of the loop body, lines 273-292. *)
Definition assign (vars : list cell_value) (b : NetworkBalance) : list cell_value :=
  if decide (network b = "Ethereum") then <[0 := Amount (balance b)]> vars
  else if decide (network b = "Sepolia") then <[1 := Amount (balance b)]> vars
  else if decide (network b = "Linea") then <[2 := Amount (balance b)]> vars
  else if decide (network b = "Polygon") then <[3 := Amount (balance b)]> vars
  else if decide (network b = "Base") then <[4 := Amount (balance b)]> vars
  else if decide (network b = "Blast") then <[5 := Amount (balance b)]> vars
  else if decide (network b = "Optimism") then <[6 := Amount (balance b)]> vars
  else if decide (network b = "Arbitrum") then <[7 := Amount (balance b)]> vars
  else if decide (network b = "Zksync") then <[8 := Amount (balance b)]> vars
  else if decide (network b = "BSC") then <[9 := Amount (balance b)]> vars
  else vars.

(** Lines 269-324 for one wallet. *)
Definition balances_with_networks (wallet : WalletBalances)
  : list (cell_value * string) :=
  zip (foldl assign (replicate 10 NoneText) (balances wallet))
      ["ethereum"; "sepolia"; "linea"; "polygon"; "base"; "blast";
       "optimism"; "arbitrum"; "zksync"; "bsc"].

(** ** Configuration loader (lines 54-70)

    [tomli.load] returns the document as nested dictionaries; a table
    keeps the order of its keys, each of which occurs once.  Numbers
    other than integers and dates are kept as written: the loader does
    not look at them.  Opening and parsing the file are taken to
    succeed (their exceptions pass through the handler, which logs and
    re-raises). *)

#[local] Unset Elimination Schemes.
Inductive toml : Type :=
| TTable (entries : list (string * toml))
| TArray (items : list toml)
| TString (s : string)
| TInteger (z : Z)
| TFloat (literal : string)
| TBoolean (b : bool)
| TDateTime (literal : string).
#[local] Set Elimination Schemes.

Inductive load_exn : Type :=
| LoadKeyError (key : string)   (* the table has no such key *)
| LoadAttributeError            (* .items() of a value that is no table *)
| LoadTypeError.                (* value["rpcs"] of a value that is no table *)

Inductive loaded (A : Type) : Type :=
| Loaded (a : A)
| LoadRaise (e : load_exn).
Arguments Loaded {A} a.
Arguments LoadRaise {A} e.

Fixpoint table_get (entries : list (string * toml)) (key : string) : option toml :=
  match entries with
  | [] => None
  | (k, v) :: rest => if decide (k = key) then Some v else table_get rest key
  end.

(** [value[key]] for a string [key] *)
Definition subscript (value : toml) (key : string) : loaded toml :=
  match value with
  | TTable entries =>
      match table_get entries key with
      | Some v => Loaded v
      | None => LoadRaise (LoadKeyError key)
      end
  | _ => LoadRaise LoadTypeError
  end.

(** [value.items()] *)
Definition items (value : toml) : loaded (list (string * toml)) :=
  match value with
  | TTable entries => Loaded entries
  | _ => LoadRaise LoadAttributeError
  end.

(** The dictionary comprehension of line 60. *)
Fixpoint rpcs_of (entries : list (string * toml)) : loaded (list (string * toml)) :=
  match entries with
  | [] => Loaded []
  | (network, rpcs) :: rest =>
      match subscript rpcs "rpcs" with
      | Loaded v =>
          match rpcs_of rest with
          | Loaded l => Loaded ((network, v) :: l)
          | LoadRaise e => LoadRaise e
          end
      | LoadRaise e => LoadRaise e
      end
  end.

Record Config : Type := mkConfig {
  config_networks : list (string * toml);
  config_thresholds : toml
}.

(** [load_networks_config], lines 54-65; [config] is the parsed file. *)
Definition load_networks_config (config : list (string * toml)) : loaded Config :=
  match subscript (TTable config) "networks" with
  | Loaded table =>
      match items table with
      | Loaded entries =>
          match rpcs_of entries with
          | Loaded networks =>
              match subscript (TTable config) "thresholds" with
              | Loaded thresholds =>
                  Loaded {| config_networks := networks;
                            config_thresholds := thresholds |}
              | LoadRaise e => LoadRaise e
              end
          | LoadRaise e => LoadRaise e
          end
      | LoadRaise e => LoadRaise e
      end
  | LoadRaise e => LoadRaise e
  end.

(** The configurations on which the engine above is modelled: every
    [rpcs] value is an array of strings. *)
Definition as_string (v : toml) : option string :=
  match v with TString s => Some s | _ => None end.

Definition as_endpoints (v : toml) : option (list string) :=
  match v with
  | TArray items => mapM as_string items
  | _ => None
  end.

Definition engine_networks (c : Config) : option (list (string * list string)) :=
  mapM (fun n => rpc_list ← as_endpoints n.2; Some (n.1, rpc_list)) (config_networks c).

(** ** Further configurations and inputs *)

Module Sample.

Definition three_endpoints : list (string * list string) :=
  [("A", ["a0"; "a1"; "a2"]); ("B", ["b0"])].

(** Every endpoint answers with one ether; the other tasks rotate both
    cursors before every request. *)
Definition healthy : FetchEnv :=
  {| others := fun _ => ["A"; "B"];
     respond := fun _ _ => Scenario.balance_reply Scenario.one_ether_hex |}.

(** Every endpoint is rate-limited and nobody else rotates. *)
Definition limited_alone : FetchEnv :=
  {| others := fun _ => []; respond := fun _ _ => Scenario.too_many_requests |}.

(** The names of the configuration differ from the headers of the sheet
    in one network. *)
Definition mainnets : list (string * list string) :=
  [("Ethereum", ["e0"]); ("bsc", ["x0"])].

(** w1, an empty line, w3 between spaces, and a last line without line
    feed. *)
Definition wallets_txt : string :=
  "w1" +:+ String line_feed (String line_feed (" w3 " +:+ String line_feed "w4")).

Definition mixed_wallet : WalletBalances :=
  {| address := "w1";
     balances := [ {| network := "Polygon"; balance := Decimal_of_int 1; token := "POL" |};
                   {| network := "Ethereum"; balance := Decimal_of_int 2; token := "ETH" |};
                   {| network := "Polygon"; balance := Decimal_of_int 3; token := "POL" |};
                   {| network := "polygon"; balance := Decimal_of_int 4; token := "ETH" |} ] |}.

Definition config_toml : list (string * toml) :=
  [("networks", TTable [("A", TTable [("rpcs", TArray [TString "a0"])]);
                        ("B", TTable [("rpcs", TArray []); ("chain_id", TInteger 56)])]);
   ("thresholds", TTable [("a", TFloat "0.5")])].

(** Two attempts on one network, the second entering after the first
    has posted. *)
Definition one_after_the_other : list RateLimiter.event :=
  [RateLimiter.Run 0; RateLimiter.Run 0; RateLimiter.Run 1;
   RateLimiter.Tick 3; RateLimiter.Run 1].

End Sample.

(** * Properties *)

(** ** Base-unit conversion *)

Section DecimalFacts.

Local Open Scope Z_scope.

Lemma ndigits_fuel_bounds (fuel : nat) :
  forall n, 0 < n -> n < 2 ^ Z.of_nat fuel ->
    1 <= ndigits_fuel fuel n /\
    10 ^ (ndigits_fuel fuel n - 1) <= n < 10 ^ ndigits_fuel fuel n.
Proof.
  induction fuel as [|fuel IH]; intros n Hpos Hlt.
  - simpl in Hlt. lia.
  - cbn [ndigits_fuel]. destruct (Z.ltb_spec n 10) as [Hs|Hb].
    + simpl. lia.
    + assert (Hq : 0 < n / 10) by (apply Z.div_str_pos; lia).
      assert (Hq2 : n / 10 < 2 ^ Z.of_nat fuel).
      { rewrite Nat2Z.inj_succ, Z.pow_succ_r in Hlt by lia.
        apply Z.div_lt_upper_bound; lia. }
      destruct (IH _ Hq Hq2) as (H1 & Hlo & Hhi).
      set (d := ndigits_fuel fuel (n / 10)) in *.
      replace (1 + d - 1) with (Z.succ (d - 1)) by lia.
      replace (1 + d) with (Z.succ d) by lia.
      rewrite !Z.pow_succ_r by lia.
      pose proof (Z.div_mod n 10 ltac:(lia)) as Hdm.
      pose proof (Z.mod_pos_bound n 10 ltac:(lia)) as Hm.
      lia.
Qed.

Lemma ndigits_bounds (n : Z) :
  0 < n -> 1 <= ndigits n /\ 10 ^ (ndigits n - 1) <= n < 10 ^ ndigits n.
Proof.
  intros Hpos. unfold ndigits. apply ndigits_fuel_bounds; [done|].
  pose proof (Z.log2_nonneg n) as Hl.
  rewrite Z2Nat.id by lia.
  destruct (Z.log2_spec n Hpos) as [_ Hlt].
  by replace (Z.log2 n + 1) with (Z.succ (Z.log2 n)) by lia.
Qed.

Lemma ndigits_le (n k : Z) : 0 < n -> n < 10 ^ k -> ndigits n <= k.
Proof.
  intros Hpos Hlt.
  destruct (ndigits_bounds n Hpos) as (H1 & Hlo & _).
  destruct (Z_le_gt_dec (ndigits n) k) as [|Hgt]; [done|].
  assert (10 ^ k <= 10 ^ (ndigits n - 1)); [|lia].
  destruct (Z_lt_le_dec k 0) as [Hneg|Hk].
  - rewrite Z.pow_neg_r in Hlt by done. lia.
  - apply Z.pow_le_mono_r; lia.
Qed.

Lemma strip_zeros_spec (fuel : nat) :
  forall coeff exp ideal,
    0 < coeff -> exp <= ideal -> ideal - exp <= Z.of_nat fuel ->
    exists c e, strip_zeros fuel coeff exp ideal = (c, e) /\
      exp <= e <= ideal /\ 0 < c /\ coeff = c * 10 ^ (e - exp) /\
      (e = ideal \/ c mod 10 <> 0).
Proof.
  induction fuel as [|fuel IH]; intros coeff exp ideal Hpos Hle Hfuel.
  - exists coeff, exp. cbn. replace (exp - exp) with 0 by lia.
    rewrite Z.pow_0_r. repeat split; lia.
  - cbn [strip_zeros].
    destruct (Z.ltb_spec exp ideal) as [Hlt|Hge]; cbn [andb].
    + destruct (Z.eqb_spec (coeff mod 10) 0) as [Hz|Hnz].
      * pose proof (Z.div_mod coeff 10 ltac:(lia)) as Hdm.
        destruct (IH (coeff / 10) (exp + 1) ideal) as (c & e & Heq & He & Hc & Hval & Hstop);
          [lia | lia | lia |].
        exists c, e. rewrite Heq. split; [done|].
        split; [lia|]. split; [done|]. split; [|done].
        replace (e - exp) with (Z.succ (e - (exp + 1))) by lia.
        rewrite Z.pow_succ_r by lia. lia.
      * exists coeff, exp. replace (exp - exp) with 0 by lia.
        rewrite Z.pow_0_r. repeat split; lia.
    + exists coeff, exp. replace (exp - exp) with 0 by lia.
      rewrite Z.pow_0_r. repeat split; lia.
Qed.

Lemma fix_small (s : bool) (c e : Z) :
  0 < c < 10 ^ 28 -> -100 <= e <= 0 ->
  fix_ (mkDecimal s c e) = Return (mkDecimal s c e).
Proof.
  intros [Hpos Hlt] He. unfold fix_. cbn [d_int d_exp d_sign].
  destruct (Z.eqb_spec c 0); [lia|].
  pose proof (ndigits_le c 28 Hpos Hlt) as Hn.
  destruct (ndigits_bounds c Hpos) as (H1 & _).
  unfold Etop, Etiny, Emax, Emin, prec.
  destruct (Z.ltb_spec (999999 - 28 + 1) (ndigits c + e - 28)); [lia|].
  destruct (Z.ltb_spec (ndigits c + e - 28) (-999999 - 28 + 1)); [lia|].
  destruct (Z.ltb_spec e (ndigits c + e - 28)); [lia|done].
Qed.

Lemma to_ether_pos (a : Z) (neg : bool) :
  0 < a < 10 ^ 28 ->
  exists c e,
    truediv (mkDecimal neg a 0) (Decimal_of_int (10 ^ 18)) = Return (mkDecimal neg c e) /\
    -47 <= e <= 0 /\ 0 < c /\ c * 10 ^ 18 = a * 10 ^ (- e).
Proof.
  intros [Hpos Hlt].
  pose proof (ndigits_le a 28 Hpos Hlt) as HL.
  destruct (ndigits_bounds a Hpos) as (HL1 & _).
  unfold truediv. cbn [d_int d_exp d_sign Decimal_of_int].
  change (Z.abs (10 ^ 18)) with (10 ^ 18).
  change (10 ^ 18 =? 0) with false. cbv iota.
  destruct (Z.eqb_spec a 0) as [->|_]; [lia|].
  change (ndigits (10 ^ 18)) with 19. unfold prec.
  set (shift := 19 - ndigits a + 28 + 1).
  assert (Hshift : 20 <= shift <= 47) by (unfold shift; lia).
  destruct (Z.leb_spec 0 shift) as [_|]; [|lia].
  assert (Hsplit : 10 ^ shift = 10 ^ (shift - 18) * 10 ^ 18).
  { rewrite <- Z.pow_add_r by lia. f_equal. lia. }
  assert (Hmod : (a * 10 ^ shift) mod 10 ^ 18 = 0).
  { rewrite Hsplit, Z.mul_assoc. apply Z.mod_mul. lia. }
  assert (Hdiv : (a * 10 ^ shift) / 10 ^ 18 = a * 10 ^ (shift - 18)).
  { rewrite Hsplit, Z.mul_assoc. apply Z.div_mul. lia. }
  rewrite Hmod, Hdiv. change (0 =? 0) with true. cbv iota.
  replace (0 - 0 - shift) with (- shift) by lia.
  replace (0 - 0) with 0 by lia.
  assert (Hcoeff : 0 < a * 10 ^ (shift - 18)).
  { apply Z.mul_pos_pos; [done|]. apply Z.pow_pos_nonneg; lia. }
  destruct (strip_zeros_spec (Z.to_nat (0 - - shift)) (a * 10 ^ (shift - 18)) (- shift) 0)
    as (c & e & Heq & He & Hc & Hval & Hstop); [done | lia | lia |].
  rewrite Heq.
  assert (Hexact : c * 10 ^ 18 = a * 10 ^ (- e)).
  { apply (Z.mul_reg_r _ _ (10 ^ (e - - shift))).
    - apply Z.pow_nonzero; lia.
    - rewrite <- Z.mul_assoc, (Z.mul_comm (10 ^ 18)), Z.mul_assoc, <- Hval.
      rewrite <- !Z.mul_assoc, <- !Z.pow_add_r by lia. do 2 f_equal. lia. }
  assert (Hsmall : c < 10 ^ 28).
  { destruct (Z_le_gt_dec (- e) 18) as [Hle|Hgt].
    - assert (c * 10 ^ (18 + e) = a).
      { apply (Z.mul_reg_r _ _ (10 ^ (- e))).
        - apply Z.pow_nonzero; lia.
        - rewrite <- Z.mul_assoc, <- Z.pow_add_r by lia.
          replace (18 + e + - e) with 18 by lia. done. }
      assert (0 < 10 ^ (18 + e)) by (apply Z.pow_pos_nonneg; lia). nia.
    - exfalso. destruct Hstop as [->|Hnz]; [lia|]. apply Hnz.
      assert (Hc10 : c = a * 10 ^ (- e - 18 - 1) * 10).
      { apply (Z.mul_reg_r _ _ (10 ^ 18)).
        - apply Z.pow_nonzero; lia.
        - rewrite Hexact. rewrite <- !Z.mul_assoc. f_equal.
          change 10 with (10 ^ 1) at 3. rewrite <- !Z.pow_add_r by lia. f_equal. lia. }
      rewrite Hc10. apply Z.mod_mul. lia. }
  exists c, e. split; [|split; [lia|done]].
  rewrite Bool.xorb_false_r. apply fix_small; lia.
Qed.

Lemma to_ether_exact_gen (balance : Z) :
  Z.abs balance < 10 ^ 28 ->
  exists amount, to_ether balance = Return amount /\ denotes amount balance (10 ^ 18).
Proof.
  intros Hb. unfold to_ether.
  destruct (Z.eq_dec balance 0) as [->|Hnz].
  { eexists. split; [reflexivity|]. reflexivity. }
  destruct (to_ether_pos (Z.abs balance) (balance <? 0)) as (c & e & Heq & He & Hc & Hval); [lia|].
  change (Decimal_of_int balance) with (mkDecimal (balance <? 0) (Z.abs balance) 0).
  rewrite Heq. eexists. split; [reflexivity|].
  unfold denotes. cbn [d_sign d_int d_exp].
  destruct (Z.leb_spec 0 e) as [He0|Hneg].
  - assert (e = 0) as -> by lia. rewrite Z.pow_0_r in *.
    destruct (Z.ltb_spec balance 0); lia.
  - destruct (Z.ltb_spec balance 0); [|lia].
    rewrite Z.mul_opp_l, Hval. rewrite <- Z.mul_opp_l. f_equal. lia.
Qed.

End DecimalFacts.

(** ** Batch scheduler: chunks *)

Lemma range_from_spec (fuel : nat) :
  forall i n cs, 0 < cs -> n <= i + fuel ->
    exists m, range_from fuel i n cs = map (fun k => i + k * cs) (seq 0 m) /\
      (n <= i -> m = 0) /\
      (i < n -> 0 < m /\ (m - 1) * cs < n - i <= m * cs).
Proof.
  induction fuel as [|fuel IH]; intros i n cs Hcs Hfuel.
  - exists 0. cbn. split; [done|]. split; [done|lia].
  - cbn [range_from]. destruct (Nat.ltb_spec i n) as [Hlt|Hge].
    + destruct (IH (i + cs) n cs Hcs ltac:(lia)) as (m & Heq & Hz & Hnz).
      exists (S m). split.
      * rewrite Heq. cbn [seq map]. f_equal; [lia|].
        rewrite <- fmap_S_seq, <- list_fmap_compose.
        apply list_fmap_ext. intros _ k _. cbn. lia.
      * split; [lia|]. intros _. split; [lia|].
        destruct (Nat.le_gt_cases n (i + cs)) as [Hlast|Hmore].
        -- rewrite (Hz Hlast). cbn. lia.
        -- destruct (Hnz Hmore) as [Hm Hb]. nia.
    + exists 0. cbn. split; [done|]. split; [done|lia].
Qed.

Lemma concat_range_from {A} (l : list A) (cs fuel : nat) :
  forall i, 0 < cs -> length l <= i + fuel ->
    concat (map (fun j => slice l j (j + cs)) (range_from fuel i (length l) cs))
    = drop i l.
Proof.
  induction fuel as [|fuel IH]; intros i Hcs Hfuel.
  - cbn. by rewrite drop_ge by lia.
  - cbn [range_from]. destruct (Nat.ltb_spec i (length l)) as [Hlt|Hge].
    + cbn [map concat]. rewrite IH by lia. unfold slice.
      replace (i + cs - i) with cs by lia.
      rewrite <- drop_drop. apply take_drop.
    + cbn. by rewrite drop_ge by lia.
Qed.

Lemma wallet_chunks_spec {A} (l : list A) :
  l <> [] ->
  exists m, wallet_chunks l
            = Return (map (fun k => (k * ((length l + 4) / 5),
                                slice l (k * ((length l + 4) / 5))
                                        (k * ((length l + 4) / 5) + (length l + 4) / 5)))
                          (seq 0 m)) /\
    0 < m /\ (m - 1) * ((length l + 4) / 5) < length l <= m * ((length l + 4) / 5).
Proof.
  intros Hne. unfold wallet_chunks, range0.
  assert (Hlen : 0 < length l) by (destruct l; [done | cbn; lia]).
  set (cs := (length l + 4) / 5).
  assert (Hcs : 0 < cs) by (apply Nat.div_str_pos; lia).
  destruct (decide (cs = 0)) as [|_]; [lia|].
  destruct (range_from_spec (length l) 0 (length l) cs Hcs ltac:(lia))
    as (m & Heq & _ & Hm).
  destruct (Hm Hlen) as [Hpos Hb].
  exists m. rewrite Heq, <- list_fmap_compose. split; [|split; [done|lia]].
  f_equal.
Qed.

Lemma wallet_chunks_concat {A} (l : list A) chunks :
  wallet_chunks l = Return chunks -> concat (map snd chunks) = l.
Proof.
  unfold wallet_chunks, range0.
  destruct (decide ((length l + 4) / 5 = 0)) as [|Hcs]; [done|].
  intros [= <-]. rewrite <- list_fmap_compose.
  etrans; [|apply (concat_range_from l ((length l + 4) / 5) (length l) 0); lia].
  done.
Qed.

(** ** Endpoint rotator *)

Section RotatorFacts.

Variable networks : list (string * list string).
Variable network : string.
Variable rpcs : list string.
Hypothesis Hconf : assoc networks network = Some rpcs.

Lemma get_next_rpc_at st i url :
  current_rpc_index st !! network = Some i ->
  rpcs !! i = Some url ->
  get_next_rpc networks network st
  = (Return url, with_index st network ((i + 1) mod length rpcs)).
Proof.
  intros Hi Hurl.
  assert (Hlen : i < length rpcs) by (by apply lookup_lt_Some in Hurl).
  unfold get_next_rpc, bind, index_known, networks_get, get_index, set_index, ret.
  rewrite Hi. rewrite bool_decide_eq_true_2 by eauto.
  rewrite Hconf. cbn. rewrite Hi.
  destruct (decide (length rpcs = 0)); [lia|]. cbn.
  by rewrite Hurl.
Qed.

Lemma get_next_rpc_fresh st :
  current_rpc_index st !! network = None ->
  get_next_rpc networks network st
  = get_next_rpc networks network (with_index st network 0).
Proof.
  intros Hi.
  unfold get_next_rpc, bind, index_known, networks_get, get_index, set_index, ret, with_index.
  cbn. rewrite Hi, lookup_insert_eq.
  rewrite bool_decide_eq_false_2 by (intros [? [=]]).
  rewrite bool_decide_eq_true_2 by eauto. cbn.
  rewrite Hconf. cbn. rewrite lookup_insert_eq. done.
Qed.

Lemma advance_n_from (k : nat) :
  forall st i, current_rpc_index st !! network = Some i ->
    i < length rpcs -> i + k <= length rpcs ->
    exists st', advance_n networks network k st = (Return (take k (drop i rpcs)), st') /\
      current_rpc_index st' !! network = Some ((i + k) mod length rpcs).
Proof.
  induction k as [|k IH]; intros st i Hi Hlt Hk.
  - exists st. cbn. rewrite take_0, Nat.add_0_r, Nat.mod_small by done. done.
  - destruct (lookup_lt_is_Some_2 rpcs i Hlt) as [url Hurl].
    cbn [advance_n]. unfold bind at 1. rewrite (get_next_rpc_at st i url Hi Hurl).
    destruct (decide (S i = length rpcs)) as [Hlast|Hmore].
    + assert (k = 0) as -> by lia. cbn.
      exists (with_index st network ((i + 1) mod length rpcs)). split.
      * rewrite (drop_S _ _ _ Hurl). cbn. by rewrite take_0.
      * cbn. rewrite lookup_insert_eq. done.
    + assert (Hmod : (i + 1) mod length rpcs = S i) by (rewrite Nat.mod_small; lia).
      destruct (IH (with_index st network ((i + 1) mod length rpcs)) (S i))
        as (st' & Heq & Hcur); [cbn; by rewrite lookup_insert_eq, Hmod | lia | lia |].
      exists st'. unfold bind. rewrite Heq. cbn. split.
      * by rewrite (drop_S _ _ _ Hurl).
      * rewrite Hcur. f_equal. f_equal. lia.
Qed.

Lemma advance_n_add (a b : nat) st :
  advance_n networks network (a + b) st
  = match advance_n networks network a st with
    | (Return l1, st1) =>
        match advance_n networks network b st1 with
        | (Return l2, st2) => (Return (l1 ++ l2), st2)
        | (Raise e, st2) => (Raise e, st2)
        end
    | (Raise e, st1) => (Raise e, st1)
    end.
Proof.
  revert st. induction a as [|a IH]; intros st.
  - cbn. by destruct (advance_n networks network b st) as [[?|?] ?].
  - cbn [Nat.add advance_n]. unfold bind at 1 3.
    destruct (get_next_rpc networks network st) as [[url|e] st1]; [|done].
    unfold bind. rewrite IH.
    destruct (advance_n networks network a st1) as [[l1|e] st2]; [|done].
    cbn. by destruct (advance_n networks network b st2) as [[l2|e] st3].
Qed.

Lemma advance_cycle st :
  rpcs <> [] ->
  current_rpc_index st !! network = None \/ current_rpc_index st !! network = Some 0 ->
  exists st', advance_n networks network (length rpcs) st = (Return rpcs, st') /\
    current_rpc_index st' !! network = Some 0.
Proof.
  intros Hne Hcur.
  assert (Hlen : 0 < length rpcs) by (destruct rpcs; [done | cbn; lia]).
  assert (Hfrom : forall st0, current_rpc_index st0 !! network = Some 0 ->
            exists st', advance_n networks network (length rpcs) st0 = (Return rpcs, st') /\
              current_rpc_index st' !! network = Some 0).
  { intros st0 H0.
    destruct (advance_n_from (length rpcs) st0 0 H0 Hlen ltac:(lia)) as (st' & Heq & Hc).
    exists st'. rewrite Heq, drop_0, firstn_all. split; [done|].
    rewrite Hc. cbn. by rewrite Nat.Div0.mod_same. }
  destruct Hcur as [Hnone|Hzero]; [|by apply Hfrom].
  destruct (length rpcs) as [|k] eqn:Hk; [lia|].
  cbn [advance_n] in *. unfold bind at 1. rewrite (get_next_rpc_fresh st Hnone).
  apply (Hfrom (with_index st network 0)). cbn. by rewrite lookup_insert_eq.
Qed.

Lemma advance_rounds (m : nat) :
  forall st, rpcs <> [] ->
    current_rpc_index st !! network = None \/ current_rpc_index st !! network = Some 0 ->
    exists st', advance_n networks network (m * length rpcs) st
                = (Return (concat (replicate m rpcs)), st').
Proof.
  induction m as [|m IH]; intros st Hne Hcur.
  - exists st. done.
  - cbn [Nat.mul replicate concat]. rewrite advance_n_add.
    destruct (advance_cycle st Hne Hcur) as (st1 & -> & H1).
    destruct (IH st1 Hne (or_intror H1)) as (st2 & ->). by exists st2.
Qed.

End RotatorFacts.

(** ** Balance fetcher *)

Section CursorFacts.

Variable networks : list (string * list string).

(** [get_next_rpc n] touches the cursor of [n] only, and posts nothing. *)
Lemma get_next_rpc_frame n st r st' :
  get_next_rpc networks n st = (r, st') ->
  (forall k, k <> n -> current_rpc_index st' !! k = current_rpc_index st !! k) /\
  posted st' = posted st.
Proof.
  unfold get_next_rpc, bind, index_known, networks_get, get_index, set_index, ret, raise.
  repeat case_match; simplify_eq/=; intros; simplify_eq/=;
    (split; [|done]); intros k Hk;
    rewrite ?lookup_insert_ne by done; done.
Qed.

Variable network : string.
Variable rpcs : list string.
Hypothesis Hconf : assoc networks network = Some rpcs.
Hypothesis Hne : rpcs <> [].

Lemma rpcs_length : 0 < length rpcs.
Proof.
  destruct (decide (length rpcs = 0)) as [Hz|]; [|lia].
  by apply nil_length_inv in Hz.
Qed.

(** Whoever calls it and for whichever network, [get_next_rpc] keeps the
    cursor of [network] in range. *)
Lemma get_next_rpc_keeps n st r st' :
  cursor_in_range rpcs network st -> get_next_rpc networks n st = (r, st') ->
  cursor_in_range rpcs network st'.
Proof.
  pose proof rpcs_length as Hlen.
  intros Hinv. destruct (decide (n = network)) as [->|Hother].
  - unfold get_next_rpc, bind, index_known, networks_get, get_index, set_index, ret, raise.
    rewrite Hconf.
    destruct (current_rpc_index st !! network) as [i|] eqn:Hi.
    + rewrite bool_decide_eq_true_2 by eauto. cbn. rewrite Hi.
      destruct (decide (length rpcs = 0)); [lia|]. cbn.
      destruct (rpcs !! i); intros [= <- <-];
        intros j; cbn; rewrite lookup_insert_eq; intros [= <-];
        by apply Nat.mod_upper_bound.
    + rewrite bool_decide_eq_false_2 by (intros [? [=]]). cbn.
      rewrite lookup_insert_eq.
      destruct (decide (length rpcs = 0)); [lia|]. cbn.
      destruct (rpcs !! 0); intros [= <- <-];
        intros j; cbn; rewrite lookup_insert_eq; intros [= <-];
        by apply Nat.mod_upper_bound.
  - intros Heq. destruct (get_next_rpc_frame n st r st' Heq) as [Hframe _].
    intros j. rewrite Hframe by done. apply Hinv.
Qed.

(** For [network] itself it also returns. *)
Lemma get_next_rpc_returns st :
  cursor_in_range rpcs network st ->
  exists url st', get_next_rpc networks network st = (Return url, st').
Proof.
  pose proof rpcs_length as Hlen.
  intros Hinv.
  unfold get_next_rpc, bind, index_known, networks_get, get_index, set_index, ret, raise.
  rewrite Hconf.
  destruct (current_rpc_index st !! network) as [i|] eqn:Hi.
  - rewrite bool_decide_eq_true_2 by eauto. cbn. rewrite Hi.
    destruct (decide (length rpcs = 0)); [lia|]. cbn.
    destruct (lookup_lt_is_Some_2 rpcs i (Hinv i Hi)) as [url ->]. eauto.
  - rewrite bool_decide_eq_false_2 by (intros [? [=]]). cbn.
    rewrite lookup_insert_eq.
    destruct (decide (length rpcs = 0)); [lia|]. cbn.
    destruct (lookup_lt_is_Some_2 rpcs 0 Hlen) as [url ->]. eauto.
Qed.

End CursorFacts.

(** The fetcher under an invariant [I] of the shared state that every
    call of [get_next_rpc] preserves, that does not look at the request
    trace, and that keeps the cursor of the fetched network in range. *)
Section FetchFacts.

Variable networks : list (string * list string).
Variable I : State -> Prop.
Hypothesis I_next : forall n st r st',
  I st -> get_next_rpc networks n st = (r, st') -> I st'.
Hypothesis I_post : forall st requests,
  I st -> I {| current_rpc_index := current_rpc_index st; posted := requests |}.

Variable network : string.
Variable rpcs : list string.
Hypothesis Hconf : assoc networks network = Some rpcs.
Hypothesis Hne : rpcs <> [].
Hypothesis I_range : forall st, I st -> cursor_in_range rpcs network st.

Lemma next_rpc_spec st :
  I st ->
  exists url st', get_next_rpc networks network st = (Return url, st') /\
    I st' /\ posted st' = posted st.
Proof.
  intros Hinv.
  destruct (get_next_rpc_returns networks network rpcs Hconf Hne st (I_range st Hinv))
    as (url & st' & Hrun).
  exists url, st'. split; [done|]. split; [by eapply I_next|].
  by destruct (get_next_rpc_frame networks network st _ st' Hrun).
Qed.

Lemma interfere_keeps calls :
  forall st, I st ->
    exists st', interfere networks calls st = (Return tt, st') /\
      I st' /\ posted st' = posted st.
Proof.
  induction calls as [|n calls IH]; intros st Hinv.
  - by exists st.
  - cbn [interfere]. unfold bind at 1, try_except, bind, ret.
    destruct (get_next_rpc networks n st) as [r st1] eqn:Heq.
    pose proof (I_next _ _ _ _ Hinv Heq) as Hinv1.
    destruct (get_next_rpc_frame networks n st r st1 Heq) as [_ Hp1].
    destruct (IH st1 Hinv1) as (st' & Hrun & Hinv' & Hp').
    exists st'. destruct r; rewrite Hrun; (split; [done|]); (split; [done|congruence]).
Qed.

Variable F : FetchEnv.
Variable address : string.

(** One pass through the loop body, with its [except] clause: it never
    raises, posts exactly one request, and ends the loop only on a
    successful reply. *)
Lemma attempt_spec attempt rpc_url st :
  I st ->
  exists s st',
    try_except (attempt_body networks F address network attempt rpc_url)
               (attempt_handler networks network) st = (Return s, st') /\
    I st' /\ posted st' = posted st ++ [(network, address, rpc_url)] /\
    (is_success (respond F attempt rpc_url) = false -> exists url, s = Continue url).
Proof.
  intros Hinv.
  destruct (interfere_keeps (others F attempt) st Hinv) as (st1 & Hint & Hinv1 & Hp1).
  set (st2 := {| current_rpc_index := current_rpc_index st1;
                 posted := posted st1 ++ [(network, address, rpc_url)] |}).
  assert (Hinv2 : I st2) by (by apply I_post).
  assert (Hp2 : posted st2 = posted st ++ [(network, address, rpc_url)])
    by (cbn; by rewrite Hp1).
  destruct (next_rpc_spec st2 Hinv2) as (url & st3 & Hnext & Hinv3 & Hp3).
  rewrite Hp2 in Hp3.
  assert (Hrotate : forall P : Prop,
    exists s st', (Return (Continue url), st3) = (Return s, st') /\
      I st' /\ posted st' = posted st ++ [(network, address, rpc_url)] /\
      (P -> exists url', s = Continue url')).
  { intros P. exists (Continue url), st3. eauto. }
  assert (Hstay : forall P : Prop,
    exists s st', (Return (Continue rpc_url), st2) = (Return s, st') /\
      I st' /\ posted st' = posted st ++ [(network, address, rpc_url)] /\
      (P -> exists url', s = Continue url')).
  { intros P. exists (Continue rpc_url), st2. eauto. }
  unfold try_except, attempt_body, attempt_handler.
  unfold bind at 1. rewrite Hint. unfold bind at 1, post. fold st2.
  unfold is_success.
  destruct (respond F attempt rpc_url) as [response|e].
  2:{ unfold bind. rewrite Hnext. apply Hrotate. }
  destruct ((status_code response =? 429) || contains "rate limit" (lower (text response))).
  { unfold bind. rewrite Hnext. apply Hrotate. }
  destruct (status_code response =? 200).
  2:{ unfold bind, lift, ret. destruct (raise_for_status response) as [[]|e].
      - apply Hstay.
      - rewrite Hnext. apply Hrotate. }
  unfold bind at 1, lift at 1. cbn [negb andb].
  destruct (json response) as [[error_text|hex| |]|e];
    try (unfold raise, bind; rewrite Hnext; by apply Hrotate).
  - destruct (contains "rate" (lower error_text)).
    + unfold bind. rewrite Hnext. apply Hrotate.
    + unfold raise, bind. rewrite Hnext. apply Hrotate.
  - unfold bind, lift, ret.
    destruct (balance_of_hex hex) as [amount|e]; [|rewrite Hnext; by apply Hrotate].
    exists (Done amount), st2. repeat split; done.
Qed.

Lemma fetch_loop_spec (retries : nat) :
  forall attempt rpc_url st, I st ->
    exists amount st' reqs,
      fetch_loop networks F address network retries attempt rpc_url st = (Return amount, st') /\
      I st' /\ posted st' = posted st ++ reqs /\ length reqs <= retries /\
      ((forall k url, is_success (respond F k url) = false) ->
       amount = Decimal_zero /\ length reqs = retries).
Proof.
  induction retries as [|retries IH]; intros attempt rpc_url st Hinv.
  - exists Decimal_zero, st, []. cbn. rewrite app_nil_r. repeat split; done.
  - cbn [fetch_loop]. unfold bind.
    destruct (attempt_spec attempt rpc_url st Hinv) as (s & st1 & -> & Hinv1 & Hp1 & Hfail).
    destruct s as [amount|rpc_url'].
    + exists amount, st1, [(network, address, rpc_url)]. cbn.
      repeat split; [done | done | lia | |];
        destruct (Hfail (H _ _)) as [? [=]].
    + destruct (IH (S attempt) rpc_url' st1 Hinv1) as (amount & st' & reqs & -> & Hinv' & Hp' & Hlen & Hall).
      exists amount, st', ((network, address, rpc_url) :: reqs).
      repeat split; [done | | cbn; lia | |].
      * rewrite Hp', Hp1, <- app_assoc. done.
      * by apply Hall.
      * cbn. f_equal. by apply Hall.
Qed.

Lemma get_balance_for_network_spec st :
  I st ->
  exists amount st' reqs,
    get_balance_for_network networks F address network st = (Return amount, st') /\
    I st' /\ posted st' = posted st ++ reqs /\ length reqs <= length rpcs /\
    ((forall k url, is_success (respond F k url) = false) ->
     amount = Decimal_zero /\ length reqs = length rpcs).
Proof.
  intros Hinv. unfold get_balance_for_network, bind, networks_get. rewrite Hconf. cbn.
  destruct (lookup_lt_is_Some_2 rpcs 0 (rpcs_length rpcs Hne)) as [rpc_url ->].
  by apply fetch_loop_spec.
Qed.

End FetchFacts.

(** The invariant of one network. *)
Lemma get_balance_for_network_local networks F address network rpcs st :
  assoc networks network = Some rpcs -> rpcs <> [] ->
  cursor_in_range rpcs network st ->
  exists amount st' reqs,
    get_balance_for_network networks F address network st = (Return amount, st') /\
    cursor_in_range rpcs network st' /\
    posted st' = posted st ++ reqs /\ length reqs <= length rpcs /\
    ((forall k url, is_success (respond F k url) = false) ->
     amount = Decimal_zero /\ length reqs = length rpcs).
Proof.
  intros Hconf Hne Hinv.
  apply (get_balance_for_network_spec networks (cursor_in_range rpcs network));
    try done.
  intros n st0 r st1. by apply get_next_rpc_keeps.
Qed.

(** The invariant of all networks, when none is without endpoints. *)
Section AllCursors.

Variable networks : list (string * list string).
Hypothesis Hnets : endpoints_nonempty networks.

Lemma assoc_elem n rpcs : assoc networks n = Some rpcs -> (n, rpcs) ∈ networks.
Proof.
  clear Hnets. induction networks as [|[k v] l IH]; cbn; [done|].
  destruct (decide (k = n)) as [->|]; [intros [= ->]; by left|].
  intros H. right. by apply IH.
Qed.

Lemma assoc_configured n : n ∈ map fst networks -> is_Some (assoc networks n).
Proof.
  clear Hnets. induction networks as [|[k v] l IH]; cbn; [by intros ?%elem_of_nil|].
  destruct (decide (k = n)) as [->|Hkn]; [eauto|].
  intros [->|Hin]%elem_of_cons; [done|]. by apply IH.
Qed.

Lemma assoc_nonempty n rpcs : assoc networks n = Some rpcs -> rpcs <> [].
Proof.
  intros Hin%assoc_elem. unfold endpoints_nonempty in Hnets.
  rewrite Forall_forall in Hnets. exact (Hnets _ Hin).
Qed.

Lemma cursors_next n st r st' :
  cursors_in_range networks st -> get_next_rpc networks n st = (r, st') ->
  cursors_in_range networks st'.
Proof.
  intros Hinv Hrun m rpcs Hm.
  eapply (get_next_rpc_keeps networks m rpcs Hm (assoc_nonempty _ _ Hm)); [|exact Hrun].
  by apply Hinv.
Qed.

Lemma get_balance_for_network_global F address n st :
  n ∈ map fst networks -> cursors_in_range networks st ->
  exists amount st',
    get_balance_for_network networks F address n st = (Return amount, st') /\
    cursors_in_range networks st'.
Proof.
  intros [rpcs Hconf]%assoc_configured Hinv.
  destruct (get_balance_for_network_spec networks (cursors_in_range networks)
              cursors_next ltac:(done) n rpcs Hconf (assoc_nonempty _ _ Hconf)
              ltac:(intros st0 H0; by apply H0) F address st Hinv)
    as (amount & st' & _ & Hrun & Hinv' & _).
  by exists amount, st'.
Qed.

End AllCursors.

(** What the first fetch on a network with two endpoints does when the
    first endpoint never succeeds and no other task rotates the cursor of
    that network meanwhile. *)
Section StaleEndpoint.

Variable networks : list (string * list string).
Variable F : FetchEnv.
Variables address network : string.

Lemma interfere_frame calls :
  forall st, network ∉ calls ->
    exists st', interfere networks calls st = (Return tt, st') /\
      current_rpc_index st' !! network = current_rpc_index st !! network /\
      posted st' = posted st.
Proof.
  induction calls as [|n calls IH]; intros st Hnot.
  - by exists st.
  - apply not_elem_of_cons in Hnot as [Hn Hrest].
    cbn [interfere]. unfold bind at 1, try_except, bind, ret.
    destruct (get_next_rpc networks n st) as [r st1] eqn:Heq.
    destruct (get_next_rpc_frame networks n st r st1 Heq) as [Hframe Hp1].
    destruct (IH st1 Hrest) as (st' & Hrun & Hc & Hp').
    exists st'. destruct r; rewrite Hrun; (split; [done|]);
      (split; [by rewrite Hc, Hframe | congruence]).
Qed.

(** How one pass ends, by the reply: on a success it returns from the
    state reached by the post; otherwise it goes on, either with the same
    endpoint or with the one [get_next_rpc] hands out in that state. *)
Lemma attempt_outcome attempt rpc_url st st1 :
  interfere networks (others F attempt) st = (Return tt, st1) ->
  let st2 := {| current_rpc_index := current_rpc_index st1;
                posted := posted st1 ++ [(network, address, rpc_url)] |} in
  let run := try_except (attempt_body networks F address network attempt rpc_url)
                        (attempt_handler networks network) st in
  (is_success (respond F attempt rpc_url) = true /\
   exists amount, run = (Return (Done amount), st2)) \/
  (is_success (respond F attempt rpc_url) = false /\
   (run = (Return (Continue rpc_url), st2) \/
    (exists url st3, get_next_rpc networks network st2 = (Return url, st3) /\
                     run = (Return (Continue url), st3)) \/
    (exists e st3, get_next_rpc networks network st2 = (Raise e, st3)))).
Proof.
  intros Hint st2 run.
  assert (Hrot : forall (e : exn) r st',
            attempt_handler networks network e st2 = (r, st') ->
            (exists url st3, get_next_rpc networks network st2 = (Return url, st3) /\
                             (r, st') = (Return (Continue url), st3)) \/
            (exists e st3, get_next_rpc networks network st2 = (Raise e, st3))).
  { intros e r st'. unfold attempt_handler, bind, ret.
    destruct (get_next_rpc networks network st2) as [[url|e'] st3]; intros [= <- <-]; eauto. }
  destruct run as [r st'] eqn:Hrun. revert Hrun. subst run.
  unfold try_except, attempt_body.
  unfold bind at 1. rewrite Hint. unfold bind at 1, post. fold st2.
  unfold is_success.
  destruct (respond F attempt rpc_url) as [response|e];
    [|intros H%Hrot; right; split; [done|by right]].
  destruct ((status_code response =? 429) || contains "rate limit" (lower (text response))).
  { unfold bind at 1, ret.
    destruct (get_next_rpc networks network st2) as [[url|e] st3] eqn:Hnext.
    - intros [= <- <-]. right. split; [done|]. right. left. eauto.
    - intros _. right. split; [done|]. right. right. eauto. }
  destruct (status_code response =? 200).
  2:{ unfold bind at 1, lift, ret. destruct (raise_for_status response) as [[]|e].
      - intros [= <- <-]. right. split; [done|by left].
      - intros H%Hrot. right. split; [done|by right]. }
  unfold bind at 1, lift at 1. cbn [negb andb].
  destruct (json response) as [[error_text|hex| |]|e];
    try (unfold raise; intros H%Hrot; right; split; [done|by right]).
  - destruct (contains "rate" (lower error_text)).
    + unfold bind at 1, ret.
      destruct (get_next_rpc networks network st2) as [[url|e] st3] eqn:Hnext.
      * intros [= <- <-]. right. split; [done|]. right. left. eauto.
      * intros _. right. split; [done|]. right. right. eauto.
    + unfold raise. intros H%Hrot. right. split; [done|by right].
  - unfold bind at 1, lift, ret.
    destruct (balance_of_hex hex) as [amount|e].
    + intros [= <- <-]. left. split; [done|]. by exists amount.
    + intros H%Hrot. right. split; [done|by right].
Qed.

Variables u0 u1 : string.
Hypothesis Hconf : assoc networks network = Some [u0; u1].
Hypothesis Halone : forall attempt, network ∉ others F attempt.
Hypothesis Hfail : forall attempt, is_success (respond F attempt u0) = false.

Lemma fresh_fetch_posts_first_endpoint_twice st :
  current_rpc_index st !! network = None ->
  exists st',
    get_balance_for_network networks F address network st = (Return Decimal_zero, st') /\
    posted st' = posted st ++ [(network, address, u0); (network, address, u0)].
Proof.
  intros Hfresh.
  unfold get_balance_for_network, bind at 1, networks_get. rewrite Hconf. cbn [ret length lookup list_lookup].
  cbn [fetch_loop]. unfold bind at 1.
  (* first pass *)
  destruct (interfere_frame (others F 0) st (Halone 0)) as (st1 & Hint1 & Hc1 & Hp1).
  rewrite Hfresh in Hc1.
  set (st2 := {| current_rpc_index := current_rpc_index st1;
                 posted := posted st1 ++ [(network, address, u0)] |}).
  assert (Hnext : get_next_rpc networks network st2
                  = (Return u0, with_index (with_index st2 network 0) network 1)).
  { rewrite (get_next_rpc_fresh networks network [u0; u1] Hconf st2 Hc1).
    rewrite (get_next_rpc_at networks network [u0; u1] Hconf _ 0 u0); [done| |done].
    cbn. by rewrite lookup_insert_eq. }
  assert (Hfirst : exists st3,
            try_except (attempt_body networks F address network 0 u0)
                       (attempt_handler networks network) st = (Return (Continue u0), st3) /\
            posted st3 = posted st ++ [(network, address, u0)] /\
            cursor_in_range [u0; u1] network st3).
  { destruct (attempt_outcome 0 u0 st st1 Hint1)
      as [[Hok _]|[_ [Hstay|[(url & st3 & Hrot & Hrun)|(e & st3 & Hraise)]]]].
    - by rewrite Hfail in Hok.
    - exists st2. split; [done|]. split; [by cbn; rewrite Hp1|].
      intros i. cbn. by rewrite Hc1.
    - fold st2 in Hrot. rewrite Hnext in Hrot. injection Hrot as <- <-.
      eexists. split; [exact Hrun|].
      split; [by cbn; rewrite Hp1|].
      intros i. cbn. rewrite lookup_insert_eq. intros [= <-]. lia.
    - fold st2 in Hraise. by rewrite Hnext in Hraise. }
  destruct Hfirst as (st3 & -> & Hp3 & Hinv3).
  (* second pass *)
  cbn [fetch_loop]. unfold bind at 1.
  destruct (attempt_spec networks (cursor_in_range [u0; u1] network)) with
    (network := network) (rpcs := [u0; u1]) (F := F) (address := address)
    (attempt := 1) (rpc_url := u0) (st := st3)
    as (s & st4 & -> & _ & Hp4 & Hcont); try done.
  { intros n st0 r st5. by apply get_next_rpc_keeps. }
  destruct (Hcont (Hfail 1)) as [url ->]. cbn.
  exists st4. split; [done|]. rewrite Hp4, Hp3, <- app_assoc. done.
Qed.

End StaleEndpoint.

(** ** [asyncio.gather] *)

Section GatherFacts.

Context {A : Type}.

(** An invariant of the shared state that the awaited tasks preserve. *)
Variable I : State -> Prop.

Lemma gather_run_spec (fuel : nat) :
  forall (pending : list (nat * M A)) choices finished st finished' st',
    length pending = fuel ->
    (forall i t st0 r st1, (i, t) ∈ pending -> I st0 -> t st0 = (r, st1) -> I st1) ->
    I st ->
    gather_run fuel pending choices finished st = (finished', st') ->
    I st' /\
    exists new, finished' = finished ++ new /\
      map fst new ≡ₚ map fst pending /\
      Forall (fun ir => exists t st0 st1,
                (ir.1, t) ∈ pending /\ I st0 /\ t st0 = (ir.2, st1)) new.
Proof.
  induction fuel as [|fuel IH];
    intros pending choices finished st finished' st' Hlen Hpres Hinv Hrun.
  - apply nil_length_inv in Hlen as ->. cbn in Hrun. simplify_eq.
    split; [done|]. exists []. by rewrite app_nil_r.
  - cbn [gather_run] in Hrun.
    set (k := hd 0 choices mod length pending) in *.
    assert (Hk : k < length pending) by (apply Nat.mod_upper_bound; lia).
    match type of Hrun with
    | context [match ?x with _ => _ end] => destruct x as [[i task]|] eqn:Hlook
    end; [|apply lookup_ge_None in Hlook; exfalso;
           exact (proj1 (Nat.lt_nge _ _) Hk Hlook)].
    destruct (task st) as [r st1] eqn:Htask.
    pose proof (delete_Permutation pending k _ Hlook) as Hdel.
    assert (Hsub : forall x, x ∈ delete k pending -> x ∈ pending).
    { intros x Hx. eapply elem_of_Permutation_proper; [exact Hdel|]. by right. }
    assert (Hhere : (i, task) ∈ pending) by (by eapply list_elem_of_lookup_2).
    apply IH in Hrun as (Hinv' & new & -> & Hperm & Hall).
    + split; [done|].
      exists ((i, r) :: new). split; [by rewrite <- app_assoc|]. split.
      * cbn. rewrite Hperm. symmetry. exact (fmap_Permutation fst _ _ Hdel).
      * constructor; [by exists task, st, st1|].
        eapply Forall_impl; [exact Hall|].
        intros ir (t & st0 & st2 & Hin & H0 & Ht). exists t, st0, st2. auto.
    + rewrite length_delete by eauto. lia.
    + intros j t st0 r0 st2 Hin. apply (Hpres j). by apply Hsub.
    + exact (Hpres i task st r st1 Hhere Hinv Htask).
Qed.

Lemma first_raise_None (l : list (nat * result A)) :
  first_raise l = None <-> Forall (fun ir => exists a, ir.2 = Return a) l.
Proof.
  induction l as [|[i [a|e]] l IH]; cbn.
  - split; [constructor|done].
  - rewrite IH. split.
    + intros Hl. constructor; [by exists a|done].
    + by inversion 1.
  - split; [done|]. intros Hl. inversion Hl as [|?? [a Ha] ?]. done.
Qed.

Lemma result_of_Some i a (l : list (nat * result A)) :
  result_of i l = Some a -> (i, Return a) ∈ l.
Proof.
  induction l as [|[j r] l IH]; cbn; [done|].
  destruct (decide (j = i)) as [->|].
  - destruct r; intros [= ->]. by left.
  - intros H. right. by apply IH.
Qed.

Lemma result_of_found i (l : list (nat * result A)) :
  i ∈ map fst l -> Forall (fun ir => exists a, ir.2 = Return a) l ->
  is_Some (result_of i l).
Proof.
  induction l as [|[j r] l IH]; cbn; [by intros ?%elem_of_nil|].
  intros Hin Hall. inversion Hall as [|?? [a Ha] Hall']; subst. cbn in Ha. subst r.
  destruct (decide (j = i)) as [->|Hne]; [eauto|].
  apply IH; [|done]. by apply elem_of_cons in Hin as [->|].
Qed.

Lemma omap_total {B C} (f : B -> option C) (l : list B) :
  Forall (fun x => is_Some (f x)) l -> Forall2 (fun x c => f x = Some c) l (omap f l).
Proof.
  induction 1 as [|x l [c Hc] _ IH]; cbn; [constructor|].
  rewrite Hc. cbn. by constructor.
Qed.

Lemma pending_lookup (tasks : list (M A)) i t :
  (i, t) ∈ imap pair tasks -> tasks !! i = Some t.
Proof. intros (j & y & [= -> ->] & Hl)%elem_of_lookup_imap. done. Qed.

Lemma pending_indices (tasks : list (M A)) :
  map fst (imap pair tasks) = seq 0 (length tasks).
Proof.
  apply list_eq. intros i. rewrite list_lookup_fmap, list_lookup_imap.
  destruct (tasks !! i) eqn:Hi; cbn.
  - apply lookup_lt_Some in Hi. by rewrite lookup_seq_lt.
  - apply lookup_ge_None in Hi. by rewrite lookup_seq_ge.
Qed.

Variable tasks : list (M A).
Hypothesis Hpres : forall i t st0 r st1,
  tasks !! i = Some t -> I st0 -> t st0 = (r, st1) -> I st1.

(** Whether it returns or raises, [gather] leaves the invariant. *)
Lemma gather_keeps choices st r st' :
  I st -> gather choices tasks st = (r, st') -> I st'.
Proof.
  intros Hinv. unfold gather.
  destruct (gather_run _ _ _ _ _) as [finished st1] eqn:Hrun.
  apply gather_run_spec in Hrun as (Hinv' & _); [|by rewrite length_imap| |done].
  - destruct (first_raise finished); by intros [= <- <-].
  - intros i t st0 r0 st2 Hin. apply (Hpres i). by apply pending_lookup.
Qed.

(** When [gather] returns, each awaitable has its result at its own
    position, whatever the order of completion. *)
Lemma gather_Return choices st rs st' :
  I st -> gather choices tasks st = (Return rs, st') ->
  length rs = length tasks /\
  forall i a, rs !! i = Some a ->
    exists t st0 st1, tasks !! i = Some t /\ I st0 /\ t st0 = (Return a, st1).
Proof.
  intros Hinv. unfold gather.
  destruct (gather_run _ _ _ _ _) as [finished st1] eqn:Hrun.
  apply gather_run_spec in Hrun as (_ & new & -> & Hperm & Hall);
    [|by rewrite length_imap| |done].
  2:{ intros i t st0 r0 st2 Hin. apply (Hpres i). by apply pending_lookup. }
  cbn [app]. destruct (first_raise new) eqn:Hraise; [done|]. intros [= <- <-].
  apply first_raise_None in Hraise.
  rewrite pending_indices in Hperm.
  assert (Htot : Forall (fun i => is_Some (result_of i new)) (seq 0 (length tasks))).
  { apply Forall_forall. intros i Hi. apply result_of_found; [|done]. by rewrite Hperm. }
  apply omap_total in Htot. split.
  - apply Forall2_length in Htot. by rewrite length_seq in Htot.
  - intros i a Hi.
    destruct (Forall2_lookup_r _ _ _ _ _ Htot Hi) as (j & Hj & Hres).
    apply lookup_seq in Hj as [-> _]. cbn in Hres.
    apply result_of_Some in Hres.
    rewrite Forall_forall in Hall.
    destruct (Hall _ Hres) as (t & st0 & st2 & Hin & H0 & Ht).
    exists t, st0, st2. split; [by apply pending_lookup|done].
Qed.

(** [gather] returns when no awaitable raises under the invariant. *)
Lemma gather_total choices st :
  I st ->
  (forall i t st0, tasks !! i = Some t -> I st0 -> exists a st1, t st0 = (Return a, st1)) ->
  exists rs st', gather choices tasks st = (Return rs, st').
Proof.
  intros Hinv Hret. unfold gather.
  destruct (gather_run _ _ _ _ _) as [finished st1] eqn:Hrun.
  apply gather_run_spec in Hrun as (_ & new & -> & Hperm & Hall);
    [|by rewrite length_imap| |done].
  2:{ intros i t st0 r0 st2 Hin. apply (Hpres i). by apply pending_lookup. }
  cbn [app]. assert (Hnone : first_raise new = None).
  { apply first_raise_None. eapply Forall_impl; [exact Hall|].
    intros [i r] (t & st0 & st2 & Hin & H0 & Ht). cbn in *.
    destruct (Hret i t st0 (pending_lookup _ _ _ Hin) H0) as (a & st3 & Ha).
    exists a. congruence. }
  rewrite Hnone. eauto.
Qed.

End GatherFacts.

(** ** Wallet resolver and batch scheduler *)

Lemma Forall2_concat_lists {A B} (P : A -> B -> Prop) xss yss :
  Forall2 (Forall2 P) xss yss -> Forall2 P (concat xss) (concat yss).
Proof.
  induction 1 as [|xs ys xss yss Hxy _ IH]; cbn; [constructor|].
  by apply Forall2_app.
Qed.

Section WalletFacts.

Variable networks : list (string * list string).
Variable E : Env.

Lemma balances_names (ns : list (string * list string)) :
  forall bs : list Decimal, length bs = length ns ->
    map network (zip_with (fun n b => {| network := n.1; balance := b;
                                         token := coin_symbol n.1 |}) ns bs)
    = map fst ns.
Proof.
  induction ns as [|n ns IH]; intros [|b bs] Hlen; cbn in *; try done.
  f_equal. apply IH. lia.
Qed.

Lemma wallet_body_Return pos wallet st wb st' :
  wallet_body networks E pos wallet st = (Return wb, st') ->
  address wb = strip wallet /\
  length (balances wb) = length networks /\
  one_per_network networks wb /\
  forall i nb, balances wb !! i = Some nb ->
    exists n st0 st1, networks !! i = Some n /\
      network nb = n.1 /\ token nb = coin_symbol n.1 /\
      get_balance_for_network networks (fetch_env E pos n.1) (strip wallet) n.1 st0
      = (Return (balance nb), st1).
Proof.
  unfold wallet_body, bind, ret.
  destruct (gather _ _ _) as [[bs|e] st1] eqn:Hg; [|done].
  intros [= <- <-]. cbn.
  apply (gather_Return (fun _ => True)) in Hg as [Hlen Hres]; [|done|done].
  rewrite length_map in Hlen.
  split; [done|]. split; [by rewrite length_zip_with_l_eq|].
  split; [by apply balances_names|].
  intros i nb Hi.
  apply lookup_zip_with_Some in Hi as (n & b & -> & Hn & Hb). cbn.
  destruct (Hres i b Hb) as (t & st0 & st2 & Ht & _ & Hrun).
  rewrite list_lookup_fmap, Hn in Ht. cbn in Ht. injection Ht as <-.
  exists n, st0, st2. done.
Qed.

Lemma process_wallet_spec pos wallet st :
  exists wb st', process_wallet networks E pos wallet st = (Return wb, st') /\
    reported networks wallet wb.
Proof.
  unfold process_wallet, try_except.
  destruct (wallet_body networks E pos wallet st) as [[wb|e] st'] eqn:Hbody.
  - exists wb, st'. split; [done|]. left.
    apply wallet_body_Return in Hbody as (? & ? & ? & ?). done.
  - eexists _, st'. split; [reflexivity|]. right. split; [done|]. by exists e.
Qed.

(** The batch under an invariant [I] that every wallet leaves in place,
    with [R] what is known of each reported wallet. *)
Variable I : State -> Prop.
Variable R : string -> WalletBalances -> Prop.
Hypothesis Hwallet : forall pos wallet st, I st ->
  exists wb st', process_wallet networks E pos wallet st = (Return wb, st') /\
    I st' /\ R wallet wb.

Lemma process_wallet_chunk_spec chunk :
  forall pos st, I st ->
    exists wbs st', process_wallet_chunk networks E pos chunk st = (Return wbs, st') /\
      I st' /\ Forall2 (fun wb w => R w wb) wbs chunk.
Proof.
  induction chunk as [|wallet rest IH]; intros pos st Hinv.
  - exists [], st. split; [done|]. split; [done|constructor].
  - cbn [process_wallet_chunk]. unfold bind.
    destruct (Hwallet pos wallet st Hinv) as (wb & st1 & -> & Hinv1 & Hwb).
    destruct (IH (S pos) st1 Hinv1) as (wbs & st2 & -> & Hinv2 & Hall).
    exists (wb :: wbs), st2. split; [done|]. split; [done|]. by constructor.
Qed.

Lemma evm_checker_spec input st :
  input <> [] -> I st ->
  exists report st', evm_checker networks E input st = (Return report, st') /\
    I st' /\ Forall2 (fun wb w => R w wb) (wallets report) input.
Proof.
  intros Hne Hinv. destruct (wallet_chunks_spec input Hne) as (m & Hchunks & _).
  pose proof (wallet_chunks_concat input _ Hchunks) as Hconcat.
  unfold evm_checker, bind, lift, ret. rewrite Hchunks.
  set (chunks := map _ (seq 0 m)) in *.
  set (tasks := map (fun c : nat * list string => process_wallet_chunk networks E c.1 c.2) chunks).
  assert (Htask : forall i t, tasks !! i = Some t ->
            exists c, chunks !! i = Some c /\ t = process_wallet_chunk networks E c.1 c.2).
  { intros i t. unfold tasks. rewrite list_lookup_fmap.
    destruct (chunks !! i) as [c|]; [|done]. intros [= <-]. by exists c. }
  assert (Hpres : forall i t st0 r st1,
            tasks !! i = Some t -> I st0 -> t st0 = (r, st1) -> I st1).
  { intros i t st0 r st1 (c & _ & ->)%Htask H0 Hrun.
    destruct (process_wallet_chunk_spec c.2 c.1 st0 H0) as (wbs & st2 & Hrun' & H2 & _).
    rewrite Hrun in Hrun'. by injection Hrun' as -> ->. }
  destruct (gather_total I tasks Hpres (chunk_order E) st Hinv) as (rs & st' & Hg).
  { intros i t st0 (c & _ & ->)%Htask H0.
    destruct (process_wallet_chunk_spec c.2 c.1 st0 H0) as (wbs & st1 & -> & _). eauto. }
  rewrite Hg. exists {| wallets := concat rs |}, st'. split; [done|]. cbn.
  split; [by eapply (gather_keeps I tasks Hpres)|].
  apply (gather_Return I tasks Hpres) in Hg as [Hlen Hres]; [|done].
  rewrite <- Hconcat. apply Forall2_concat_lists.
  apply Forall2_same_length_lookup_2.
  - rewrite Hlen. unfold tasks. by rewrite !length_map.
  - intros i wbs ws Hi Hws.
    destruct (Hres i wbs Hi) as (t & st0 & st1 & (c & Hc & ->)%Htask & H0 & Hrun).
    rewrite list_lookup_fmap, Hc in Hws. injection Hws as <-.
    destruct (process_wallet_chunk_spec c.2 c.1 st0 H0) as (wbs' & st1' & Hrun' & _ & Hall).
    congruence.
Qed.

End WalletFacts.

(** Without any assumption, each wallet is reported one way or the other. *)
Lemma evm_checker_reported networks E input st :
  input <> [] ->
  exists report st', evm_checker networks E input st = (Return report, st') /\
    Forall2 (fun wb w => reported networks w wb) (wallets report) input.
Proof.
  intros Hne.
  destruct (evm_checker_spec networks E (fun _ => True) (reported networks)) with
    (input := input) (st := st) as (report & st' & Hrun & _ & Hall); [|done|done|by eauto].
  intros pos wallet st0 _.
  destruct (process_wallet_spec networks E pos wallet st0) as (wb & st1 & ? & ?). eauto.
Qed.

Lemma evm_checker_Return networks E input st report st' :
  evm_checker networks E input st = (Return report, st') ->
  Forall2 (fun wb w => reported networks w wb) (wallets report) input.
Proof.
  intros Hrun. destruct (decide (input = [])) as [->|Hne]; [done|].
  destruct (evm_checker_reported networks E input st Hne) as (report' & st'' & Hrun' & Hall).
  congruence.
Qed.

(** With at least one endpoint per network and the cursors in range, no
    fetch raises, so every wallet resolves. *)
Section Resolved.

Variable networks : list (string * list string).
Variable E : Env.
Hypothesis Hnets : endpoints_nonempty networks.

Lemma wallet_body_total pos wallet st :
  cursors_in_range networks st ->
  exists wb st', wallet_body networks E pos wallet st = (Return wb, st') /\
    cursors_in_range networks st'.
Proof.
  intros Hinv. unfold wallet_body, bind, ret.
  set (tasks := map _ networks).
  assert (Htask : forall i t, tasks !! i = Some t -> exists n, n ∈ networks /\
            t = get_balance_for_network networks (fetch_env E pos n.1) (strip wallet) n.1).
  { intros i t. unfold tasks. rewrite list_lookup_fmap.
    destruct (networks !! i) as [n|] eqn:Hn; [|done]. intros [= <-].
    exists n. split; [by eapply list_elem_of_lookup_2|done]. }
  assert (Hfetch : forall i t st0, tasks !! i = Some t -> cursors_in_range networks st0 ->
            exists a st1, t st0 = (Return a, st1) /\ cursors_in_range networks st1).
  { intros i t st0 (n & Hn & ->)%Htask H0.
    apply (get_balance_for_network_global networks Hnets); [|done].
    by apply list_elem_of_fmap_2. }
  assert (Hpres : forall i t st0 r st1, tasks !! i = Some t ->
            cursors_in_range networks st0 -> t st0 = (r, st1) ->
            cursors_in_range networks st1).
  { intros i t st0 r st1 Ht H0 Hrun.
    destruct (Hfetch i t st0 Ht H0) as (a & st2 & Hrun' & H2).
    rewrite Hrun in Hrun'. by injection Hrun' as -> ->. }
  destruct (gather_total (cursors_in_range networks) tasks Hpres (fetch_order E pos) st Hinv)
    as (bs & st' & Hg).
  { intros i t st0 Ht H0. destruct (Hfetch i t st0 Ht H0) as (a & st1 & ? & _). eauto. }
  rewrite Hg. eexists _, st'. split; [reflexivity|].
  by eapply (gather_keeps (cursors_in_range networks) tasks Hpres).
Qed.

Lemma evm_checker_resolved input st :
  input <> [] -> cursors_in_range networks st ->
  exists report st', evm_checker networks E input st = (Return report, st') /\
    cursors_in_range networks st' /\
    Forall2 (fun wb w => address wb = strip w /\ one_per_network networks wb)
            (wallets report) input.
Proof.
  intros Hne Hinv.
  apply (evm_checker_spec networks E (cursors_in_range networks)
           (fun w wb => address wb = strip w /\ one_per_network networks wb));
    [|done|done].
  intros pos wallet st0 H0.
  destruct (wallet_body_total pos wallet st0 H0) as (wb & st1 & Hbody & H1).
  exists wb, st1. split.
  - unfold process_wallet, try_except. by rewrite Hbody.
  - split; [done|]. apply wallet_body_Return in Hbody as (? & _ & ? & _). done.
Qed.

End Resolved.
(** ** The library models against the interpreter

    Values observed with CPython 3.11 for [int(text, 16)],
    [Decimal(n) / Decimal(10**18)], [str.strip] and [in]. *)

Example int16_examples :
  int16 " 0xDE0B6B3A7640000 " = Return (10 ^ 18)%Z /\
  int16 "0x_ff_f" = Return 4095%Z /\
  int16 "-0X1" = Return (-1)%Z /\
  int16 "0x" = Raise ValueError /\
  int16 "ff__f" = Raise ValueError /\
  int16 "1 2" = Raise ValueError /\
  int16 "" = Raise ValueError.
Proof. repeat split; by vm_compute. Qed.

Example to_ether_examples :
  to_ether 5 = Return (mkDecimal false 5 (-18)) /\
  to_ether (-15) = Return (mkDecimal true 15 (-18)) /\
  to_ether 0 = Return (mkDecimal false 0 0) /\
  to_ether 12345678901234567890123456785
  = Return (mkDecimal false 1234567890123456789012345678 (-17)) /\
  to_ether 99999999999999999999999999995
  = Return (mkDecimal false 1000000000000000000000000000 (-16)).
Proof. repeat split; by vm_compute. Qed.

Example string_examples :
  strip "  w2 " = "w2" /\ strip " " = "" /\ strip "a b" = "a b" /\
  contains "rate limit" (lower "Rate Limit exceeded") = true /\
  contains "rate" (lower "execution reverted") = false /\
  contains "" "" = true.
Proof. repeat split; by vm_compute. Qed.

Example coin_symbol_examples :
  coin_symbol "BSC" = "BNB" /\ coin_symbol "Polygon" = "POL" /\
  coin_symbol "Ethereum" = "ETH".
Proof. repeat split; by vm_compute. Qed.

(** * The claims *)

(** ** C1 *)

(** C1. For every non-empty input address list, [evm_checker] returns a
    [BalanceReport] with exactly one [WalletBalances] per input address:
    the report has as many wallets as the input has addresses, and the
    wallet at each position carries the address read at that position
    (stripped when the wallet resolved, as given when it failed), so no
    address is dropped or duplicated. *)
Theorem evm_checker_one_wallet_per_address
    (networks : list (string * list string)) (E : Env)
    (input : list string) (st : State) :
  input <> [] ->
  exists report st',
    evm_checker networks E input st = (Return report, st') /\
    length (wallets report) = length input /\
    Forall2 (fun wb wallet => address wb = strip wallet \/ address wb = wallet)
            (wallets report) input.
Proof.
  intros Hne.
  destruct (evm_checker_reported networks E input st Hne) as (report & st' & Hrun & Hall).
  exists report, st'. split; [done|]. split.
  - by apply Forall2_length in Hall.
  - eapply Forall2_impl; [exact Hall|].
    intros wb wallet [[Ha _]|[Ha _]]; [by left|by right].
Qed.

Lemma evm_checker_one_wallet_per_address_witness :
  Scenario.seven <> [] /\
  exists report st',
    evm_checker Scenario.two_networks (Scenario.last_first Scenario.first_limited)
                Scenario.seven initial_state = (Return report, st') /\
    length (wallets report) = 7 /\
    Forall2 (fun wb wallet => address wb = strip wallet \/ address wb = wallet)
            (wallets report) Scenario.seven.
Proof.
  assert (Hne : Scenario.seven <> []) by discriminate.
  split; [exact Hne|].
  exact (evm_checker_one_wallet_per_address Scenario.two_networks
           (Scenario.last_first Scenario.first_limited) Scenario.seven
           initial_state Hne).
Defined.

(** ** C2 *)

(** C2. The balance fetch for one (address, network) pair never raises:
    for a network with a non-empty endpoint list of length N (and a
    cursor inside it, as [get_next_rpc] keeps it) it returns an amount
    after at most N requests, whatever the endpoints answer and whatever
    other tasks do to the cursor in between; and if every reply is a
    failure (all of them rate-limited, for instance) it makes exactly N
    requests and returns the zero amount. *)
Theorem get_balance_for_network_never_raises
    (networks : list (string * list string)) (F : FetchEnv)
    (address network : string) (rpc_list : list string) (st : State) :
  assoc networks network = Some rpc_list ->
  rpc_list <> [] ->
  cursor_in_range rpc_list network st ->
  exists amount st' requests,
    get_balance_for_network networks F address network st = (Return amount, st') /\
    cursor_in_range rpc_list network st' /\
    posted st' = posted st ++ requests /\
    length requests <= length rpc_list /\
    ((forall attempt url, is_success (respond F attempt url) = false) ->
     amount = Decimal_zero /\ length requests = length rpc_list).
Proof.
  intros Hconf Hne Hinv.
  exact (get_balance_for_network_local networks F address network rpc_list st Hconf Hne Hinv).
Qed.

Lemma get_balance_for_network_never_raises_witness :
  exists amount st' requests,
    get_balance_for_network Scenario.two_networks Scenario.all_limited "w1" "A"
                            initial_state = (Return amount, st') /\
    posted st' = requests /\
    amount = Decimal_zero /\ length requests = 2.
Proof.
  assert (Hconf : assoc Scenario.two_networks "A" = Some ["a0"; "a1"]) by reflexivity.
  assert (Hne : ["a0"; "a1"] <> ([] : list string)) by discriminate.
  assert (Hinv : cursor_in_range ["a0"; "a1"] "A" initial_state).
  { intros i Hi. cbn in Hi. rewrite lookup_empty in Hi. discriminate. }
  destruct (get_balance_for_network_never_raises Scenario.two_networks
              Scenario.all_limited "w1" "A" ["a0"; "a1"] initial_state Hconf Hne Hinv)
    as (amount & st' & requests & Hrun & _ & Hposted & _ & Hfail).
  exists amount, st', requests. split; [exact Hrun|]. split; [exact Hposted|].
  apply Hfail. intros attempt url. reflexivity.
Defined.

(** ** C3 *)

(** C3. (The code departs from the claim here.)  Take a network with the
    two endpoints u0 and u1 and a fresh cursor, the first fetch on it,
    with no other task fetching on that network meanwhile, and let u0
    never give a successful reply (HTTP 429 on every request, for
    instance).  Whatever u1 would answer, the fetch posts twice to u0,
    never to u1, and returns zero: the first [get_next_rpc] stores the
    cursor 1 but hands back the endpoint at the old cursor, u0 again,
    and the retry budget of two is then used up. *)
Theorem first_fetch_never_reaches_second_endpoint
    (networks : list (string * list string)) (F : FetchEnv)
    (address network u0 u1 : string) (st : State) :
  assoc networks network = Some [u0; u1] ->
  current_rpc_index st !! network = None ->
  (forall attempt, network ∉ others F attempt) ->
  (forall attempt, is_success (respond F attempt u0) = false) ->
  exists st',
    get_balance_for_network networks F address network st = (Return Decimal_zero, st') /\
    posted st' = posted st ++ [(network, address, u0); (network, address, u0)].
Proof.
  intros Hconf Hfresh Halone Hfail.
  exact (fresh_fetch_posts_first_endpoint_twice networks F address network u0 u1
           Hconf Halone Hfail st Hfresh).
Qed.

Lemma first_fetch_never_reaches_second_endpoint_witness :
  respond Scenario.first_limited 0 "a0" = Scenario.too_many_requests /\
  respond Scenario.first_limited 0 "a1" = Scenario.balance_reply Scenario.one_ether_hex /\
  balance_of_hex Scenario.one_ether_hex = Return (mkDecimal false 1 0) /\
  exists st',
    get_balance_for_network Scenario.two_networks Scenario.first_limited "w1" "A"
                            initial_state = (Return Decimal_zero, st') /\
    posted st' = [("A", "w1", "a0"); ("A", "w1", "a0")].
Proof.
  split; [reflexivity|]. split; [reflexivity|]. split; [vm_compute; reflexivity|].
  assert (Hconf : assoc Scenario.two_networks "A" = Some ["a0"; "a1"]) by reflexivity.
  assert (Hfresh : current_rpc_index initial_state !! "A" = None) by apply lookup_empty.
  assert (Halone : forall attempt : nat, "A" ∉ others Scenario.first_limited attempt).
  { intros attempt Hin. cbn in Hin. by apply elem_of_nil in Hin. }
  assert (Hfail : forall attempt : nat,
            is_success (respond Scenario.first_limited attempt "a0") = false)
    by (intros attempt; reflexivity).
  exact (first_fetch_never_reaches_second_endpoint Scenario.two_networks
           Scenario.first_limited "w1" "A" "a0" "a1" initial_state
           Hconf Hfresh Halone Hfail).
Defined.

(** The same inside [evm_checker], for a single wallet: the fetch for "B"
    completes first and rotates its own cursor meanwhile; the wallet is
    reported with zero on "A" and one ether on "B". *)
Example single_wallet_reports_zero_on_first_network :
  let F := {| others := fun _ => ["B"]; respond := respond Scenario.first_limited |} in
  exists st',
    evm_checker Scenario.two_networks (Scenario.last_first F) ["w1"] initial_state
    = (Return {| wallets :=
                   [ {| address := "w1";
                        balances :=
                          [ {| network := "A"; balance := Decimal_zero; token := "ETH" |};
                            {| network := "B"; balance := mkDecimal false 1 0;
                               token := "ETH" |} ] |} ] |}, st') /\
    filter (fun r => r.1.1 = "A") (posted st')
    = [("A", "w1", "a0"); ("A", "w1", "a0")].
Proof. eexists. split; by vm_compute. Qed.

(** ** C4 *)

(** C4. A wallet that completes normally (the body of the [try] returns)
    gets exactly one entry per configured network, in the iteration order
    of [networks], whatever the order in which the fetches complete: the
    entry at position i names the i-th network, carries its token symbol
    and holds the amount returned by the fetch for that network. *)
Theorem process_wallet_balances_in_network_order
    (networks : list (string * list string)) (E : Env)
    (pos : nat) (wallet : string) (st : State)
    (wb : WalletBalances) (st' : State) :
  wallet_body networks E pos wallet st = (Return wb, st') ->
  process_wallet networks E pos wallet st = (Return wb, st') /\
  length (balances wb) = length networks /\
  map network (balances wb) = map fst networks /\
  forall i nb, balances wb !! i = Some nb ->
    exists n st0 st1, networks !! i = Some n /\
      network nb = n.1 /\ token nb = coin_symbol n.1 /\
      get_balance_for_network networks (fetch_env E pos n.1) (strip wallet) n.1 st0
      = (Return (balance nb), st1).
Proof.
  intros Hbody. split.
  - unfold process_wallet, try_except. by rewrite Hbody.
  - apply wallet_body_Return in Hbody as (_ & Hlen & Hnames & Hres). done.
Qed.

Lemma process_wallet_balances_in_network_order_witness :
  exists wb st',
    wallet_body Scenario.two_networks (Scenario.last_first Scenario.first_limited)
                0 " w2" initial_state = (Return wb, st') /\
    process_wallet Scenario.two_networks (Scenario.last_first Scenario.first_limited)
                   0 " w2" initial_state = (Return wb, st') /\
    length (balances wb) = 2 /\
    map network (balances wb) = ["A"; "B"].
Proof.
  eexists _, _.
  assert (Hbody : wallet_body Scenario.two_networks
                    (Scenario.last_first Scenario.first_limited) 0 " w2" initial_state
                  = (Return _, _)) by (vm_compute; reflexivity).
  split; [exact Hbody|].
  destruct (process_wallet_balances_in_network_order _ _ _ _ _ _ _ Hbody)
    as (Hrun & Hlen & Hnames & _).
  split; [exact Hrun|]. split; [exact Hlen | exact Hnames].
Defined.

(** ** C5 *)

(** C5, as stated, fails on six addresses: the chunk size is 2 and the
    scheduler produces three chunks, not five. *)
Lemma six_addresses_three_chunks :
  5 <= length Scenario.six /\
  exists chunks, wallet_chunks Scenario.six = Return chunks /\
    map snd chunks = [["w1"; "w2"]; ["w3"; "w4"]; ["w5"; "w6"]] /\
    length chunks <> 5.
Proof.
  split; [cbn; lia|]. eexists. split; [reflexivity|]. split; [reflexivity|].
  cbn. lia.
Qed.

(** C5, amended. For a non-empty input of n addresses the scheduler cuts
    the list into consecutive chunks of size ceil(n/5) = (n+4)/5, the
    last one possibly shorter: the chunks concatenate to the input, none
    is empty, the k-th starts at position k*size, all but the last are
    full, and their number is the least count with count*size >= n.  That
    number is between 1 and 5; it is 5 exactly when n > 4*size, which
    holds for every n >= 17 (and for n = 5, 9, 10, 13, 14, 15). *)
Theorem wallet_chunks_ceiling {A : Type} (l : list A) :
  l <> [] ->
  exists chunks,
    wallet_chunks l = Return chunks /\
    concat (map snd chunks) = l /\
    1 <= length chunks <= 5 /\
    (length chunks - 1) * ((length l + 4) / 5) < length l
      <= length chunks * ((length l + 4) / 5) /\
    (forall k c, chunks !! k = Some c ->
       c.1 = k * ((length l + 4) / 5) /\
       c.2 = take ((length l + 4) / 5) (drop (k * ((length l + 4) / 5)) l) /\
       1 <= length c.2 <= (length l + 4) / 5 /\
       (S k < length chunks -> length c.2 = (length l + 4) / 5)) /\
    (length chunks = 5 <-> 4 * ((length l + 4) / 5) < length l) /\
    (17 <= length l -> length chunks = 5).
Proof.
  intros Hne. destruct (wallet_chunks_spec l Hne) as (m & Hchunks & Hm & Hlo & Hhi).
  pose proof (wallet_chunks_concat l _ Hchunks) as Hconcat.
  remember ((length l + 4) / 5) as cs eqn:Ecs.
  assert (Hcs : 5 * cs <= length l + 4 < 5 * cs + 5).
  { pose proof (Nat.div_mod_eq (length l + 4) 5) as Hd.
    pose proof (Nat.mod_upper_bound (length l + 4) 5 ltac:(lia)) as Hr.
    rewrite <- Ecs in Hd. lia. }
  eexists. split; [exact Hchunks|]. rewrite length_map, length_seq.
  split; [exact Hconcat|]. split; [nia|]. split; [lia|]. split; [|split; [nia|nia]].
  intros k c Hc. rewrite list_lookup_fmap in Hc.
  destruct (seq 0 m !! k) as [k'|] eqn:Hk; [|done].
  apply lookup_seq in Hk as [-> Hkm]. cbn in Hc. injection Hc as <-. cbn.
  unfold slice. replace (k * cs + cs - k * cs) with cs by lia.
  split; [done|]. split; [done|].
  rewrite length_take, length_drop. split; [nia|]. intros Hnext. nia.
Qed.

Lemma wallet_chunks_ceiling_witness :
  Scenario.seven <> [] /\
  exists chunks,
    wallet_chunks Scenario.seven = Return chunks /\
    concat (map snd chunks) = Scenario.seven /\
    length chunks = 4.
Proof.
  assert (Hne : Scenario.seven <> []) by discriminate.
  split; [exact Hne|].
  destruct (wallet_chunks_ceiling Scenario.seven Hne)
    as (chunks & Hrun & Hconcat & _ & Hcount & _).
  exists chunks. split; [exact Hrun|]. split; [exact Hconcat|].
  cbn in Hcount. lia.
Defined.

(** ** C6 *)

(** C6. For a network with N configured endpoints and a fresh cursor, N
    consecutive calls of [get_next_rpc] return the N endpoints in
    configuration order, each once; and the sequence then repeats: any
    number of rounds of N calls returns the list that many times over. *)
Theorem get_next_rpc_round_robin
    (networks : list (string * list string)) (network : string)
    (rpc_list : list string) (st : State) :
  assoc networks network = Some rpc_list ->
  current_rpc_index st !! network = None ->
  (exists st', advance_n networks network (length rpc_list) st = (Return rpc_list, st')) /\
  (forall rounds, exists st',
     advance_n networks network (rounds * length rpc_list) st
     = (Return (concat (replicate rounds rpc_list)), st')).
Proof.
  intros Hconf Hfresh. destruct (decide (rpc_list = [])) as [->|Hne].
  - split; [by exists st|]. intros rounds. exists st.
    rewrite Nat.mul_0_r. cbn. do 2 f_equal.
    induction rounds as [|rounds IH]; [done|]. by cbn.
  - split.
    + destruct (advance_cycle networks network rpc_list Hconf st Hne (or_introl Hfresh))
        as (st' & Hrun & _). by exists st'.
    + intros rounds.
      exact (advance_rounds networks network rpc_list Hconf rounds st Hne (or_introl Hfresh)).
Qed.

Lemma get_next_rpc_round_robin_witness :
  exists st',
    advance_n Scenario.two_networks "B" 6 initial_state
    = (Return ["b0"; "b1"; "b0"; "b1"; "b0"; "b1"], st').
Proof.
  assert (Hconf : assoc Scenario.two_networks "B" = Some ["b0"; "b1"]) by reflexivity.
  assert (Hfresh : current_rpc_index initial_state !! "B" = None) by apply lookup_empty.
  destruct (get_next_rpc_round_robin Scenario.two_networks "B" ["b0"; "b1"]
              initial_state Hconf Hfresh) as [_ Hrounds].
  exact (Hrounds 3).
Defined.

(** ** C7 *)

(** C7, as stated, fails at the base-unit integer 10^28 + 1: the
    quotient has 29 significant digits, the context keeps 28, and the
    amount comes out as 10^10 exactly. *)
Lemma to_ether_rounds_above_prec :
  int16 "0x204FCE5E3E25026110000001" = Return (10 ^ 28 + 1)%Z /\
  exists amount,
    balance_of_hex "0x204FCE5E3E25026110000001" = Return amount /\
    denotes amount (10 ^ 10) 1 /\
    ~ denotes amount (10 ^ 28 + 1) (10 ^ 18).
Proof.
  split; [by vm_compute|]. eexists. split; [by vm_compute|].
  split; [by vm_compute|]. by vm_compute.
Qed.

(** C7, amended. A hexadecimal base-unit balance of magnitude below 10^28
    (at most 28 significant digits, the precision of the decimal context)
    is converted to the exact quotient by 10^18, without any rounding; in
    particular 0xDE0B6B3A7640000 (10^18) converts to the amount 1. *)
Theorem to_ether_exact_below_prec (hex : string) (balance : Z) :
  int16 hex = Return balance ->
  (Z.abs balance < 10 ^ 28)%Z ->
  (exists amount,
     balance_of_hex hex = Return amount /\ denotes amount balance (10 ^ 18)) /\
  balance_of_hex "0xDE0B6B3A7640000" = Return (mkDecimal false 1 0).
Proof.
  intros Hhex Hsmall. split; [|by vm_compute].
  unfold balance_of_hex. rewrite Hhex. by apply to_ether_exact_gen.
Qed.

Lemma to_ether_exact_below_prec_witness :
  exists amount,
    balance_of_hex "0x14d1120d7b160000" = Return amount /\
    denotes amount 1500000000000000000 (10 ^ 18).
Proof.
  assert (Hhex : int16 "0x14d1120d7b160000" = Return 1500000000000000000%Z)
    by (vm_compute; reflexivity).
  assert (Hsmall : (Z.abs 1500000000000000000 < 10 ^ 28)%Z) by (vm_compute; reflexivity).
  exact (proj1 (to_ether_exact_below_prec "0x14d1120d7b160000" 1500000000000000000
                  Hhex Hsmall)).
Defined.

(** ** C8 *)

(** C8, as stated, fails when the processing of a wallet fails: with two
    configured networks, one of them without endpoints, the fetch for
    that network raises [IndexError], and the wallet is reported with the
    single entry "ERROR", not with two entries. *)
Lemma failed_wallet_has_one_entry :
  exists st',
    evm_checker Scenario.one_empty (Scenario.in_turn Scenario.first_limited)
                ["w1"] initial_state
    = (Return {| wallets := [ {| address := "w1";
                                 balances := [error_balance IndexError] |} ] |}, st') /\
  length [error_balance IndexError] <> length Scenario.one_empty.
Proof. eexists. split; [by vm_compute|]. cbn. lia. Qed.

(** C8, amended. Every [WalletBalances] of the returned report has either
    one entry per configured network, in configuration order (a wallet
    that completed normally; a network whose endpoints all failed has its
    zero entry there), or exactly one entry, the synthetic one with
    network "ERROR" and amount zero (a wallet whose processing raised:
    that is what [process_wallet] records whenever the body raises).
    When every configured network has at least one endpoint and the
    cursors are in range, no wallet fails and every wallet of the report
    has its one entry per network. *)
Theorem report_entries_per_wallet
    (networks : list (string * list string)) (E : Env) :
  (forall pos wallet st e st',
     wallet_body networks E pos wallet st = (Raise e, st') ->
     process_wallet networks E pos wallet st
     = (Return {| address := wallet; balances := [error_balance e] |}, st')) /\
  (forall input st report st',
     evm_checker networks E input st = (Return report, st') ->
     Forall (fun wb => one_per_network networks wb \/ single_error_entry wb)
            (wallets report)) /\
  (forall input st,
     endpoints_nonempty networks -> cursors_in_range networks st -> input <> [] ->
     exists report st',
       evm_checker networks E input st = (Return report, st') /\
       Forall (one_per_network networks) (wallets report)).
Proof.
  split; [|split].
  - intros pos wallet st e st' Hbody. unfold process_wallet, try_except.
    by rewrite Hbody.
  - intros input st report st' Hrun.
    apply evm_checker_Return in Hrun.
    induction Hrun as [|wb wallet wbs rest Hwb _ IH]; constructor; [|exact IH].
    destruct Hwb as [[_ H]|[_ H]]; [by left|by right].
  - intros input st Hnets Hinv Hne.
    destruct (evm_checker_resolved networks E Hnets input st Hne Hinv)
      as (report & st' & Hrun & _ & Hall).
    exists report, st'. split; [done|].
    apply Forall_forall. intros wb [i Hi]%list_elem_of_lookup.
    by destruct (Forall2_lookup_l _ _ _ _ _ Hall Hi) as (w & _ & _ & H).
Qed.

Lemma report_entries_per_wallet_witness :
  (exists report st',
     evm_checker Scenario.one_empty (Scenario.in_turn Scenario.first_limited)
                 Scenario.six initial_state = (Return report, st') /\
     Forall (fun wb => one_per_network Scenario.one_empty wb \/ single_error_entry wb)
            (wallets report)) /\
  (exists report st',
     evm_checker Scenario.two_networks (Scenario.last_first Scenario.all_limited)
                 Scenario.seven initial_state = (Return report, st') /\
     Forall (one_per_network Scenario.two_networks) (wallets report)).
Proof.
  split.
  - eexists _, _.
    assert (Hrun : evm_checker Scenario.one_empty (Scenario.in_turn Scenario.first_limited)
                     Scenario.six initial_state = (Return _, _))
      by (vm_compute; reflexivity).
    split; [exact Hrun|].
    exact (proj1 (proj2 (report_entries_per_wallet Scenario.one_empty
                           (Scenario.in_turn Scenario.first_limited))) _ _ _ _ Hrun).
  - assert (Hnets : endpoints_nonempty Scenario.two_networks).
    { repeat constructor; discriminate. }
    assert (Hinv : cursors_in_range Scenario.two_networks initial_state).
    { intros n rpcs _ i Hi. cbn in Hi. rewrite lookup_empty in Hi. discriminate. }
    assert (Hne : Scenario.seven <> []) by discriminate.
    exact (proj2 (proj2 (report_entries_per_wallet Scenario.two_networks
                           (Scenario.last_first Scenario.all_limited)))
             Scenario.seven initial_state Hnets Hinv Hne).
Defined.

(** ** C9 *)

(** When the attempts do not overlap the limiter does its work: the
    second caller starts after the first has posted, sleeps out the
    interval and posts 3 seconds later. *)
Example sequential_callers_are_spaced :
  exists w,
    RateLimiter.run [RateLimiter.Run 0; RateLimiter.Run 0; RateLimiter.Run 1;
                     RateLimiter.Tick 3; RateLimiter.Run 1; RateLimiter.Run 1]
                    (RateLimiter.start ["A"; "A"]) = Some w /\
    RateLimiter.dispatch_times "A" w = [0%Q; 3%Q] /\
    RateLimiter.spaced (RateLimiter.dispatch_times "A" w) = true.
Proof. eexists. split; [by vm_compute|]. split; by vm_compute. Qed.

(** C9. Three attempts on one network start together, each with a permit
    of the semaphore.  The first posts at time 0.  The second and the
    third both read the stamp 0 before either has written its own, both
    go to sleep until time 3, and both post at time 3: the check at
    lines 93-96 and the store at line 98 are separated by the suspension
    at line 97, and two consecutive dispatches to the network are 0
    seconds apart. *)
Theorem wait_for_rate_limit_not_atomic :
  (exists w,
     RateLimiter.run [RateLimiter.Run 0; RateLimiter.Run 1; RateLimiter.Run 2]
                     (RateLimiter.start ["A"; "A"; "A"]) = Some w /\
     map RateLimiter.t_pc (RateLimiter.tasks w)
     = [RateLimiter.Posting; RateLimiter.Sleeping 3; RateLimiter.Sleeping 3] /\
     RateLimiter.last_request_time w !! "A" = Some 0%Q) /\
  (exists w,
     RateLimiter.run RateLimiter.race_schedule (RateLimiter.start ["A"; "A"; "A"])
     = Some w /\
     RateLimiter.dispatch_times "A" w = [0%Q; 3%Q; 3%Q] /\
     RateLimiter.spaced (RateLimiter.dispatch_times "A" w) = false).
Proof.
  split; eexists; (split; [by vm_compute|]); split; by vm_compute.
Qed.

(** ** C10 *)

(** C10. On the empty address list [evm_checker] raises instead of
    returning an empty report: the chunk size (0 + 4) // 5 is 0, and
    [range] refuses the step 0 with [ValueError] before any chunk is
    cut. *)
Theorem evm_checker_empty_raises
    (networks : list (string * list string)) (E : Env) (st : State) :
  (length ([] : list string) + 4) / 5 = 0 /\
  wallet_chunks ([] : list string) = Raise ValueError /\
  evm_checker networks E [] st = (Raise ValueError, st).
Proof. split; [done|]. split; done. Qed.

(** * Further properties *)

(** ** Endpoint rotator *)

Section RotatorMore.

Variable networks : list (string * list string).

(** The state [get_next_rpc] leaves behind when it raises before the
    rotation: the cursor 0 is stored if there was none. *)
Lemma get_next_rpc_misconfigured n st :
  (assoc networks n = None ->
   get_next_rpc networks n st
   = (Raise KeyError,
      match current_rpc_index st !! n with Some _ => st | None => with_index st n 0 end)) /\
  (assoc networks n = Some [] ->
   get_next_rpc networks n st
   = (Raise ZeroDivisionError,
      match current_rpc_index st !! n with Some _ => st | None => with_index st n 0 end)).
Proof.
  split; intros Hconf;
    unfold get_next_rpc, bind, index_known, networks_get, get_index, set_index, ret, raise;
    rewrite Hconf; destruct (current_rpc_index st !! n) as [i|] eqn:Hi.
  - rewrite bool_decide_eq_true_2 by eauto. done.
  - rewrite bool_decide_eq_false_2 by (intros [? [=]]). done.
  - rewrite bool_decide_eq_true_2 by eauto. cbn. by rewrite Hi.
  - rewrite bool_decide_eq_false_2 by (intros [? [=]]). cbn.
    by rewrite lookup_insert_eq.
Qed.

Variable network : string.
Variable rpcs : list string.
Hypothesis Hconf : assoc networks network = Some rpcs.

(** One call, whether the cursor is stored or not yet. *)
Lemma get_next_rpc_default st r url :
  default 0 (current_rpc_index st !! network) = r ->
  rpcs !! r = Some url ->
  get_next_rpc networks network st
  = (Return url, with_index st network ((r + 1) mod length rpcs)).
Proof.
  intros Hr Hurl. destruct (current_rpc_index st !! network) as [i|] eqn:Hi; cbn in Hr; subst.
  - by apply get_next_rpc_at.
  - rewrite (get_next_rpc_fresh networks network rpcs Hconf st Hi).
    rewrite (get_next_rpc_at networks network rpcs Hconf _ 0 url); [|by cbn; rewrite lookup_insert_eq|done].
    unfold with_index. cbn. by rewrite insert_insert_eq.
Qed.

Lemma rotation_from st i :
  current_rpc_index st !! network = Some i -> i < length rpcs ->
  exists st', advance_n networks network (length rpcs) st
              = (Return (drop i rpcs ++ take i rpcs), st') /\
    current_rpc_index st' !! network = Some i.
Proof.
  intros Hi Hlt.
  assert (Hsplit : advance_n networks network (length rpcs) st
                   = advance_n networks network ((length rpcs - i) + i) st)
    by (f_equal; lia).
  rewrite Hsplit, advance_n_add.
  destruct (advance_n_from networks network rpcs Hconf (length rpcs - i) st i Hi Hlt ltac:(lia))
    as (st1 & -> & H1).
  replace (i + (length rpcs - i)) with (length rpcs) in H1 by lia.
  rewrite Nat.Div0.mod_same in H1.
  destruct (advance_n_from networks network rpcs Hconf i st1 0 H1 ltac:(lia) ltac:(lia))
    as (st2 & -> & H2).
  exists st2. split.
  - rewrite drop_0, (take_ge (drop i rpcs)) by (rewrite length_drop; lia). done.
  - rewrite H2. cbn. by rewrite Nat.mod_small.
Qed.

Hypothesis Hne : rpcs <> [].

(** Calls for this and for other networks, in any order: only the calls
    for [network] count. *)
Lemma cursor_after_calls calls :
  forall st, cursor_in_range rpcs network st ->
    exists st', interfere networks calls st = (Return tt, st') /\
      default 0 (current_rpc_index st' !! network)
      = (default 0 (current_rpc_index st !! network)
         + length (filter (fun c => c = network) calls)) mod length rpcs.
Proof.
  pose proof (rpcs_length rpcs Hne) as Hlen.
  assert (Hsmall : forall st, cursor_in_range rpcs network st ->
            default 0 (current_rpc_index st !! network) < length rpcs).
  { intros st Hinv. destruct (current_rpc_index st !! network) as [i|] eqn:Hi; cbn; [|done].
    by apply Hinv. }
  induction calls as [|n calls IH]; intros st Hinv.
  - exists st. cbn. rewrite Nat.add_0_r, Nat.mod_small by auto.
    done.
  - cbn [interfere]. unfold bind at 1, try_except, bind, ret.
    destruct (get_next_rpc networks n st) as [r st1] eqn:Heq.
    pose proof (get_next_rpc_keeps networks network rpcs Hconf Hne n st r st1 Hinv Heq) as Hinv1.
    destruct (IH st1 Hinv1) as (st' & Hrun & Hcur).
    exists st'. split; [by destruct r|].
    destruct (decide (n = network)) as [->|Hother].
    + rewrite filter_cons_True by done. cbn [length].
      destruct (lookup_lt_is_Some_2 rpcs _ (Hsmall st Hinv)) as [url Hurl].
      rewrite (get_next_rpc_default st _ url eq_refl Hurl) in Heq.
      injection Heq as <- <-.
      rewrite Hcur. cbn. rewrite lookup_insert_eq. cbn.
      rewrite Nat.Div0.add_mod_idemp_l. f_equal. lia.
    + rewrite filter_cons_False by done.
      destruct (get_next_rpc_frame networks n st r st1 Heq) as [Hframe _].
      by rewrite Hcur, Hframe.
Qed.

End RotatorMore.

(** X1. A call of [get_next_rpc] for one network, whether it returns or
    raises, leaves the cursor of every other network as it was and sends
    no request. *)
Theorem get_next_rpc_touches_own_cursor_only
    (networks : list (string * list string)) (n : string)
    (st : State) (r : result string) (st' : State) :
  get_next_rpc networks n st = (r, st') ->
  (forall k, k <> n -> current_rpc_index st' !! k = current_rpc_index st !! k) /\
  posted st' = posted st.
Proof. apply get_next_rpc_frame. Qed.

Lemma get_next_rpc_touches_own_cursor_only_witness :
  get_next_rpc Scenario.two_networks "A" initial_state
  = (Return "a0", with_index initial_state "A" 1) /\
  (forall k, k <> "A" ->
     current_rpc_index (with_index initial_state "A" 1) !! k
     = current_rpc_index initial_state !! k) /\
  posted (with_index initial_state "A" 1) = posted initial_state.
Proof.
  assert (Hrun : get_next_rpc Scenario.two_networks "A" initial_state
                 = (Return "a0", with_index initial_state "A" 1)) by reflexivity.
  split; [exact Hrun|].
  exact (get_next_rpc_touches_own_cursor_only Scenario.two_networks "A" initial_state
           (Return "a0") (with_index initial_state "A" 1) Hrun).
Defined.

(** X2. [get_next_rpc] raises [KeyError] for a network that is not
    configured and [ZeroDivisionError] for one whose endpoint list is
    empty; in both cases the cursor entry 0 of line 80 has already been
    stored when there was none, and nothing else has changed. *)
Theorem get_next_rpc_raises_when_misconfigured
    (networks : list (string * list string)) (n : string) (st : State) :
  (assoc networks n = None ->
   get_next_rpc networks n st
   = (Raise KeyError,
      match current_rpc_index st !! n with Some _ => st | None => with_index st n 0 end)) /\
  (assoc networks n = Some [] ->
   get_next_rpc networks n st
   = (Raise ZeroDivisionError,
      match current_rpc_index st !! n with Some _ => st | None => with_index st n 0 end)).
Proof. apply get_next_rpc_misconfigured. Qed.

Lemma get_next_rpc_raises_when_misconfigured_witness :
  get_next_rpc Scenario.one_empty "C" initial_state
  = (Raise KeyError, with_index initial_state "C" 0) /\
  get_next_rpc Scenario.one_empty "B" initial_state
  = (Raise ZeroDivisionError, with_index initial_state "B" 0).
Proof.
  split.
  - exact (proj1 (get_next_rpc_raises_when_misconfigured Scenario.one_empty "C"
                    initial_state) eq_refl).
  - exact (proj2 (get_next_rpc_raises_when_misconfigured Scenario.one_empty "B"
                    initial_state) eq_refl).
Defined.

(** X3. From a stored cursor [i] inside a list of N endpoints, N
    consecutive calls of [get_next_rpc] return the list rotated to start
    at position [i], and leave the cursor at [i] again. *)
Theorem get_next_rpc_full_round_from_any_cursor
    (networks : list (string * list string)) (network : string)
    (rpc_list : list string) (st : State) (i : nat) :
  assoc networks network = Some rpc_list ->
  current_rpc_index st !! network = Some i -> i < length rpc_list ->
  exists st', advance_n networks network (length rpc_list) st
              = (Return (drop i rpc_list ++ take i rpc_list), st') /\
    current_rpc_index st' !! network = Some i.
Proof. intros Hconf. by apply rotation_from. Qed.

Lemma get_next_rpc_full_round_from_any_cursor_witness :
  exists st', advance_n Sample.three_endpoints "A" 3 (with_index initial_state "A" 2)
              = (Return ["a2"; "a0"; "a1"], st') /\
    current_rpc_index st' !! "A" = Some 2.
Proof.
  assert (Hconf : assoc Sample.three_endpoints "A" = Some ["a0"; "a1"; "a2"]) by reflexivity.
  assert (Hcur : current_rpc_index (with_index initial_state "A" 2) !! "A" = Some 2)
    by apply lookup_insert_eq.
  assert (Hlt : 2 < length ["a0"; "a1"; "a2"]) by (cbn; lia).
  exact (get_next_rpc_full_round_from_any_cursor Sample.three_endpoints "A"
           ["a0"; "a1"; "a2"] (with_index initial_state "A" 2) 2 Hconf Hcur Hlt).
Defined.

(** X4. After any sequence of calls of [get_next_rpc], for this network
    and for others in any order (none of them raising into the caller),
    the cursor of a network with N endpoints has advanced by the number
    of calls made for that network, modulo N. *)
Theorem cursor_advances_by_own_calls
    (networks : list (string * list string)) (network : string)
    (rpc_list : list string) (calls : list string) (st : State) :
  assoc networks network = Some rpc_list -> rpc_list <> [] ->
  cursor_in_range rpc_list network st ->
  exists st', interfere networks calls st = (Return tt, st') /\
    default 0 (current_rpc_index st' !! network)
    = (default 0 (current_rpc_index st !! network)
       + length (filter (fun c => c = network) calls)) mod length rpc_list.
Proof. intros Hconf Hne. by apply cursor_after_calls. Qed.

Lemma cursor_advances_by_own_calls_witness :
  exists st', interfere Scenario.two_networks ["A"; "B"; "C"; "A"; "A"] initial_state
              = (Return tt, st') /\
    default 0 (current_rpc_index st' !! "A") = 1.
Proof.
  assert (Hconf : assoc Scenario.two_networks "A" = Some ["a0"; "a1"]) by reflexivity.
  assert (Hne : ["a0"; "a1"] <> ([] : list string)) by discriminate.
  assert (Hinv : cursor_in_range ["a0"; "a1"] "A" initial_state).
  { intros i Hi. cbn in Hi. rewrite lookup_empty in Hi. discriminate. }
  exact (cursor_advances_by_own_calls Scenario.two_networks "A" ["a0"; "a1"]
           ["A"; "B"; "C"; "A"; "A"] initial_state Hconf Hne Hinv).
Defined.

(** ** Balance fetcher *)

Section FetchMore.

Variable networks : list (string * list string).
Variable F : FetchEnv.
Variables address network : string.

(** The other tasks' calls never raise into this one and post nothing. *)
Lemma interfere_total calls :
  forall st, exists st', interfere networks calls st = (Return tt, st') /\
    posted st' = posted st.
Proof.
  intros st.
  destruct (interfere_keeps networks (fun _ => True) ltac:(done) calls st I)
    as (st' & Hrun & _ & Hp).
  by exists st'.
Qed.

Lemma handler_not_done e st amount st' :
  attempt_handler networks network e st <> (Return (Done amount), st').
Proof.
  unfold attempt_handler, bind, ret.
  by destruct (get_next_rpc networks network st) as [[?|?] ?].
Qed.

(** A pass that ends the loop was given a successful reply and returns
    the conversion of its "result". *)
Lemma attempt_done attempt rpc_url st amount st' :
  try_except (attempt_body networks F address network attempt rpc_url)
             (attempt_handler networks network) st = (Return (Done amount), st') ->
  exists response hex,
    respond F attempt rpc_url = Return response /\
    is_success (Return response) = true /\
    json response = Return (JsonResult hex) /\
    balance_of_hex hex = Return amount.
Proof.
  destruct (interfere_total (others F attempt) st) as (st1 & Hint & _).
  unfold try_except, attempt_body.
  unfold bind at 1. rewrite Hint. unfold bind at 1, post.
  destruct (respond F attempt rpc_url) as [response|e] eqn:Hresp;
    [|by intros ?%handler_not_done].
  destruct ((status_code response =? 429) || contains "rate limit" (lower (text response)))
    eqn:H429.
  { unfold bind at 1, ret.
    destruct (get_next_rpc networks network _) as [[url|e] st3]; [done|].
    by intros ?%handler_not_done. }
  destruct (status_code response =? 200) eqn:H200.
  2:{ unfold bind at 1, lift, ret. destruct (raise_for_status response) as [[]|e]; [done|].
      by intros ?%handler_not_done. }
  unfold bind at 1, lift at 1.
  destruct (json response) as [[error_text|hex| |]|e] eqn:Hjson;
    try (unfold raise; by intros ?%handler_not_done).
  - destruct (contains "rate" (lower error_text)).
    + unfold bind at 1, ret.
      destruct (get_next_rpc networks network _) as [[url|e] st3]; [done|].
      by intros ?%handler_not_done.
    + unfold raise. by intros ?%handler_not_done.
  - unfold bind at 1, lift, ret.
    destruct (balance_of_hex hex) as [amount'|e] eqn:Hhex.
    + intros [= <- <-]. exists response, hex. split; [done|]. split; [|done].
      unfold is_success. by rewrite H429, H200, Hjson, Hhex.
    + by intros ?%handler_not_done.
Qed.


Variable rpcs : list string.
Hypothesis Hconf : assoc networks network = Some rpcs.

Lemma get_next_rpc_elem st url st' :
  get_next_rpc networks network st = (Return url, st') -> url ∈ rpcs.
Proof.
  unfold get_next_rpc, bind, index_known, networks_get, get_index, set_index, ret, raise.
  rewrite Hconf.
  repeat case_match; simplify_eq/=; intros; simplify_eq/=;
    by eapply list_elem_of_lookup_2.
Qed.

(** A successful first reply. *)
Lemma first_reply_success u0 st :
  rpcs !! 0 = Some u0 ->
  is_success (respond F 0 u0) = true ->
  exists response hex amount st1,
    respond F 0 u0 = Return response /\
    json response = Return (JsonResult hex) /\
    balance_of_hex hex = Return amount /\
    interfere networks (others F 0) st = (Return tt, st1) /\
    get_balance_for_network networks F address network st
    = (Return amount,
       {| current_rpc_index := current_rpc_index st1;
          posted := posted st ++ [(network, address, u0)] |}).
Proof.
  intros Hu0 Hok.
  destruct (interfere_total (others F 0) st) as (st1 & Hint & Hp1).
  destruct (attempt_outcome networks F address network 0 u0 st st1 Hint)
    as [[_ [amount Hrun]]|[Hno _]]; [|by rewrite Hok in Hno].
  destruct (attempt_done _ _ _ _ _ Hrun) as (response & hex & Hresp & _ & Hjson & Hhex).
  exists response, hex, amount, st1. repeat split; try done.
  unfold get_balance_for_network, bind at 1, networks_get. rewrite Hconf. cbn [ret].
  rewrite Hu0. destruct rpcs as [|u rest] eqn:Hr; [done|]. cbn [length fetch_loop].
  unfold bind. rewrite Hrun. by rewrite Hp1.
Qed.

Hypothesis Hne : rpcs <> [].

(** Every request of a fetch carries its network and address and goes to
    an endpoint of that network. *)
Lemma fetch_loop_requests (retries : nat) :
  forall attempt rpc_url st r st',
    cursor_in_range rpcs network st -> rpc_url ∈ rpcs ->
    fetch_loop networks F address network retries attempt rpc_url st = (r, st') ->
    exists reqs, posted st' = posted st ++ reqs /\
      Forall (fun q => q.1 = (network, address) /\ q.2 ∈ rpcs) reqs.
Proof.
  induction retries as [|retries IH]; intros attempt rpc_url st r st' Hinv Hurl.
  - cbn. intros [= <- <-]. exists []. by rewrite app_nil_r.
  - cbn [fetch_loop]. unfold bind.
    destruct (interfere_keeps networks (cursor_in_range rpcs network)
                (get_next_rpc_keeps networks network rpcs Hconf Hne)
                (others F attempt) st Hinv) as (st1 & Hint & Hinv1 & Hp1).
    set (st2 := {| current_rpc_index := current_rpc_index st1;
                   posted := posted st1 ++ [(network, address, rpc_url)] |}).
    assert (Hinv2 : cursor_in_range rpcs network st2) by (intros i; apply Hinv1).
    assert (Hone : Forall (fun q : string * string * string =>
                             q.1 = (network, address) /\ q.2 ∈ rpcs)
                          [(network, address, rpc_url)]) by (by constructor).
    destruct (attempt_outcome networks F address network attempt rpc_url st st1 Hint)
      as [[_ [amount ->]]|[_ [->|[(url & st3 & Hnext & ->)|(e & st3 & Hraise)]]]].
    + intros [= <- <-]. exists [(network, address, rpc_url)]. cbn. by rewrite Hp1.
    + intros (reqs & Hp & Hall)%IH; [|done|done].
      exists ((network, address, rpc_url) :: reqs). split.
      * rewrite Hp. cbn. by rewrite Hp1, <- app_assoc.
      * by apply Forall_cons.
    + fold st2 in Hnext.
      pose proof (get_next_rpc_keeps networks network rpcs Hconf Hne _ _ _ _ Hinv2 Hnext).
      destruct (get_next_rpc_frame networks network st2 _ st3 Hnext) as [_ Hp3].
      intros (reqs & Hp & Hall)%IH; [|done|by eapply get_next_rpc_elem].
      exists ((network, address, rpc_url) :: reqs). split.
      * rewrite Hp, Hp3. cbn. by rewrite Hp1, <- app_assoc.
      * by apply Forall_cons.
    + fold st2 in Hraise.
      destruct (get_next_rpc_returns networks network rpcs Hconf Hne st2 Hinv2)
        as (url & st4 & Hret). congruence.
Qed.

(** The first fetch on a network: while nobody else rotates its cursor,
    the cursor runs at most one step ahead of the attempts and the
    endpoint in use one step behind the cursor. *)
Hypothesis Halone : forall attempt, network ∉ others F attempt.
Hypothesis Htwo : 2 <= length rpcs.

Lemma fetch_loop_lags (retries : nat) :
  forall attempt rpc_url st r st' iu,
    attempt + retries = length rpcs ->
    default 0 (current_rpc_index st !! network) <= attempt ->
    rpcs !! iu = Some rpc_url ->
    iu + 1 <= Nat.max (default 0 (current_rpc_index st !! network)) 1 ->
    fetch_loop networks F address network retries attempt rpc_url st = (r, st') ->
    exists reqs, posted st' = posted st ++ reqs /\
      Forall (fun q => exists i, i + 2 <= length rpcs /\ rpcs !! i = Some q.2) reqs.
Proof.
  induction retries as [|retries IH]; intros attempt rpc_url st r st' iu Hbudget Hcur Hiu Hlag.
  - cbn. intros [= <- <-]. exists []. by rewrite app_nil_r.
  - cbn [fetch_loop]. unfold bind.
    destruct (interfere_frame networks network (others F attempt) st (Halone attempt))
      as (st1 & Hint & Hc1 & Hp1).
    set (st2 := {| current_rpc_index := current_rpc_index st1;
                   posted := posted st1 ++ [(network, address, rpc_url)] |}).
    set (c := default 0 (current_rpc_index st !! network)) in *.
    assert (Hc2 : default 0 (current_rpc_index st2 !! network) = c)
      by (cbn; by rewrite Hc1).
    assert (Hhead : exists i, i + 2 <= length rpcs /\ rpcs !! i = Some rpc_url).
    { exists iu. split; [lia|done]. }
    destruct (attempt_outcome networks F address network attempt rpc_url st st1 Hint)
      as [[_ [amount ->]]|[_ [->|[(url & st3 & Hnext & ->)|(e & st3 & Hraise)]]]].
    + intros [= <- <-]. exists [(network, address, rpc_url)]. cbn.
      split; [by rewrite Hp1|by constructor].
    + intros Hrun.
      destruct (IH (S attempt) rpc_url st2 r st' iu) as (reqs & Hp & Hall);
        [lia | rewrite Hc2; lia | done | rewrite Hc2; lia | done |].
      exists ((network, address, rpc_url) :: reqs). split.
      * rewrite Hp. cbn. by rewrite Hp1, <- app_assoc.
      * by constructor.
    + fold st2 in Hnext.
      destruct (lookup_lt_is_Some_2 rpcs c ltac:(lia)) as [uc Huc].
      rewrite (get_next_rpc_default networks network rpcs Hconf st2 c uc Hc2 Huc) in Hnext.
      injection Hnext as <- <-.
      destruct retries as [|retries'].
      { cbn. intros [= <- <-]. exists [(network, address, rpc_url)]. cbn.
        split; [by rewrite Hp1|by constructor]. }
      assert (Hmod : (c + 1) mod length rpcs = c + 1) by (apply Nat.mod_small; lia).
      assert (Hc3 : default 0 (current_rpc_index
                                 (with_index st2 network ((c + 1) mod length rpcs))
                               !! network) = c + 1)
        by (cbn; by rewrite lookup_insert_eq, Hmod).
      intros Hrun.
      destruct (IH (S attempt) uc (with_index st2 network ((c + 1) mod length rpcs))
                  r st' c) as (reqs & Hp & Hall);
        [lia | rewrite Hc3; lia | done | rewrite Hc3; lia | exact Hrun |].
      exists ((network, address, rpc_url) :: reqs). split.
      * rewrite Hp. cbn. by rewrite Hp1, <- app_assoc.
      * by constructor.
    + fold st2 in Hraise.
      destruct (lookup_lt_is_Some_2 rpcs c ltac:(lia)) as [uc Huc].
      rewrite (get_next_rpc_default networks network rpcs Hconf st2 c uc Hc2 Huc) in Hraise.
      done.
Qed.

End FetchMore.

Section FetchWhole.

Variable networks : list (string * list string).
Variable F : FetchEnv.
Variables address network : string.
Variable rpcs : list string.
Hypothesis Hconf : assoc networks network = Some rpcs.

Lemma get_balance_for_network_unfold st :
  get_balance_for_network networks F address network st
  = match rpcs !! 0 with
    | Some rpc_url => fetch_loop networks F address network (length rpcs) 0 rpc_url st
    | None => (Raise IndexError, st)
    end.
Proof.
  unfold get_balance_for_network, bind, networks_get. rewrite Hconf. cbn [ret].
  by destruct (rpcs !! 0).
Qed.

Lemma get_balance_for_network_requests st r st' :
  cursor_in_range rpcs network st ->
  get_balance_for_network networks F address network st = (r, st') ->
  exists reqs, posted st' = posted st ++ reqs /\
    Forall (fun q => q.1 = (network, address) /\ q.2 ∈ rpcs) reqs.
Proof.
  intros Hinv. rewrite get_balance_for_network_unfold.
  destruct (rpcs !! 0) as [u0|] eqn:Hu0.
  - apply (fetch_loop_requests networks F address network rpcs Hconf); [|done|].
    + intros ->. done.
    + by eapply list_elem_of_lookup_2.
  - intros [= <- <-]. exists []. by rewrite app_nil_r.
Qed.

Lemma get_balance_for_network_lags st r st' :
  2 <= length rpcs -> (forall attempt, network ∉ others F attempt) ->
  default 0 (current_rpc_index st !! network) = 0 ->
  get_balance_for_network networks F address network st = (r, st') ->
  exists reqs, posted st' = posted st ++ reqs /\
    Forall (fun q => exists i, i + 2 <= length rpcs /\ rpcs !! i = Some q.2) reqs.
Proof.
  intros Htwo Halone Hcur. rewrite get_balance_for_network_unfold.
  destruct (rpcs !! 0) as [u0|] eqn:Hu0.
  - apply (fetch_loop_lags networks F address network rpcs Hconf Halone Htwo _ _ _ _ _ _ 0);
      [done|lia|done|lia].
  - intros [= <- <-]. exists []. by rewrite app_nil_r.
Qed.


End FetchWhole.

(** X5. When the first reply of a fetch is a success, the fetch returns
    the converted balance of that reply after exactly one request, sent
    to the first endpoint of the list, wherever the rotation cursor of
    the network stands; the cursor is moved only by the other tasks. *)
Theorem fetch_starts_at_first_endpoint
    (networks : list (string * list string)) (F : FetchEnv)
    (address network : string) (rpc_list : list string) (u0 : string) (st : State) :
  assoc networks network = Some rpc_list ->
  rpc_list !! 0 = Some u0 ->
  is_success (respond F 0 u0) = true ->
  exists response hex amount st1,
    respond F 0 u0 = Return response /\
    json response = Return (JsonResult hex) /\
    balance_of_hex hex = Return amount /\
    interfere networks (others F 0) st = (Return tt, st1) /\
    get_balance_for_network networks F address network st
    = (Return amount,
       {| current_rpc_index := current_rpc_index st1;
          posted := posted st ++ [(network, address, u0)] |}).
Proof. intros Hconf. by apply first_reply_success. Qed.

Lemma fetch_starts_at_first_endpoint_witness :
  exists response hex amount st1,
    respond Sample.healthy 0 "a0" = Return response /\
    json response = Return (JsonResult hex) /\
    balance_of_hex hex = Return amount /\
    interfere Sample.three_endpoints ["A"; "B"] (with_index initial_state "A" 2)
    = (Return tt, st1) /\
    get_balance_for_network Sample.three_endpoints Sample.healthy "w1" "A"
                            (with_index initial_state "A" 2)
    = (Return amount,
       {| current_rpc_index := current_rpc_index st1;
          posted := [("A", "w1", "a0")] |}).
Proof.
  assert (Hconf : assoc Sample.three_endpoints "A" = Some ["a0"; "a1"; "a2"]) by reflexivity.
  assert (Hu0 : ["a0"; "a1"; "a2"] !! 0 = Some "a0") by reflexivity.
  assert (Hok : is_success (respond Sample.healthy 0 "a0") = true) by reflexivity.
  exact (fetch_starts_at_first_endpoint Sample.three_endpoints Sample.healthy "w1" "A"
           ["a0"; "a1"; "a2"] "a0" (with_index initial_state "A" 2) Hconf Hu0 Hok).
Defined.

(** X6. Every request that a fetch sends, whether the fetch returns or
    raises, names the network and the address of that fetch and goes to
    an endpoint configured for that network. *)
Theorem fetch_requests_stay_on_own_network
    (networks : list (string * list string)) (F : FetchEnv)
    (address network : string) (rpc_list : list string)
    (st : State) (r : result Decimal) (st' : State) :
  assoc networks network = Some rpc_list ->
  cursor_in_range rpc_list network st ->
  get_balance_for_network networks F address network st = (r, st') ->
  exists requests, posted st' = posted st ++ requests /\
    Forall (fun q => q.1 = (network, address) /\ q.2 ∈ rpc_list) requests.
Proof. intros Hconf. by apply get_balance_for_network_requests. Qed.

Lemma fetch_requests_stay_on_own_network_witness :
  exists r st' requests,
    get_balance_for_network Scenario.two_networks Scenario.all_limited "w1" "B"
                            initial_state = (r, st') /\
    posted st' = requests /\
    Forall (fun q => q.1 = ("B", "w1") /\ q.2 ∈ ["b0"; "b1"]) requests.
Proof.
  assert (Hconf : assoc Scenario.two_networks "B" = Some ["b0"; "b1"]) by reflexivity.
  assert (Hinv : cursor_in_range ["b0"; "b1"] "B" initial_state).
  { intros i Hi. cbn in Hi. rewrite lookup_empty in Hi. discriminate. }
  destruct (get_balance_for_network Scenario.two_networks Scenario.all_limited "w1" "B"
              initial_state) as [r st'] eqn:Hrun.
  destruct (fetch_requests_stay_on_own_network Scenario.two_networks Scenario.all_limited
              "w1" "B" ["b0"; "b1"] initial_state r st' Hconf Hinv Hrun)
    as (requests & Hposted & Hall).
  exists r, st', requests. split; [reflexivity|]. split; [exact Hposted|exact Hall].
Defined.

(** X7. The first fetch on a network with N >= 2 endpoints (cursor
    absent or at 0), while no other task rotates that network's
    cursor, never sends a request to the endpoint at position N-1: the
    endpoint in use stays one step behind the cursor, and the retry
    budget of N is used up first.  When the endpoints are pairwise
    different, no request goes to the last endpoint of the list. *)
Theorem first_fetch_never_reaches_last_endpoint
    (networks : list (string * list string)) (F : FetchEnv)
    (address network : string) (rpc_list : list string)
    (st : State) (r : result Decimal) (st' : State) :
  assoc networks network = Some rpc_list ->
  2 <= length rpc_list ->
  (forall attempt, network ∉ others F attempt) ->
  default 0 (current_rpc_index st !! network) = 0 ->
  get_balance_for_network networks F address network st = (r, st') ->
  exists requests, posted st' = posted st ++ requests /\
    Forall (fun q => exists i, i + 2 <= length rpc_list /\ rpc_list !! i = Some q.2)
           requests /\
    (NoDup rpc_list -> Forall (fun q => last rpc_list <> Some q.2) requests).
Proof.
  intros Hconf Htwo Halone Hcur Hrun.
  destruct (get_balance_for_network_lags networks F address network rpc_list Hconf
              st r st' Htwo Halone Hcur Hrun) as (requests & Hposted & Hall).
  exists requests. split; [done|]. split; [done|].
  intros Hnodup. eapply Forall_impl; [exact Hall|].
  intros q (i & Hi & Hq) Hlast. rewrite last_lookup in Hlast.
  pose proof (NoDup_lookup _ _ _ _ Hnodup Hq Hlast). lia.
Qed.

Lemma first_fetch_never_reaches_last_endpoint_witness :
  exists st',
    get_balance_for_network Sample.three_endpoints Sample.limited_alone "w1" "A"
                            initial_state = (Return Decimal_zero, st') /\
    posted st' = [("A", "w1", "a0"); ("A", "w1", "a0"); ("A", "w1", "a1")] /\
    Forall (fun q => last ["a0"; "a1"; "a2"] <> Some q.2) (posted st').
Proof.
  assert (Hconf : assoc Sample.three_endpoints "A" = Some ["a0"; "a1"; "a2"]) by reflexivity.
  assert (Htwo : 2 <= length ["a0"; "a1"; "a2"]) by (cbn; lia).
  assert (Halone : forall attempt : nat, "A" ∉ others Sample.limited_alone attempt).
  { intros attempt. cbn. apply not_elem_of_nil. }
  assert (Hcur : default 0 (current_rpc_index initial_state !! "A") = 0) by reflexivity.
  assert (Hnodup : NoDup ["a0"; "a1"; "a2"]).
  { apply (bool_decide_unpack _). vm_compute. exact I. }
  destruct (get_balance_for_network Sample.three_endpoints Sample.limited_alone "w1" "A"
              initial_state) as [r st'] eqn:Hrun.
  destruct (first_fetch_never_reaches_last_endpoint Sample.three_endpoints
              Sample.limited_alone "w1" "A" ["a0"; "a1"; "a2"] initial_state r st'
              Hconf Htwo Halone Hcur Hrun) as (requests & Hposted & _ & Hlast).
  cbn [posted initial_state app] in Hposted. rewrite <- Hposted in Hlast.
  pose proof Hrun as Hval. vm_compute in Hval. injection Hval as <- <-.
  eexists. split; [reflexivity|]. split; [reflexivity|].
  exact (Hlast Hnodup).
Defined.



(** X9. A fetch for a network that is not configured raises [KeyError],
    and one for a network whose endpoint list is empty raises
    [IndexError] (line 105); in both cases no request has been sent and
    no cursor has moved. *)
Theorem fetch_raises_without_endpoints
    (networks : list (string * list string)) (F : FetchEnv)
    (address network : string) (st : State) :
  (assoc networks network = None ->
   get_balance_for_network networks F address network st = (Raise KeyError, st)) /\
  (assoc networks network = Some [] ->
   get_balance_for_network networks F address network st = (Raise IndexError, st)).
Proof.
  split; intros Hconf; unfold get_balance_for_network, bind, networks_get;
    by rewrite Hconf.
Qed.

Lemma fetch_raises_without_endpoints_witness :
  get_balance_for_network Scenario.one_empty Sample.healthy "w1" "C" initial_state
  = (Raise KeyError, initial_state) /\
  get_balance_for_network Scenario.one_empty Sample.healthy "w1" "B" initial_state
  = (Raise IndexError, initial_state).
Proof.
  split.
  - exact (proj1 (fetch_raises_without_endpoints Scenario.one_empty Sample.healthy
                    "w1" "C" initial_state) eq_refl).
  - exact (proj2 (fetch_raises_without_endpoints Scenario.one_empty Sample.healthy
                    "w1" "B" initial_state) eq_refl).
Defined.

(** ** [asyncio.gather], wallet resolver and batch scheduler *)

(** A task that raises from every state makes [gather] raise. *)
Lemma gather_raises {A} choices (tasks : list (M A)) i t st :
  tasks !! i = Some t ->
  (forall st0, exists e st1, t st0 = (Raise e, st1)) ->
  exists e st', gather choices tasks st = (Raise e, st').
Proof.
  intros Hi Hraise. unfold gather.
  destruct (gather_run _ _ _ _ _) as [finished st1] eqn:Hrun.
  apply (gather_run_spec (fun _ => True)) in Hrun as (_ & new & -> & Hperm & Hall);
    [|by rewrite length_imap|done|done].
  cbn [app]. destruct (first_raise new) as [e|] eqn:Hfirst; [eauto|].
  exfalso. apply first_raise_None in Hfirst.
  rewrite pending_indices in Hperm.
  assert (Hin : i ∈ map fst new).
  { rewrite Hperm. apply elem_of_seq. split; [lia|].
    exact (lookup_lt_Some _ _ _ Hi). }
  apply list_elem_of_fmap in Hin as ([j r] & -> & Hjr).
  rewrite Forall_forall in Hfirst, Hall.
  destruct (Hfirst _ Hjr) as [a Ha].
  destruct (Hall _ Hjr) as (t' & st0 & st2 & Hin' & _ & Ht').
  apply pending_lookup in Hin'. cbn in *. simplify_eq.
  destruct (Hraise st0) as (e & st3 & He).
  assert (Some t' = Some t) as [= ->] by exact (eq_trans (eq_sym Hin') Hi).
  by rewrite He in Ht'.
Qed.

Section BatchMore.

Variable networks : list (string * list string).
Variable E : Env.

(** A chunk is processed wallet by wallet: cutting it in two changes
    nothing but the bookkeeping of positions. *)
Lemma process_wallet_chunk_app chunk1 :
  forall chunk2 pos st,
    process_wallet_chunk networks E pos (chunk1 ++ chunk2) st
    = (let! first := process_wallet_chunk networks E pos chunk1 in
       let! second := process_wallet_chunk networks E (pos + length chunk1) chunk2 in
       ret (first ++ second)) st.
Proof.
  induction chunk1 as [|wallet rest IH]; intros chunk2 pos st.
  - cbn. rewrite Nat.add_0_r. unfold bind, ret.
    by destruct (process_wallet_chunk networks E pos chunk2 st) as [[?|?] ?].
  - cbn [app process_wallet_chunk length]. unfold bind, ret.
    destruct (process_wallet networks E pos wallet st) as [[wb|e] st1]; [|done].
    rewrite IH. unfold bind, ret.
    destruct (process_wallet_chunk networks E (S pos) rest st1) as [[wbs|e] st2]; [|done].
    replace (pos + S (length rest)) with (S pos + length rest) by lia.
    by destruct (process_wallet_chunk networks E (S pos + length rest) chunk2 st2)
      as [[?|?] ?].
Qed.

(** A network without endpoints. *)
Lemma fetch_without_endpoints F address n st :
  assoc networks n = Some [] ->
  get_balance_for_network networks F address n st = (Raise IndexError, st).
Proof.
  intros Hconf. unfold get_balance_for_network, bind, networks_get. by rewrite Hconf.
Qed.

Lemma wallet_body_without_endpoints n pos wallet st :
  assoc networks n = Some [] ->
  exists e st', wallet_body networks E pos wallet st = (Raise e, st').
Proof.
  intros Hconf.
  assert (Hin : exists i x, networks !! i = Some (n, x)).
  { clear -Hconf. induction networks as [|[k v] l IH]; cbn in Hconf; [done|].
    destruct (decide (k = n)) as [->|]; [by exists 0, v|].
    destruct (IH Hconf) as (i & x & Hi). by exists (S i), x. }
  destruct Hin as (i & x & Hi).
  unfold wallet_body, bind.
  edestruct (gather_raises (fetch_order E pos)
               (map (fun n0 => get_balance_for_network networks
                        (fetch_env E pos n0.1) (strip wallet) n0.1) networks) i)
    as (e & st' & Hg).
  - rewrite list_lookup_fmap, Hi. done.
  - intros st0. cbn. rewrite fetch_without_endpoints by done. eauto.
  - rewrite Hg. eauto.
Qed.

Lemma report_without_endpoints n input st :
  assoc networks n = Some [] -> input <> [] ->
  exists report st', evm_checker networks E input st = (Return report, st') /\
    Forall2 (fun wb w => address wb = w /\ single_error_entry wb) (wallets report) input.
Proof.
  intros Hconf Hne.
  destruct (evm_checker_spec networks E (fun _ => True)
              (fun w wb => address wb = w /\ single_error_entry wb)) with
    (input := input) (st := st) as (report & st' & Hrun & _ & Hall); [|done|done|by eauto].
  intros pos wallet st0 _.
  destruct (wallet_body_without_endpoints n pos wallet st0 Hconf) as (e & st1 & Hbody).
  eexists _, st1. split.
  - unfold process_wallet, try_except. rewrite Hbody. reflexivity.
  - split; [done|]. split; [done|]. by exists e.
Qed.

End BatchMore.

(** ** How many requests a run can make *)

Lemma sum_list_with_ext_in {A} (f g : A -> nat) (l : list A) :
  (forall x, x ∈ l -> f x = g x) -> sum_list_with f l = sum_list_with g l.
Proof.
  induction l as [|x l IH]; intros Hfg; cbn; [done|].
  rewrite Hfg by (by left). f_equal. apply IH. intros y Hy. apply Hfg. by right.
Qed.

Lemma sum_list_with_fst {B} (cost : nat -> nat) (l : list (nat * B)) :
  sum_list_with (fun p => cost p.1) l = sum_list_with cost (map fst l).
Proof. induction l as [|[i b] l IH]; cbn; [done|]. by rewrite IH. Qed.

Lemma sum_list_with_lookup {A} (h : option A -> nat) (l : list A) :
  sum_list_with (fun i => h (l !! i)) (seq 0 (length l))
  = sum_list_with (fun x => h (Some x)) l.
Proof.
  induction l as [|x l IH] using rev_ind; [done|].
  rewrite length_app. cbn [length]. rewrite Nat.add_1_r, seq_S, !sum_list_with_app.
  cbn. rewrite <- IH. f_equal.
  - apply sum_list_with_ext_in. intros i [_ Hi]%elem_of_seq.
    by rewrite lookup_app_l by lia.
  - rewrite lookup_app_r by lia. by rewrite Nat.sub_diag.
Qed.

Lemma sum_chunk_lengths {A} (B : nat) (chunks : list (nat * list A)) :
  sum_list_with (fun c => length (default [] (snd <$> Some c)) * B) chunks
  = length (concat (map snd chunks)) * B.
Proof.
  induction chunks as [|c cs IH]; [done|].
  cbn [sum_list_with map concat]. rewrite length_app, IH. cbn. lia.
Qed.

Section GatherCost.

Context {A : Type}.
Variable I : State -> Prop.
Variable cost : nat -> nat.

Lemma gather_run_cost (fuel : nat) :
  forall (pending : list (nat * M A)) choices finished st finished' st',
    length pending = fuel ->
    (forall i t st0 r st1, (i, t) ∈ pending -> I st0 -> t st0 = (r, st1) ->
       I st1 /\ length (posted st1) <= length (posted st0) + cost i) ->
    I st ->
    gather_run fuel pending choices finished st = (finished', st') ->
    length (posted st') <= length (posted st) + sum_list_with (fun p => cost p.1) pending.
Proof.
  induction fuel as [|fuel IH];
    intros pending choices finished st finished' st' Hlen Hcost Hinv Hrun.
  - cbn in Hrun. simplify_eq. lia.
  - cbn [gather_run] in Hrun.
    set (k := hd 0 choices mod length pending) in *.
    assert (Hk : k < length pending) by (apply Nat.mod_upper_bound; lia).
    match type of Hrun with
    | context [match ?x with _ => _ end] => destruct x as [[i task]|] eqn:Hlook
    end; [|apply lookup_ge_None in Hlook; exfalso;
           exact (proj1 (Nat.lt_nge _ _) Hk Hlook)].
    destruct (task st) as [r st1] eqn:Htask.
    pose proof (delete_Permutation pending k _ Hlook) as Hdel.
    assert (Hsub : forall x, x ∈ delete k pending -> x ∈ pending).
    { intros x Hx. eapply elem_of_Permutation_proper; [exact Hdel|]. by right. }
    assert (Hhere : (i, task) ∈ pending) by (by eapply list_elem_of_lookup_2).
    destruct (Hcost i task st r st1 Hhere Hinv Htask) as [Hinv1 Hc1].
    apply IH in Hrun.
    + assert (Hsum : sum_list_with (fun p : nat * M A => cost p.1) pending
                     = cost i + sum_list_with (fun p : nat * M A => cost p.1) (delete k pending)).
      { etrans; [exact (sum_list_with_Permutation_proper _ _ _ Hdel)|done]. }
      lia.
    + rewrite length_delete by eauto. lia.
    + intros j t st0 r0 st2 Hin. apply (Hcost j). by apply Hsub.
    + done.
Qed.

Lemma gather_cost choices (tasks : list (M A)) st r st' :
  (forall i t st0 r st1, tasks !! i = Some t -> I st0 -> t st0 = (r, st1) ->
     I st1 /\ length (posted st1) <= length (posted st0) + cost i) ->
  I st ->
  gather choices tasks st = (r, st') ->
  length (posted st') <= length (posted st) + sum_list_with cost (seq 0 (length tasks)).
Proof.
  intros Hcost Hinv. unfold gather.
  destruct (gather_run _ _ _ _ _) as [finished st1] eqn:Hrun.
  apply gather_run_cost in Hrun; [|by rewrite length_imap| |done].
  - rewrite sum_list_with_fst, pending_indices in Hrun.
    destruct (first_raise finished); by intros [= <- <-].
  - intros i t st0 r0 st2 Hin. apply (Hcost i). by apply pending_lookup.
Qed.

End GatherCost.

Section RequestBound.

Variable networks : list (string * list string).
Variable E : Env.
Hypothesis Hnets : endpoints_nonempty networks.
Hypothesis Hnodup : NoDup (map fst networks).

Lemma assoc_NoDup n : n ∈ networks -> assoc networks n.1 = Some n.2.
Proof.
  clear Hnets. induction networks as [|[k v] l IH]; [by intros ?%elem_of_nil|].
  apply NoDup_cons in Hnodup as [Hk Hl].
  intros [->|Hin]%elem_of_cons; cbn.
  - by rewrite decide_True.
  - rewrite decide_False; [by apply IH|].
    intros ->. apply Hk. by apply (list_elem_of_fmap_2 fst) in Hin.
Qed.

Lemma wallet_body_cost pos wallet st r st' :
  cursors_in_range networks st ->
  wallet_body networks E pos wallet st = (r, st') ->
  cursors_in_range networks st' /\
  length (posted st') <= length (posted st) + retry_budget networks.
Proof.
  intros Hinv. unfold wallet_body, bind, ret.
  set (tasks := map _ networks).
  destruct (gather _ tasks st) as [r0 st0] eqn:Hg.
  assert (Hfetch : forall i t st1 r1 st2, tasks !! i = Some t ->
            cursors_in_range networks st1 -> t st1 = (r1, st2) ->
            cursors_in_range networks st2 /\
            length (posted st2)
            <= length (posted st1) + length (default [] (snd <$> networks !! i))).
  { intros i t st1 r1 st2 Ht H1 Hrun. unfold tasks in Ht.
    rewrite list_lookup_fmap in Ht.
    destruct (networks !! i) as [n|] eqn:Hn; [|done]. cbn in Ht. injection Ht as <-.
    pose proof (assoc_NoDup n (list_elem_of_lookup_2 _ _ _ Hn)) as Hconf.
    destruct (get_balance_for_network_spec networks (cursors_in_range networks)
                (cursors_next networks Hnets) ltac:(done) n.1 n.2 Hconf
                (assoc_nonempty networks Hnets _ _ Hconf)
                ltac:(intros st3 H3; by apply H3)
                (fetch_env E pos n.1) (strip wallet) st1 H1)
      as (amount & st3 & reqs & Hrun' & H3 & Hp & Hlen & _).
    rewrite Hrun in Hrun'. injection Hrun' as -> ->.
    split; [done|]. rewrite Hp, length_app. cbn. lia. }
  pose proof (gather_cost (cursors_in_range networks)
                (fun i => length (default [] (snd <$> networks !! i)))
                (fetch_order E pos) tasks st r0 st0 Hfetch Hinv Hg) as Hcost.
  assert (Hkeep : cursors_in_range networks st0).
  { eapply (gather_keeps (cursors_in_range networks) tasks); [|exact Hinv|exact Hg].
    intros i t st1 r1 st2 Ht H1 Hrun. by destruct (Hfetch i t st1 r1 st2 Ht H1 Hrun). }
  assert (Hsum : sum_list_with (fun i => length (default [] (snd <$> networks !! i)))
                               (seq 0 (length tasks)) = retry_budget networks).
  { unfold tasks. rewrite length_map.
    exact (sum_list_with_lookup (fun o => length (default [] (snd <$> o))) networks). }
  rewrite Hsum in Hcost.
  destruct r0; intros [= <- <-]; done.
Qed.

Lemma process_wallet_chunk_cost chunk :
  forall pos st r st',
    cursors_in_range networks st ->
    process_wallet_chunk networks E pos chunk st = (r, st') ->
    cursors_in_range networks st' /\
    length (posted st') <= length (posted st) + length chunk * retry_budget networks.
Proof.
  induction chunk as [|wallet rest IH]; intros pos st r st' Hinv.
  - cbn. intros [= <- <-]. split; [done|lia].
  - cbn [process_wallet_chunk length]. unfold bind, ret, process_wallet, try_except.
    destruct (wallet_body networks E pos wallet st) as [rb st1] eqn:Hbody.
    destruct (wallet_body_cost _ _ _ _ _ Hinv Hbody) as [Hinv1 Hc1].
    assert (Hrest : forall r2 st2,
              process_wallet_chunk networks E (S pos) rest st1 = (r2, st2) ->
              cursors_in_range networks st2 /\
              length (posted st2)
              <= length (posted st) + S (length rest) * retry_budget networks).
    { intros r2 st2 Hrun. destruct (IH _ _ _ _ Hinv1 Hrun) as [H2 Hc2]. split; [done|lia]. }
    destruct rb as [wb|e]; cbn;
      destruct (process_wallet_chunk networks E (S pos) rest st1) as [[wbs|e'] st2] eqn:Hrun;
      intros [= <- <-]; by apply (Hrest _ _ eq_refl).
Qed.

Lemma evm_checker_cost input st r st' :
  cursors_in_range networks st ->
  evm_checker networks E input st = (r, st') ->
  length (posted st') <= length (posted st) + length input * retry_budget networks.
Proof.
  intros Hinv. unfold evm_checker, bind at 1, lift.
  destruct (wallet_chunks input) as [chunks|e] eqn:Hchunks; [|intros [= <- <-]; lia].
  pose proof (wallet_chunks_concat input _ Hchunks) as Hconcat.
  unfold bind, ret.
  set (tasks := map (fun c : nat * list string => process_wallet_chunk networks E c.1 c.2) chunks).
  destruct (gather (chunk_order E) tasks st) as [r0 st0] eqn:Hg.
  assert (Hchunk : forall i t st1 r1 st2, tasks !! i = Some t ->
            cursors_in_range networks st1 -> t st1 = (r1, st2) ->
            cursors_in_range networks st2 /\
            length (posted st2)
            <= length (posted st1)
               + length (default [] (snd <$> chunks !! i)) * retry_budget networks).
  { intros i t st1 r1 st2 Ht H1 Hrun. unfold tasks in Ht.
    rewrite list_lookup_fmap in Ht.
    destruct (chunks !! i) as [c|] eqn:Hc; [|done]. cbn in Ht. injection Ht as <-.
    cbn. by eapply process_wallet_chunk_cost. }
  pose proof (gather_cost (cursors_in_range networks)
                (fun i => length (default [] (snd <$> chunks !! i)) * retry_budget networks)
                (chunk_order E) tasks st r0 st0 Hchunk Hinv Hg) as Hcost.
  assert (Hsum : sum_list_with
                   (fun i => length (default [] (snd <$> chunks !! i)) * retry_budget networks)
                   (seq 0 (length tasks))
                 = length input * retry_budget networks).
  { unfold tasks. rewrite length_map.
    rewrite (sum_list_with_lookup
               (fun o => length (default [] (snd <$> o)) * retry_budget networks) chunks).
    rewrite <- Hconcat. apply sum_chunk_lengths. }
  rewrite Hsum in Hcost.
  destruct r0; intros [= <- <-]; done.
Qed.

End RequestBound.

(** X10. [process_wallet_chunk] works through its chunk wallet by
    wallet: processing [chunk1 ++ chunk2] is processing [chunk1], then
    [chunk2] from the state and the position reached, and appending the
    two result lists; an exception of the first part is the exception
    of the whole. *)
Theorem process_wallet_chunk_is_sequential
    (networks : list (string * list string)) (E : Env)
    (chunk1 chunk2 : list string) (pos : nat) (st : State) :
  process_wallet_chunk networks E pos (chunk1 ++ chunk2) st
  = (let! first := process_wallet_chunk networks E pos chunk1 in
     let! second := process_wallet_chunk networks E (pos + length chunk1) chunk2 in
     ret (first ++ second)) st.
Proof. apply process_wallet_chunk_app. Qed.

(** X11. When one configured network has an empty endpoint list, every
    wallet of every non-empty input fails: the report still has one
    entry per input address, each under the address as given (not
    stripped) and each holding the single ERROR entry, whatever the
    other networks answer. *)
Theorem empty_endpoint_list_fails_every_wallet
    (networks : list (string * list string)) (E : Env)
    (n : string) (input : list string) (st : State) :
  assoc networks n = Some [] -> input <> [] ->
  exists report st', evm_checker networks E input st = (Return report, st') /\
    Forall2 (fun wb w => address wb = w /\ single_error_entry wb) (wallets report) input.
Proof. apply report_without_endpoints. Qed.

Lemma empty_endpoint_list_fails_every_wallet_witness :
  exists report st',
    evm_checker Scenario.one_empty (Scenario.last_first Sample.healthy)
                Scenario.seven initial_state = (Return report, st') /\
    Forall2 (fun wb w => address wb = w /\ single_error_entry wb)
            (wallets report) Scenario.seven.
Proof.
  assert (Hconf : assoc Scenario.one_empty "B" = Some []) by reflexivity.
  assert (Hne : Scenario.seven <> []) by discriminate.
  exact (empty_endpoint_list_fails_every_wallet Scenario.one_empty
           (Scenario.last_first Sample.healthy) "B" Scenario.seven initial_state Hconf Hne).
Defined.

(** X12. A run of [evm_checker] sends at most (number of input
    addresses) x (total number of configured endpoints) requests,
    whatever the endpoints answer and however the tasks interleave:
    each fetch has a budget of one request per endpoint of its network.
    (Every network has an endpoint, the names are those of a dictionary,
    and the cursors start inside their lists.) *)
Theorem evm_checker_request_bound
    (networks : list (string * list string)) (E : Env)
    (input : list string) (st : State) (r : result BalanceReport) (st' : State) :
  endpoints_nonempty networks -> NoDup (map fst networks) ->
  cursors_in_range networks st ->
  evm_checker networks E input st = (r, st') ->
  length (posted st') <= length (posted st) + length input * retry_budget networks.
Proof. intros Hnets Hnodup. by apply evm_checker_cost. Qed.

Lemma evm_checker_request_bound_witness :
  exists r st',
    evm_checker Scenario.two_networks (Scenario.last_first Scenario.all_limited)
                Scenario.six initial_state = (r, st') /\
    length (posted st') <= 24.
Proof.
  assert (Hnets : endpoints_nonempty Scenario.two_networks).
  { repeat constructor; discriminate. }
  assert (Hnodup : NoDup (map fst Scenario.two_networks)).
  { apply (bool_decide_unpack _). vm_compute. exact I. }
  assert (Hinv : cursors_in_range Scenario.two_networks initial_state).
  { intros network rpc_list _ i Hi. cbn in Hi. rewrite lookup_empty in Hi. discriminate. }
  destruct (evm_checker Scenario.two_networks (Scenario.last_first Scenario.all_limited)
              Scenario.six initial_state) as [r st'] eqn:Hrun.
  exists r, st'. split; [reflexivity|].
  exact (evm_checker_request_bound Scenario.two_networks
           (Scenario.last_first Scenario.all_limited) Scenario.six initial_state r st'
           Hnets Hnodup Hinv Hrun).
Defined.

(** ** Rate limiter and semaphore *)

Section LimiterFacts.
Import RateLimiter Governor.

Lemma run_invariant (P : world -> Prop) :
  (forall ev w w', P w -> step ev w = Some w' -> P w') ->
  forall schedule w w', P w -> run schedule w = Some w' -> P w'.
Proof.
  intros Hstep. induction schedule as [|ev rest IH]; intros w w' HP; cbn.
  - by intros [= <-].
  - destruct (step ev w) as [w1|] eqn:Hs; [|done]. apply IH. by eapply Hstep.
Qed.

Lemma run_exclusive_invariant (P : world -> Prop) :
  (forall ev w w', P w -> admissible w ev = true -> step ev w = Some w' -> P w') ->
  forall schedule w w', P w -> run_exclusive schedule w = Some w' -> P w'.
Proof.
  intros Hstep. induction schedule as [|ev rest IH]; intros w w' HP; cbn.
  - by intros [= <-].
  - destruct (admissible w ev) eqn:Ha; [|done].
    destruct (step ev w) as [w1|] eqn:Hs; [|done]. apply IH. by eapply Hstep.
Qed.

Lemma holders_set_pc i p ts t :
  ts !! i = Some t ->
  holders (set_pc i p ts) + holds (t_pc t) = holders ts + holds p.
Proof.
  unfold holders, set_pc. revert i. induction ts as [|x ts IH]; intros [|i]; cbn; try done.
  - intros [= ->]. lia.
  - intros Hi. specialize (IH i Hi). lia.
Qed.

Local Opaque holders set_pc.

Lemma permits_step ev w w' :
  permits w + holders (tasks w) = 3 -> step ev w = Some w' ->
  permits w' + holders (tasks w') = 3.
Proof.
  intros Hinv. destruct ev as [d|i]; cbn.
  - destruct (Qle_bool 0 d); [|done]. by intros [= <-].
  - destruct (tasks w !! i) as [t|] eqn:Hi; [|done].
    destruct (t_pc t) as [|wake| |] eqn:Hpc; [| | |done].
    + destruct (permits w) as [|free] eqn:Hp; [done|]. intros [= <-].
      unfold wait_for_rate_limit, record_and_post. cbn.
      destruct (last_request_time w !! t_network t) as [last|]; [|
        cbn; pose proof (holders_set_pc i Posting _ _ Hi) as H; rewrite Hpc in H; cbn in H; lia].
      destruct (Qlt_bool _ _); cbn.
      * pose proof (holders_set_pc i (Sleeping (now w + (MIN_REQUEST_INTERVAL - (now w - last))))
                      _ _ Hi) as H.
        rewrite Hpc in H. cbn in H. lia.
      * pose proof (holders_set_pc i Posting _ _ Hi) as H. rewrite Hpc in H. cbn in H. lia.
    + destruct (Qle_bool wake (now w)); [|done]. intros [= <-]. cbn.
      pose proof (holders_set_pc i Posting _ _ Hi) as H. rewrite Hpc in H. cbn in H. lia.
    + intros [= <-]. cbn.
      pose proof (holders_set_pc i Finished _ _ Hi) as H. rewrite Hpc in H. cbn in H. lia.
Qed.

Local Transparent holders set_pc.

Lemma holders_start names : holders (tasks (start names)) = 0.
Proof. unfold holders. cbn. induction names; cbn; [done|]. done. Qed.

(** *** Spacing under exclusive use *)

Lemma lookup_set_pc i p ts j t' :
  set_pc i p ts !! j = Some t' ->
  (j = i /\ exists t, ts !! i = Some t /\ t' = mkTask (t_network t) p) \/
  (j <> i /\ ts !! j = Some t').
Proof.
  unfold set_pc. destruct (decide (j = i)) as [->|Hne].
  - rewrite list_lookup_alter_eq. destruct (ts !! i) as [t|]; [|done].
    intros [= <-]. left. eauto.
  - rewrite list_lookup_alter_ne by done. by right.
Qed.

Lemma existsb_false {A} (f : A -> bool) (l : list A) j x :
  existsb f l = false -> l !! j = Some x -> f x = false.
Proof.
  revert j. induction l as [|y l IH]; intros [|j]; cbn; try done.
  - intros [H _]%orb_false_elim [= ->]. done.
  - intros [_ H]%orb_false_elim. by apply IH.
Qed.

Lemma spaced_snoc (l : list Q) (t : Q) :
  spaced (l ++ [t])
  = spaced l && match last l with
                | Some t0 => Qle_bool (t0 + MIN_REQUEST_INTERVAL) t
                | None => true
                end.
Proof.
  induction l as [|t1 [|t2 l] IH]; [done|cbn; by rewrite !andb_true_r|].
  change (spaced ((t1 :: t2 :: l) ++ [t]))
    with (Qle_bool (t1 + MIN_REQUEST_INTERVAL) t2 && spaced ((t2 :: l) ++ [t])).
  rewrite IH. change (spaced (t1 :: t2 :: l))
    with (Qle_bool (t1 + MIN_REQUEST_INTERVAL) t2 && spaced (t2 :: l)).
  change (last (t1 :: t2 :: l)) with (last (t2 :: l)). by rewrite andb_assoc.
Qed.

Lemma dispatch_times_record n i m w :
  dispatch_times n (record_and_post i m w)
  = dispatch_times n w ++ (if decide (m = n) then [now w] else []).
Proof.
  unfold dispatch_times, record_and_post. cbn [dispatches].
  rewrite filter_app, fmap_app. f_equal.
  destruct (decide (m = n)) as [->|Hne].
  - by rewrite filter_cons_True.
  - by rewrite filter_cons_False.
Qed.

Lemma sleeping_on_spec n t :
  sleeping_on n t = true <-> t_network t = n /\ exists wake, t_pc t = Sleeping wake.
Proof.
  unfold sleeping_on. rewrite andb_true_iff, bool_decide_eq_true. split.
  - intros [Hn Hp]. split; [done|]. destruct (t_pc t); try done. eauto.
  - by intros [Hn [wake ->]].
Qed.

Lemma limiter_inv_record n i m w t :
  limiter_inv n w -> tasks w !! i = Some t -> t_network t = m ->
  (m = n -> forall j tj, j <> i -> tasks w !! j = Some tj -> sleeping_on m tj = false) ->
  (m = n -> forall stamp, last_request_time w !! m = Some stamp ->
                          (stamp + MIN_REQUEST_INTERVAL <= now w)%Q) ->
  limiter_inv n (record_and_post i m w).
Proof.
  intros (Ha & Hb & Hc & Hd) Hi Hm Hquiet Hgap.
  unfold limiter_inv. rewrite dispatch_times_record.
  cbn [record_and_post last_request_time tasks].
  assert (Hold : forall j t', set_pc i Posting (tasks w) !! j = Some t' ->
            sleeping_on n t' = true \/ (exists wake, t_pc t' = Sleeping wake) ->
            j <> i /\ tasks w !! j = Some t').
  { intros j t' [[-> (t0 & _ & ->)]|Hj]%lookup_set_pc; [|done].
    intros [Hs|[wake Hs]]; [|done]. apply sleeping_on_spec in Hs as [_ [wake Hs]]. done. }
  destruct (decide (m = n)) as [->|Hne].
  - specialize (Hquiet eq_refl). specialize (Hgap eq_refl). repeat split.
    + rewrite spaced_snoc, Ha. cbn [andb].
      destruct (last (dispatch_times n w)) as [t0|] eqn:Hlast; [|done].
      apply Qle_bool_iff. apply Hgap. by rewrite Hb.
    + by rewrite lookup_insert_eq, last_snoc.
    + intros j1 j2 t1 t2 H1 _ Hs1 _.
      apply Hold in H1 as [Hne1 H1]; [|by left].
      by rewrite (Hquiet j1 t1 Hne1 H1) in Hs1.
    + intros j t' wake stamp H1 Hn Hpc _. exfalso.
      apply Hold in H1 as [Hne1 H1]; [|by eauto].
      assert (sleeping_on n t' = true) as Hs by (apply sleeping_on_spec; eauto).
      by rewrite (Hquiet j t' Hne1 H1) in Hs.
  - rewrite app_nil_r, lookup_insert_ne by done. repeat split; [done|done| |].
    + intros j1 j2 t1 t2 H1 H2 Hs1 Hs2.
      apply Hold in H1 as [_ H1]; [|by left]. apply Hold in H2 as [_ H2]; [|by left].
      by eapply Hc.
    + intros j t' wake stamp H1 Hn Hpc Hstamp.
      apply Hold in H1 as [_ H1]; [|by eauto]. by eapply Hd.
Qed.

Lemma limiter_inv_sleep n i m w t wake0 stamp0 free :
  limiter_inv n w -> tasks w !! i = Some t -> t_network t = m ->
  (forall j tj, tasks w !! j = Some tj -> sleeping_on m tj = false) ->
  last_request_time w !! m = Some stamp0 ->
  (stamp0 + MIN_REQUEST_INTERVAL <= wake0)%Q ->
  limiter_inv n {| now := now w; last_request_time := last_request_time w;
                   permits := free;
                   tasks := set_pc i (Sleeping wake0) (tasks w);
                   dispatches := dispatches w |}.
Proof.
  intros (Ha & Hb & Hc & Hd) Hi Hm Hquiet Hstamp Hwake.
  unfold limiter_inv. cbn [last_request_time tasks].
  split; [exact Ha|]. split; [exact Hb|]. split.
  - intros j1 j2 t1 t2
      [[-> (t0 & Ht0 & ->)]|[Hne1 H1]]%lookup_set_pc
      [[-> (t0' & Ht0' & ->)]|[Hne2 H2]]%lookup_set_pc Hs1 Hs2; [done| | |by eapply Hc].
    + apply sleeping_on_spec in Hs1 as [Hn _]. cbn in Hn.
      assert (t0 = t) as -> by congruence. rewrite Hm in Hn. subst n.
      by rewrite (Hquiet j2 t2 H2) in Hs2.
    + apply sleeping_on_spec in Hs2 as [Hn _]. cbn in Hn.
      assert (t0' = t) as -> by congruence. rewrite Hm in Hn. subst n.
      by rewrite (Hquiet j1 t1 H1) in Hs1.
  - intros j t' wake stamp [[-> (t0 & Ht0 & ->)]|[Hne1 H1]]%lookup_set_pc Hn Hpc Hs.
    + cbn in Hn, Hpc. assert (t0 = t) as -> by congruence.
      rewrite Hm in Hn. subst n. injection Hpc as <-.
      rewrite Hstamp in Hs. injection Hs as <-. done.
    + by eapply Hd.
Qed.

Lemma limiter_inv_finish n i w free :
  limiter_inv n w ->
  limiter_inv n {| now := now w; last_request_time := last_request_time w;
                   permits := free;
                   tasks := set_pc i Finished (tasks w);
                   dispatches := dispatches w |}.
Proof.
  intros (Ha & Hb & Hc & Hd).
  unfold limiter_inv. cbn [last_request_time tasks].
  split; [exact Ha|]. split; [exact Hb|].
  assert (Hold : forall j t', set_pc i Finished (tasks w) !! j = Some t' ->
            (exists wake, t_pc t' = Sleeping wake) -> tasks w !! j = Some t').
  { intros j t' [[-> (t0 & _ & ->)]|[_ Hj]]%lookup_set_pc [wake Hs]; done. }
  split.
  - intros j1 j2 t1 t2 H1 H2 Hs1 Hs2.
    apply Hold in H1; [|by apply sleeping_on_spec in Hs1 as [_ ?]].
    apply Hold in H2; [|by apply sleeping_on_spec in Hs2 as [_ ?]].
    by eapply Hc.
  - intros j t' wake stamp H1 Hn Hpc Hs. apply Hold in H1; [|by eauto]. by eapply Hd.
Qed.

Lemma limiter_inv_step n ev w w' :
  limiter_inv n w -> admissible w ev = true -> step ev w = Some w' -> limiter_inv n w'.
Proof.
  intros Hinv. destruct ev as [d|i]; cbn.
  - intros _. destruct (Qle_bool 0 d); [|done]. by intros [= <-].
  - destruct (tasks w !! i) as [t|] eqn:Hi; [|done].
    destruct (t_pc t) as [|wake| |] eqn:Hpc; [| | |done].
    + intros Hquiet%negb_true_iff.
      destruct (permits w) as [|free] eqn:Hp; [done|]. intros [= <-].
      set (w0 := {| now := now w; last_request_time := last_request_time w;
                    permits := free; tasks := tasks w; dispatches := dispatches w |}).
      assert (Hinv0 : limiter_inv n w0) by exact Hinv.
      unfold wait_for_rate_limit.
      destruct (last_request_time w0 !! t_network t) as [stamp|] eqn:Hstamp.
      * destruct (Qlt_bool (now w0 - stamp) MIN_REQUEST_INTERVAL) eqn:Hlt.
        -- apply (limiter_inv_sleep n i (t_network t) w t _ stamp free); try done.
           ++ intros j tj Hj. by eapply existsb_false.
           ++ cbn. unfold MIN_REQUEST_INTERVAL. lra.
        -- apply (limiter_inv_record n i (t_network t) w0 t); try done.
           ++ intros _ j tj _ Hj. by eapply (existsb_false _ (tasks w)).
           ++ intros _ stamp' Hs. rewrite Hstamp in Hs. injection Hs as <-.
              unfold Qlt_bool in Hlt. apply negb_false_iff, Qle_bool_iff in Hlt.
              cbn in Hlt |- *. lra.
      * apply (limiter_inv_record n i (t_network t) w0 t); try done.
        -- intros _ j tj _ Hj. by eapply (existsb_false _ (tasks w)).
        -- intros _ stamp' Hs. by rewrite Hstamp in Hs.
    + intros _. destruct (Qle_bool wake (now w)) eqn:Hwake; [|done]. intros [= <-].
      apply Qle_bool_iff in Hwake.
      pose proof Hinv as (Ha & Hb & Hc & Hd).
      apply (limiter_inv_record n i (t_network t) w t); try done.
      * intros Hn j tj Hne Hj.
        destruct (sleeping_on (t_network t) tj) eqn:Hs; [|done]. exfalso. apply Hne.
        rewrite Hn in Hs. apply (Hc j i tj t Hj Hi Hs).
        apply sleeping_on_spec. eauto.
      * intros Hn stamp Hs. rewrite Hn in Hs.
        pose proof (Hd i t wake stamp Hi Hn Hpc Hs) as Hle. lra.
    + intros _ [= <-]. by apply limiter_inv_finish.
Qed.

Lemma limiter_inv_start n names : limiter_inv n (start names).
Proof.
  unfold limiter_inv, dispatch_times. cbn. repeat split.
  - intros i j ti tj Hi _ Hs _. exfalso.
    apply list_lookup_fmap_Some in Hi as (x & -> & _).
    by apply sleeping_on_spec in Hs as [_ [wake Hs]].
  - intros i t wake stamp Hi _ Hpc _. exfalso.
    by apply list_lookup_fmap_Some in Hi as (x & -> & _).
Qed.

Lemma run_exclusive_spaced_aux schedule names n w :
  run_exclusive schedule (start names) = Some w -> limiter_inv n w.
Proof.
  apply (run_exclusive_invariant (limiter_inv n)).
  - intros ev w0 w1 Hinv Hadm Hstep. by eapply limiter_inv_step.
  - apply limiter_inv_start.
Qed.

End LimiterFacts.

Section GovernorTheorems.
Import RateLimiter Governor.

Lemma run_exclusive_run schedule :
  forall w w', run_exclusive schedule w = Some w' -> run schedule w = Some w'.
Proof.
  induction schedule as [|ev rest IH]; intros w w'; cbn; [done|].
  destruct (admissible w ev); [|done]. destruct (step ev w) as [w1|]; [|done]. apply IH.
Qed.

(** X13. In every world that a schedule of the event loop reaches from
    the start, the free permits of [REQUEST_SEMAPHORE] and the attempts
    inside its [async with] block (asleep in the limiter or posting)
    add up to 3: at most three attempts are past the semaphore at any
    time, and a permit is never lost. *)
Theorem semaphore_permits_are_conserved
    (names : list string) (schedule : list event) (w : world) :
  run schedule (start names) = Some w ->
  permits w + holders (tasks w) = 3.
Proof.
  apply (run_invariant (fun w => permits w + holders (tasks w) = 3)).
  - intros ev w0 w1 Hinv Hstep. by eapply permits_step.
  - cbn [start permits tasks]. change (map (fun n => mkTask n AtSemaphore) names)
      with (tasks (start names)). by rewrite holders_start.
Qed.

Lemma semaphore_permits_are_conserved_witness :
  match run race_schedule (start ["A"; "A"; "A"]) with
  | Some w => permits w + holders (tasks w) = 3
  | None => False
  end.
Proof.
  destruct (run race_schedule (start ["A"; "A"; "A"])) as [w|] eqn:Hrun.
  - exact (semaphore_permits_are_conserved ["A"; "A"; "A"] race_schedule w Hrun).
  - vm_compute in Hrun. discriminate Hrun.
Defined.

(** X14. On schedules in which no attempt enters [wait_for_rate_limit]
    while another attempt on the same network is asleep in it, the
    limiter does what its comment says: consecutive requests to one
    network are at least [MIN_REQUEST_INTERVAL] apart, and
    [last_request_time] of the network is the time of its latest
    request. *)
Theorem exclusive_callers_are_spaced
    (names : list string) (schedule : list event) (n : string) (w : world) :
  run_exclusive schedule (start names) = Some w ->
  run schedule (start names) = Some w /\
  spaced (dispatch_times n w) = true /\
  last_request_time w !! n = last (dispatch_times n w).
Proof.
  intros Hrun. split; [by apply run_exclusive_run|].
  destruct (run_exclusive_spaced_aux schedule names n w Hrun) as (Ha & Hb & _).
  done.
Qed.

Lemma exclusive_callers_are_spaced_witness :
  match run_exclusive Sample.one_after_the_other (start ["A"; "A"]) with
  | Some w => spaced (dispatch_times "A" w) = true /\
              length (dispatch_times "A" w) = 2
  | None => False
  end.
Proof.
  destruct (run_exclusive Sample.one_after_the_other (start ["A"; "A"])) as [w|] eqn:Hrun.
  - split.
    + exact (proj1 (proj2 (exclusive_callers_are_spaced ["A"; "A"]
                             Sample.one_after_the_other "A" w Hrun))).
    + vm_compute in Hrun. injection Hrun as <-. reflexivity.
  - vm_compute in Hrun. discriminate Hrun.
Defined.





End GovernorTheorems.

(** ** The wallet file and [main] *)

Section WalletFileFacts.

Local Notation "'nl'" := (String line_feed EmptyString) (only parsing).
Local Arguments in_chars : simpl never.

Lemma in_chars_nl c : in_chars nl c = Ascii.eqb c line_feed.
Proof. unfold in_chars. cbn. by rewrite orb_false_r. Qed.

Lemma readlines_nil text : readlines text = [] <-> text = "".
Proof.
  destruct text as [|c rest]; [done|]. cbn.
  destruct (Ascii.eqb c line_feed); [done|]. by destruct (readlines rest).
Qed.

(** A line is the bare line feed or does not start with one. *)
Lemma readlines_head text :
  Forall (fun line => line = nl \/ lstrip_chars nl line = line) (readlines text).
Proof.
  induction text as [|c rest IH]; [by constructor|]. cbn.
  destruct (Ascii.eqb c line_feed) eqn:Hc.
  - apply Ascii.eqb_eq in Hc as ->. constructor; [by left|done].
  - destruct (readlines rest) as [|line lines].
    + constructor; [|done]. right. cbn. by rewrite in_chars_nl, Hc.
    + constructor; [|by eapply Forall_inv_tail]. right. cbn. by rewrite in_chars_nl, Hc.
Qed.

Lemma strip_chars_cons c line :
  Ascii.eqb c line_feed = false ->
  line = nl \/ lstrip_chars nl line = line ->
  strip_chars nl (String c line) = String c (strip_chars nl line).
Proof.
  intros Hc Hline. unfold strip_chars. cbn [lstrip_chars]. rewrite in_chars_nl, Hc.
  cbn [rstrip_chars]. rewrite in_chars_nl, Hc.
  destruct Hline as [-> | ->]; [done|]. by destruct (rstrip_chars nl line).
Qed.

Lemma concat_cons_char sep c w ws :
  String.concat sep (String c w :: ws) = String c (String.concat sep (w :: ws)).
Proof. by destruct ws. Qed.

Lemma read_wallets_spec text :
  Forall (fun w => line_feed ∉ list_ascii_of_string w) (read_wallets text) /\
  exists tail, (tail = "" \/ tail = nl) /\
               text = String.concat nl (read_wallets text) +:+ tail.
Proof.
  unfold read_wallets. induction text as [|c rest (IHa & tail & Htail & IHb)].
  - split; [by constructor|]. exists "". by split; [left|].
  - cbn [readlines]. destruct (Ascii.eqb c line_feed) eqn:Hc.
    + apply Ascii.eqb_eq in Hc as ->. cbn [map]. split.
      * constructor; [|done]. cbn. set_solver.
      * change (strip_chars nl nl) with "".
        destruct (map (strip_chars nl) (readlines rest)) as [|w ws] eqn:Hws.
        -- exists nl. split; [by right|]. cbn in IHb. destruct Htail as [-> | ->].
           ++ by rewrite IHb.
           ++ exfalso. apply fmap_nil_inv in Hws. apply readlines_nil in Hws.
              by rewrite Hws in IHb.
        -- exists tail. split; [done|].
           change (String.concat nl ("" :: w :: ws))
             with (nl +:+ String.concat nl (w :: ws)).
           cbn. by rewrite IHb at 1.
    + pose proof (readlines_head rest) as Hhead.
      destruct (readlines rest) as [|line lines] eqn:Hlines.
      * apply readlines_nil in Hlines as ->. split.
        -- constructor; [|done]. unfold strip_chars. cbn. rewrite in_chars_nl, Hc. cbn.
           rewrite in_chars_nl, Hc. cbn.
           rewrite list_elem_of_singleton. intros <-. by rewrite Ascii.eqb_refl in Hc.
        -- exists "". split; [by left|]. unfold strip_chars. cbn.
           rewrite in_chars_nl, Hc. cbn. by rewrite in_chars_nl, Hc.
      * apply Forall_cons in Hhead as [Hline _]. cbn [map] in *.
        rewrite (strip_chars_cons c line Hc Hline). split.
        -- apply Forall_cons in IHa as [Hw Hws]. constructor; [|done]. cbn.
           rewrite elem_of_cons. intros [<-|?]; [by rewrite Ascii.eqb_refl in Hc|done].
        -- exists tail. split; [done|]. rewrite concat_cons_char. cbn. by rewrite IHb at 1.
Qed.

Lemma read_wallets_nil text : read_wallets text = [] <-> text = "".
Proof.
  unfold read_wallets. rewrite <- readlines_nil. split; [apply fmap_nil_inv|by intros ->].
Qed.

Lemma rstrip_cons c s :
  rstrip (String c s)
  = match rstrip s with
    | EmptyString => if is_space c then EmptyString else String c EmptyString
    | r => String c r
    end.
Proof. done. Qed.

Lemma rstrip_rstrip_chars s : rstrip (rstrip_chars nl s) = rstrip s.
Proof.
  induction s as [|c s IH]; [done|]. cbn [rstrip_chars]. rewrite in_chars_nl.
  rewrite (rstrip_cons c s), <- IH.
  destruct (rstrip_chars nl s) as [|c' r] eqn:Hr.
  - cbn [rstrip]. destruct (Ascii.eqb c line_feed) eqn:Hc; [|done].
    apply Ascii.eqb_eq in Hc as ->. done.
  - by rewrite (rstrip_cons c).
Qed.

Lemma lstrip_lstrip_chars s : lstrip (lstrip_chars nl s) = lstrip s.
Proof.
  induction s as [|c s IH]; [done|]. cbn [lstrip_chars]. rewrite in_chars_nl.
  destruct (Ascii.eqb c line_feed) eqn:Hc; [|done].
  apply Ascii.eqb_eq in Hc as ->. by rewrite IH.
Qed.

Lemma rstrip_lstrip s : rstrip (lstrip s) = lstrip (rstrip s).
Proof.
  induction s as [|c s IH]; [done|]. cbn [lstrip]. rewrite (rstrip_cons c s).
  destruct (is_space c) eqn:Hc.
  - rewrite IH. destruct (rstrip s) as [|c' r]; [done|]. cbn [lstrip]. by rewrite Hc.
  - rewrite (rstrip_cons c s).
    destruct (rstrip s) as [|c' r]; cbn [lstrip]; by rewrite Hc.
Qed.

Lemma strip_strip_chars s : strip (strip_chars nl s) = strip s.
Proof.
  unfold strip, strip_chars.
  by rewrite rstrip_lstrip, rstrip_rstrip_chars, <- rstrip_lstrip, lstrip_lstrip_chars.
Qed.

End WalletFileFacts.

(** X16. The addresses that [main] reads from the file are the text cut
    at its line feeds: no address contains a line feed, joining them
    with line feeds gives the text back up to one final line feed, and
    there is no address exactly when the file is empty.  An empty line
    is kept as the empty address. *)
Theorem read_wallets_cuts_at_line_feeds (text : string) :
  Forall (fun w => line_feed ∉ list_ascii_of_string w) (read_wallets text) /\
  (exists tail, (tail = "" \/ tail = String line_feed "") /\
                text = String.concat (String line_feed "") (read_wallets text) +:+ tail) /\
  (read_wallets text = [] <-> text = "").
Proof.
  destruct (read_wallets_spec text) as [Hall Hjoin].
  split; [done|]. split; [done|]. apply read_wallets_nil.
Qed.

(** X17. [main] on an empty file raises the [ValueError] of the chunking
    before any request; on any other file it hands [write_results] a
    report with one wallet per line of the file, in order, blank lines
    included: a resolved wallet under the line stripped of white space,
    a failed one under the line without its line feed. *)
Theorem main_reports_every_line
    (networks : list (string * list string)) (E : Env) (text : string) (st : State) :
  main networks E "" st = (Raise ValueError, st) /\
  (text <> "" ->
   exists report st', main networks E text st = (Return report, st') /\
     Forall2 (fun wb line =>
                (address wb = strip line /\ one_per_network networks wb) \/
                (address wb = strip_chars (String line_feed "") line /\
                 single_error_entry wb))
             (wallets report) (readlines text)).
Proof.
  split; [done|]. intros Hne. unfold main.
  destruct (evm_checker_reported networks E (read_wallets text) st)
    as (report & st' & Hrun & Hall).
  { by rewrite read_wallets_nil. }
  exists report, st'. split; [done|].
  unfold read_wallets in Hall. apply Forall2_fmap_r in Hall.
  eapply Forall2_impl; [exact Hall|].
  intros wb line [[Ha Hb]|[Ha Hb]]; [left|right]; (split; [|done]).
  - by rewrite Ha, strip_strip_chars.
  - done.
Qed.

Lemma main_reports_every_line_witness :
  exists report st',
    main Scenario.two_networks (Scenario.in_turn Sample.healthy) Sample.wallets_txt
         initial_state = (Return report, st') /\
    map address (wallets report) = ["w1"; ""; "w3"; "w4"].
Proof.
  assert (Hne : Sample.wallets_txt <> "") by discriminate.
  destruct (proj2 (main_reports_every_line Scenario.two_networks
                     (Scenario.in_turn Sample.healthy) Sample.wallets_txt initial_state)
              Hne) as (report & st' & Hrun & _).
  exists report, st'. split; [exact Hrun|].
  vm_compute in Hrun. injection Hrun as <- _. reflexivity.
Defined.

(** ** The columns of the sheet *)

Section ColumnFacts.

Lemma length_assign vars b : length (assign vars b) = length vars.
Proof. unfold assign. repeat case_decide; by rewrite ?length_insert. Qed.

Lemma length_foldl_assign bs vars : length (foldl assign vars bs) = length vars.
Proof.
  revert vars. induction bs as [|b bs IH]; intros vars; [done|]. cbn.
  by rewrite IH, length_assign.
Qed.

Lemma assign_lookup vars b k name :
  length vars = 10 -> headers_xlsx !! S k = Some name ->
  assign vars b !! k
  = if decide (network b = name) then Some (Amount (balance b)) else vars !! k.
Proof.
  intros Hlen Hk.
  do 10 (destruct k as [|k]; [injection Hk as <-; unfold assign;
    repeat case_decide; try congruence;
    rewrite ?list_lookup_insert_ne by done; try done;
    by (rewrite list_lookup_insert_eq by lia)|]).
  done.
Qed.

Lemma foldl_assign_lookup bs vars k name :
  length vars = 10 -> headers_xlsx !! S k = Some name ->
  foldl assign vars bs !! k
  = match last (filter (fun b => network b = name) bs) with
    | Some b => Some (Amount (balance b))
    | None => vars !! k
    end.
Proof.
  intros Hlen Hk. revert vars Hlen. induction bs as [|b bs IH]; intros vars Hlen; [done|].
  cbn [foldl]. rewrite IH by (by rewrite length_assign).
  rewrite (assign_lookup vars b k name Hlen Hk). rewrite filter_cons.
  destruct (decide (network b = name)) as [Hb|Hb].
  - rewrite last_cons. by destruct (last (filter _ bs)).
  - done.
Qed.

Lemma label_lookup k name :
  headers_xlsx !! S k = Some name ->
  ["ethereum"; "sepolia"; "linea"; "polygon"; "base"; "blast";
   "optimism"; "arbitrum"; "zksync"; "bsc"] !! k = Some (lower name).
Proof.
  intros Hk. do 10 (destruct k as [|k]; [by injection Hk as <-|]). done.
Qed.

Lemma balances_with_networks_lookup wallet k name :
  headers_xlsx !! S k = Some name ->
  balances_with_networks wallet !! k
  = Some (match last (filter (fun b => network b = name) (balances wallet)) with
          | Some b => Amount (balance b)
          | None => NoneText
          end, lower name).
Proof.
  intros Hk. unfold balances_with_networks.
  rewrite lookup_zip_with, (foldl_assign_lookup _ _ k name), (label_lookup k name) by done.
  assert (k < 10) as Hlt.
  { apply lookup_lt_Some in Hk. cbn in Hk. lia. }
  rewrite (lookup_replicate_2 _ _ _ Hlt).
  by destruct (last _).
Qed.

Lemma balances_with_networks_length wallet : length (balances_with_networks wallet) = 10.
Proof.
  unfold balances_with_networks.
  by rewrite length_zip_with, length_foldl_assign, length_replicate.
Qed.

Lemma last_filter_elem {A} (P : A -> Prop) `{!forall x, Decision (P x)} (l : list A) x :
  last (filter P l) = Some x -> x ∈ l /\ P x.
Proof.
  intros Hl. apply last_Some in Hl as [l' Hl].
  assert (x ∈ filter P l) as Hx by (rewrite Hl; set_solver).
  by apply list_elem_of_filter in Hx as [? ?].
Qed.

(** From a report of [evm_checker], an amount shows only in the column
    of a configured network, for a wallet that was resolved. *)
Lemma amount_configured networks E input st report st' wb k v label :
  evm_checker networks E input st = (Return report, st') ->
  wb ∈ wallets report ->
  balances_with_networks wb !! k = Some (v, label) -> v <> NoneText ->
  exists name, headers_xlsx !! S k = Some name /\ label = lower name /\
               name ∈ map fst networks /\ one_per_network networks wb.
Proof.
  intros Hrun Hwb Hk Hv.
  assert (k < 10) as Hlt.
  { apply lookup_lt_Some in Hk. by rewrite balances_with_networks_length in Hk. }
  destruct (headers_xlsx !! S k) as [name|] eqn:Hname;
    [|apply lookup_ge_None in Hname; cbn in Hname; lia].
  rewrite (balances_with_networks_lookup wb k name Hname) in Hk.
  injection Hk as <- <-. exists name. split; [done|]. split; [done|].
  destruct (last _) as [b|] eqn:Hlast; [|done].
  apply last_filter_elem in Hlast as [Hb Hnet].
  apply evm_checker_Return in Hrun.
  apply list_elem_of_lookup in Hwb as [i Hi].
  destruct (Forall2_lookup_l _ _ _ _ _ Hrun Hi) as (w & _ & [[_ Hone]|[_ [e He]]]).
  - split; [|done]. rewrite <- Hone, <- Hnet. by apply list_elem_of_fmap_2.
  - exfalso. rewrite He in Hb. apply list_elem_of_singleton in Hb as ->.
    cbn in Hnet. subst name.
    do 10 (destruct k as [|k]; [done|]). done.
Qed.

End ColumnFacts.

(** X18. For each of the ten balance columns of the sheet, the value
    that [write_results] formats for a wallet is the amount of the last
    entry of the wallet whose network name equals the column header
    (compared as written, upper and lower case distinguished), or the
    text 'None' when the wallet has no such entry; the threshold is
    looked up under the header in lower case. *)
Theorem column_shows_last_entry_of_its_network
    (wallet : WalletBalances) (k : nat) (name : string) :
  headers_xlsx !! S k = Some name ->
  balances_with_networks wallet !! k
  = Some (match last (filter (fun b => network b = name) (balances wallet)) with
          | Some b => Amount (balance b)
          | None => NoneText
          end, lower name).
Proof. apply balances_with_networks_lookup. Qed.

Lemma column_shows_last_entry_of_its_network_witness :
  balances_with_networks Sample.mixed_wallet !! 3
  = Some (Amount (Decimal_of_int 3), "polygon").
Proof.
  assert (Hk : headers_xlsx !! 4 = Some "Polygon") by reflexivity.
  exact (column_shows_last_entry_of_its_network Sample.mixed_wallet 3 "Polygon" Hk).
Defined.

(** X19. In the rows written for a report of [evm_checker], an amount
    appears only in a column whose header is, letter for letter, the
    name of a configured network, and only for a wallet that was
    resolved: a failed wallet, and every network configured under a
    name that is not one of the ten headers, shows as 'None'. *)
Theorem amounts_only_in_configured_columns
    (networks : list (string * list string)) (E : Env) (input : list string)
    (st : State) (report : BalanceReport) (st' : State)
    (wb : WalletBalances) (k : nat) (v : cell_value) (label : string) :
  evm_checker networks E input st = (Return report, st') ->
  wb ∈ wallets report ->
  balances_with_networks wb !! k = Some (v, label) -> v <> NoneText ->
  exists name, headers_xlsx !! S k = Some name /\ label = lower name /\
               name ∈ map fst networks /\ one_per_network networks wb.
Proof. apply amount_configured. Qed.

Lemma amounts_only_in_configured_columns_witness :
  exists report st' wb v,
    evm_checker Sample.mainnets (Scenario.in_turn Sample.healthy) ["w1"] initial_state
    = (Return report, st') /\
    wallets report = [wb] /\
    map fst (balances_with_networks wb)
    = [v; NoneText; NoneText; NoneText; NoneText;
       NoneText; NoneText; NoneText; NoneText; NoneText] /\
    exists name, headers_xlsx !! 1 = Some name /\ name ∈ map fst Sample.mainnets.
Proof.
  destruct (evm_checker Sample.mainnets (Scenario.in_turn Sample.healthy) ["w1"]
              initial_state) as [r st'] eqn:Hrun.
  pose proof Hrun as Hval. vm_compute in Hval. injection Hval as <- <-.
  eexists _, _, _, _. split; [reflexivity|]. split; [reflexivity|].
  split; [reflexivity|].
  destruct (amounts_only_in_configured_columns Sample.mainnets
              (Scenario.in_turn Sample.healthy) ["w1"] initial_state _ _ _ 0 _ _
              Hrun ltac:(apply list_elem_of_here) eq_refl ltac:(discriminate))
    as (name & Hname & _ & Hin & _).
  exists name. split; [exact Hname|exact Hin].
Defined.

(** ** Configuration loader *)

Section LoaderFacts.

Lemma rpcs_of_Loaded entries networks :
  rpcs_of entries = Loaded networks <->
  Forall2 (fun e n => n.1 = e.1 /\
             exists fields, e.2 = TTable fields /\ table_get fields "rpcs" = Some n.2)
          entries networks.
Proof.
  revert networks. induction entries as [|[network rpcs] rest IH]; intros networks; cbn.
  - split; [intros [= <-]; constructor|]. by intros ->%Forall2_nil_inv_l.
  - split.
    + destruct rpcs as [fields| | | | | |]; cbn; try done.
      destruct (table_get fields "rpcs") as [v|] eqn:Hv; [|done].
      destruct (rpcs_of rest) as [l|] eqn:Hrest; [|done].
      intros [= <-]. constructor; [|by apply IH]. cbn. eauto.
    + intros (n & l & [Hname (fields & Hfields & Hv)] & Hrest & ->)%Forall2_cons_inv_l.
      cbn in Hname, Hfields. subst rpcs. cbn. rewrite Hv. apply IH in Hrest as ->.
      destruct n; cbn in *; by subst.
Qed.

Lemma load_networks_config_Loaded config c :
  load_networks_config config = Loaded c <->
  (exists entries,
      table_get config "networks" = Some (TTable entries) /\
      Forall2 (fun e n => n.1 = e.1 /\
                 exists fields, e.2 = TTable fields /\ table_get fields "rpcs" = Some n.2)
              entries (config_networks c)) /\
  table_get config "thresholds" = Some (config_thresholds c).
Proof.
  unfold load_networks_config. cbn. split.
  - destruct (table_get config "networks") as [table|]; [|done]. cbn.
    destruct table as [entries| | | | | |]; cbn; try done.
    destruct (rpcs_of entries) as [networks|] eqn:Hn; [|done].
    destruct (table_get config "thresholds") as [t|]; [|done]. intros [= <-]. cbn.
    split; [|done]. exists entries. split; [done|]. by apply rpcs_of_Loaded.
  - intros [(entries & -> & Hn%rpcs_of_Loaded) ->]. cbn. rewrite Hn. by destruct c.
Qed.

Lemma table_get_rpcs entries nets n fields v :
  Forall2 (fun e n => n.1 = e.1 /\
             exists fields, e.2 = TTable fields /\ table_get fields "rpcs" = Some n.2)
          entries nets ->
  table_get entries n = Some (TTable fields) -> table_get fields "rpcs" = Some v ->
  table_get nets n = Some v.
Proof.
  induction 1 as [|[k e] [k' x] entries nets [Hk (fields' & He & Hx)] _ IH]; [done|].
  cbn in Hk, He, Hx. subst k' e. cbn. destruct (decide (k = n)) as [_|_]; [|done].
  intros [= ->] Hv. congruence.
Qed.

Lemma engine_networks_assoc c networks n v :
  engine_networks c = Some networks -> table_get (config_networks c) n = Some v ->
  exists rpc_list, as_endpoints v = Some rpc_list /\ assoc networks n = Some rpc_list.
Proof.
  unfold engine_networks. intros Hall%mapM_Some.
  induction Hall as [|[k x] [k' l] nets networks Hx _ IH]; [done|].
  cbn in Hx. destruct (as_endpoints x) as [l'|] eqn:Hl; [|done]. injection Hx as <- <-.
  cbn. destruct (decide (k = n)) as [_|_]; [|done]. intros [= <-]. eauto.
Qed.

Lemma loaded_without_endpoints config entries n fields c networks E input st :
  table_get config "networks" = Some (TTable entries) ->
  table_get entries n = Some (TTable fields) ->
  table_get fields "rpcs" = Some (TArray []) ->
  load_networks_config config = Loaded c ->
  engine_networks c = Some networks ->
  input <> [] ->
  exists report st', evm_checker networks E input st = (Return report, st') /\
    Forall2 (fun wb w => address wb = w /\ single_error_entry wb) (wallets report) input.
Proof.
  intros Hnets Hn Hrpcs [(entries' & Hnets' & Hall) _]%load_networks_config_Loaded Heng Hne.
  assert (entries' = entries) as -> by congruence.
  pose proof (table_get_rpcs _ _ _ _ _ Hall Hn Hrpcs) as Hget.
  destruct (engine_networks_assoc _ _ _ _ Heng Hget) as (rpc_list & [= <-] & Hassoc).
  by apply (report_without_endpoints networks E n).
Qed.

End LoaderFacts.

(** X20. [load_networks_config] returns exactly when the parsed file has
    a table "networks" whose every value is a table with a key "rpcs",
    and a key "thresholds".  The networks of the result are then those
    of the file, in the order of the file, each with the value of its
    "rpcs" as it stands, and the thresholds are the value of
    "thresholds": the loader checks neither that an "rpcs" value is a
    list of strings, nor that it is not empty, nor what the thresholds
    are. *)
Theorem load_networks_config_returns_iff
    (config : list (string * toml)) (c : Config) :
  load_networks_config config = Loaded c <->
  (exists entries,
      table_get config "networks" = Some (TTable entries) /\
      Forall2 (fun e n => n.1 = e.1 /\
                 exists fields, e.2 = TTable fields /\ table_get fields "rpcs" = Some n.2)
              entries (config_networks c)) /\
  table_get config "thresholds" = Some (config_thresholds c).
Proof. apply load_networks_config_Loaded. Qed.

(** X21. A configuration file in which one network has [rpcs = []] is
    loaded without complaint, and the run on it reports every wallet
    of a non-empty input as failed, with the single ERROR entry. *)
Theorem loaded_empty_endpoint_list_fails_every_wallet
    (config entries fields : list (string * toml)) (n : string) (c : Config)
    (networks : list (string * list string)) (E : Env)
    (input : list string) (st : State) :
  table_get config "networks" = Some (TTable entries) ->
  table_get entries n = Some (TTable fields) ->
  table_get fields "rpcs" = Some (TArray []) ->
  load_networks_config config = Loaded c ->
  engine_networks c = Some networks ->
  input <> [] ->
  exists report st', evm_checker networks E input st = (Return report, st') /\
    Forall2 (fun wb w => address wb = w /\ single_error_entry wb) (wallets report) input.
Proof. apply loaded_without_endpoints. Qed.

Lemma loaded_empty_endpoint_list_fails_every_wallet_witness :
  exists c,
    load_networks_config Sample.config_toml = Loaded c /\
    engine_networks c = Some Scenario.one_empty /\
    exists report st',
      evm_checker Scenario.one_empty (Scenario.in_turn Sample.healthy) Scenario.six
                  initial_state = (Return report, st') /\
      Forall2 (fun wb w => address wb = w /\ single_error_entry wb)
              (wallets report) Scenario.six.
Proof.
  eexists. split; [reflexivity|]. split; [reflexivity|].
  refine (loaded_empty_endpoint_list_fails_every_wallet Sample.config_toml _ _ "B" _
            Scenario.one_empty (Scenario.in_turn Sample.healthy) Scenario.six
            initial_state eq_refl eq_refl eq_refl eq_refl eq_refl _).
  discriminate.
Defined.
